(** * NYC Coffee voice cashier: the conversational turn controller

    A shallow embedding of the ordering front end:
    - [Js]: JavaScript strings as sequences of UTF-16 code units, with
      [String.prototype.trim] and the [\s] character class;
    - [Receipt]: [RECEIPT_REGEX], [parseReceipt] and [stripReceiptBlock] of
      [components/chat/ChatInterface.tsx];
    - [Tts]: the playback hook [hooks/useTextToSpeech.ts];
    - [Speech]: the capture hook [hooks/useSpeechRecognition.ts];
    - [OrderService]: [saveOrder] and [updateOrder] of [lib/order-service.ts]
      over a model of the two tables they touch;
    - [Chat]: the component [ChatInterface], one transition per handler or
      per continuation of the asynchronous [handleSend]. *)

From Stdlib Require Import Ascii String.
From Stdlib Require Import List Bool Arith NArith ZArith QArith Lia.
Import ListNotations.
Close Scope Q_scope.
Set Warnings "-register-all".

(* ------------------------------------------------------------------ *)
(** * JavaScript strings *)

Module Js.

(** A JavaScript string is a sequence of UTF-16 code units; [length] and
    regular expressions without the [u] flag work on code units. *)
Definition char := N.
Definition jsstring := list char.

Definition lit (s : string) : jsstring :=
  map N_of_ascii (list_ascii_of_string s).
Arguments lit s%_string.

(** A literal in which the apostrophe stands for the double quote, for
    texts that hold JSON. *)
Definition qlit (s : string) : jsstring :=
  map (fun c => if (c =? 39)%N then 34%N else c) (lit s).
Arguments qlit s%_string.

(** [WhiteSpace] and [LineTerminator] of ECMAScript: this is both the class
    [\s] and what [trim] removes. *)
Definition is_space (c : char) : bool :=
  ((9 <=? c) && (c <=? 13) || (c =? 32) || (c =? 160) || (c =? 5760)
   || ((8192 <=? c) && (c <=? 8202)) || (c =? 8232) || (c =? 8233)
   || (c =? 8239) || (c =? 8287) || (c =? 12288) || (c =? 65279))%N.

Fixpoint trimStart (s : jsstring) : jsstring :=
  match s with
  | c :: s' => if is_space c then trimStart s' else s
  | [] => []
  end.

Definition trimEnd (s : jsstring) : jsstring := rev (trimStart (rev s)).

Definition trim (s : jsstring) : jsstring := trimEnd (trimStart s).

(** [s.startsWith(p)], returning what follows [p]. *)
Fixpoint strip_prefix (p s : jsstring) : option jsstring :=
  match p, s with
  | [], _ => Some s
  | a :: p', b :: s' => if (a =? b)%N then strip_prefix p' s' else None
  | _ :: _, [] => None
  end.

(** [s.includes(p)]. *)
Fixpoint includes (p s : jsstring) : bool :=
  match strip_prefix p s with
  | Some _ => true
  | None => match s with
            | [] => false
            | _ :: s' => includes p s'
            end
  end.

Fixpoint eqb (a b : jsstring) : bool :=
  match a, b with
  | [], [] => true
  | x :: a', y :: b' => (x =? y)%N && eqb a' b'
  | _, _ => false
  end.

(** Truthiness of a string: non-empty. *)
Definition truthy (s : jsstring) : bool :=
  match s with [] => false | _ :: _ => true end.

End Js.

(* ------------------------------------------------------------------ *)
(** * JSON values and exceptions *)

Module Json.
Import Js.

(** What [JSON.parse] returns.  An object keeps its members in source
    order; a property read takes the last member with that name. *)
Inductive json : Type :=
| JNull
| JBool (b : bool)
| JNum (q : Q)
| JStr (s : jsstring)
| JArr (l : list json)
| JObj (members : list (jsstring * json)).

(** The result of evaluating an expression that may throw. *)
Inductive completion (A : Type) : Type :=
| Normal (a : A)
| Throw.
Arguments Normal {A} a.
Arguments Throw {A}.

Definition bind {A B} (c : completion A) (k : A -> completion B)
  : completion B :=
  match c with Normal a => k a | Throw => Throw end.

(** [try { c } catch { h }]. *)
Definition try_catch {A} (c : completion A) (h : A) : completion A :=
  match c with Normal a => Normal a | Throw => Normal h end.

Fixpoint lookup (k : jsstring) (members : list (jsstring * json))
  : option json :=
  match members with
  | [] => None
  | (k', v) :: rest =>
      match lookup k rest with
      | Some v' => Some v'
      | None => if Js.eqb k k' then Some v else None
      end
  end.

(** [data.k]: [undefined] is [None]; reading a property of [null] throws a
    [TypeError]; numbers, booleans, strings and arrays have no property of
    the names read in this program. *)
Definition get (data : json) (k : jsstring) : completion (option json) :=
  match data with
  | JNull => Throw
  | JObj members => Normal (lookup k members)
  | _ => Normal None
  end.

(** [v === "s"] for a property value [v]. *)
Definition is_string (v : option json) (s : jsstring) : bool :=
  match v with
  | Some (JStr s') => Js.eqb s' s
  | _ => false
  end.

(** [Array.isArray(v)]. *)
Definition isArray (v : option json) : bool :=
  match v with
  | Some (JArr _) => true
  | _ => false
  end.

(** ** A reader for a subset of JSON

    [JSON.parse] belongs to the platform; the definitions and theorems below
    take it as a parameter.  The examples instantiate it with this reader of
    objects, arrays, strings without escapes, decimal numbers without
    exponent and the three literals. *)

Definition is_json_ws (c : char) : bool :=
  ((c =? 32) || (c =? 9) || (c =? 10) || (c =? 13))%N.

Fixpoint skip_json_ws (s : jsstring) : jsstring :=
  match s with
  | c :: s' => if is_json_ws c then skip_json_ws s' else s
  | [] => []
  end.

Definition is_digit (c : char) : bool := ((48 <=? c) && (c <=? 57))%N.

(** Digits read so far as a natural number, and how many were read. *)
Fixpoint read_digits (s : jsstring) (acc : N) (n : nat)
  : N * nat * jsstring :=
  match s with
  | c :: s' =>
      if is_digit c then read_digits s' (acc * 10 + (c - 48))%N (S n)
      else (acc, n, s)
  | [] => (acc, n, s)
  end.

Definition read_number (s : jsstring) : option (Q * jsstring) :=
  let '(neg, s1) := match s with
                    | 45%N :: r => (true, r)
                    | _ => (false, s)
                    end in
  let '(ip, n, s2) := read_digits s1 0%N 0 in
  match n with
  | O => None
  | S _ =>
      let '(num, den, s3) :=
        match s2 with
        | 46%N :: r =>
            let '(all, k, r') := read_digits r ip 0 in
            (all, Pos.pow 10 (Pos.of_nat k), if Nat.eqb k 0 then s2 else r')
        | _ => (ip, 1%positive, s2)
        end in
      match s2, Nat.eqb (length s2) (length s3) with
      | 46%N :: _, true => None
      | _, _ =>
          let z := Z.of_N num in
          Some (Qred (Qmake (if neg then Z.opp z else z) den), s3)
      end
  end.

Fixpoint read_string (s : jsstring) : option (jsstring * jsstring) :=
  match s with
  | [] => None
  | c :: s' =>
      if (c =? 34)%N then Some ([], s')
      else if ((c =? 92) || (c <? 32))%N then None
      else match read_string s' with
           | Some (str, rest) => Some (c :: str, rest)
           | None => None
           end
  end.

Fixpoint read_value (fuel : nat) (s : jsstring) : option (json * jsstring) :=
  match fuel with
  | O => None
  | S fuel' =>
      let s := skip_json_ws s in
      match s with
      | 123%N :: r =>
          match skip_json_ws r with
          | 125%N :: r' => Some (JObj [], r')
          | _ => match read_members fuel' r with
                 | Some (ms, rest) => Some (JObj ms, rest)
                 | None => None
                 end
          end
      | 91%N :: r =>
          match skip_json_ws r with
          | 93%N :: r' => Some (JArr [], r')
          | _ => match read_elements fuel' r with
                 | Some (vs, rest) => Some (JArr vs, rest)
                 | None => None
                 end
          end
      | 34%N :: r =>
          match read_string r with
          | Some (str, rest) => Some (JStr str, rest)
          | None => None
          end
      | _ =>
          match strip_prefix (lit "true") s, strip_prefix (lit "false") s,
                strip_prefix (lit "null") s with
          | Some rest, _, _ => Some (JBool true, rest)
          | _, Some rest, _ => Some (JBool false, rest)
          | _, _, Some rest => Some (JNull, rest)
          | _, _, _ =>
              match read_number s with
              | Some (q, rest) => Some (JNum q, rest)
              | None => None
              end
          end
      end
  end

with read_members (fuel : nat) (s : jsstring)
  : option (list (jsstring * json) * jsstring) :=
  match fuel with
  | O => None
  | S fuel' =>
      match skip_json_ws s with
      | 34%N :: r =>
          match read_string r with
          | Some (k, r1) =>
              match skip_json_ws r1 with
              | 58%N :: r2 =>
                  match read_value fuel' r2 with
                  | Some (v, r3) =>
                      match skip_json_ws r3 with
                      | 125%N :: rest => Some ([(k, v)], rest)
                      | 44%N :: r4 =>
                          match read_members fuel' r4 with
                          | Some (ms, rest) => Some ((k, v) :: ms, rest)
                          | None => None
                          end
                      | _ => None
                      end
                  | None => None
                  end
              | _ => None
              end
          | None => None
          end
      | _ => None
      end
  end

with read_elements (fuel : nat) (s : jsstring)
  : option (list json * jsstring) :=
  match fuel with
  | O => None
  | S fuel' =>
      match read_value fuel' s with
      | Some (v, r) =>
          match skip_json_ws r with
          | 93%N :: rest => Some ([v], rest)
          | 44%N :: r' =>
              match read_elements fuel' r' with
              | Some (vs, rest) => Some (v :: vs, rest)
              | None => None
              end
          | _ => None
          end
      | None => None
      end
  end.

(** [None] stands for the [SyntaxError] that [JSON.parse] throws. *)
Definition parse_subset (s : jsstring) : option json :=
  match read_value (S (length s)) s with
  | Some (v, rest) =>
      match skip_json_ws rest with
      | [] => Some v
      | _ :: _ => None
      end
  | None => None
  end.

End Json.

(* ------------------------------------------------------------------ *)
(** * Integers as JavaScript numbers

    A JavaScript number is a binary64 value.  Every integer of magnitude
    up to 2^53 is one; a larger integer is one when it fits 53 significant
    bits.  An integer that comes from the store is decoded to the nearest
    number, and the sum of two numbers is the nearest number to the exact
    sum, ties going to the even significand.  The order numbers of the
    store are an integer column, far inside the range of binary64, so
    overflow to [Infinity] does not arise. *)

Module JsNumber.

Definition two53 : Z := 9007199254740992.

(** The nearest integer with 53 significant bits, ties to even. *)
Definition round (n : Z) : Z :=
  let m := Z.abs n in
  if (m <? two53)%Z then n
  else
    let k := (Z.log2 m - 52)%Z in
    let q := Z.shiftr m k in
    let r := (m - Z.shiftl q k)%Z in
    let half := Z.shiftl 1 (k - 1) in
    let q' := if (half <? r)%Z || ((r =? half)%Z && Z.odd q)
              then (q + 1)%Z else q in
    (Z.sgn n * Z.shiftl q' k)%Z.

(** [a + b] on two integers that are numbers. *)
Definition add (a b : Z) : Z := round (a + b).

End JsNumber.

(* ------------------------------------------------------------------ *)
(** * Receipt extractor ([ChatInterface.tsx], helpers) *)

Module Receipt.
Import Js Json.

(** The two fences of [RECEIPT_REGEX = /```json\s*(\{[\s\S]*?\})\s*```/]. *)
Definition fence_open : jsstring := lit "```json".
Definition fence_close : jsstring := lit "```".

Definition lbrace : char := 123%N.
Definition rbrace : char := 125%N.

(** [\s*] in front of a character that is no white space: only the longest
    run of white space lets the rest of the pattern match, so the greedy
    star never has to give characters back. *)
Definition skip_ws : jsstring -> jsstring := trimStart.

(** [[\s\S]*?\}\s*```] from just after the opening brace: the lazy star
    stops at the first closing brace that is followed by white space and the
    closing fence.  Returns the rest of the group (closing brace included)
    and what follows the match. *)
Fixpoint find_close (s : jsstring) : option (jsstring * jsstring) :=
  match s with
  | [] => None
  | c :: s' =>
      match (if (c =? rbrace)%N
             then strip_prefix fence_close (skip_ws s') else None) with
      | Some post => Some ([c], post)
      | None =>
          match find_close s' with
          | Some (g, post) => Some (c :: g, post)
          | None => None
          end
      end
  end.

(** The pattern anchored at the start of [s]: capture group 1 and the text
    after the match. *)
Definition match_at (s : jsstring) : option (jsstring * jsstring) :=
  match strip_prefix fence_open s with
  | Some r1 =>
      match skip_ws r1 with
      | c :: r2 =>
          if (c =? lbrace)%N then
            match find_close r2 with
            | Some (g, post) => Some (c :: g, post)
            | None => None
            end
          else None
      | [] => None
      end
  | None => None
  end.

(** [RECEIPT_REGEX.exec(s)]: the leftmost position where the pattern
    matches.  Returns the text before the match, capture group 1 and the
    text after the match. *)
Fixpoint RECEIPT_REGEX_exec (s : jsstring)
  : option (jsstring * jsstring * jsstring) :=
  match match_at s with
  | Some (g, post) => Some ([], g, post)
  | None =>
      match s with
      | [] => None
      | c :: s' =>
          match RECEIPT_REGEX_exec s' with
          | Some (pre, g, post) => Some (c :: pre, g, post)
          | None => None
          end
      end
  end.

(** [text.replace(RECEIPT_REGEX, "")]: the pattern has no [g] flag, so only
    the first match is removed. *)
Definition replace_first (text : jsstring) : jsstring :=
  match RECEIPT_REGEX_exec text with
  | Some (pre, _, post) => pre ++ post
  | None => text
  end.

Definition stripReceiptBlock (text : jsstring) : jsstring :=
  trim (replace_first text).

Section Parse.

(** [JSON.parse]; [None] is the [SyntaxError] it throws. *)
Variable JSON_parse : jsstring -> option json.

(** The body of the [try] block of [parseReceipt] on capture group 1. *)
Definition parseReceipt_try (group : jsstring) : completion (option json) :=
  match JSON_parse group with
  | None => Throw
  | Some data =>
      bind (get data (lit "type")) (fun ty =>
        if is_string ty (lit "order_complete")
           || is_string ty (lit "order_update")
        then
          bind (get data (lit "items")) (fun items =>
            if isArray items then Normal (Some data) else Normal None)
        else Normal None)
  end.

(** [parseReceipt] as a computation that may throw. *)
Definition parseReceipt_run (text : jsstring) : completion (option json) :=
  match RECEIPT_REGEX_exec text with
  | None => Normal None
  | Some (_, group, _) => try_catch (parseReceipt_try group) None
  end.

(** What the callers of [parseReceipt] see: the receipt, or [null]. *)
Definition parseReceipt (text : jsstring) : option json :=
  match parseReceipt_run text with
  | Normal r => r
  | Throw => None
  end.

End Parse.

End Receipt.

(* ------------------------------------------------------------------ *)
(** * Speech playback adapter ([hooks/useTextToSpeech.ts]) *)

Module Tts.
Import Js.

(** Every call of [speak] gets a number.  A call that passes the empty-text
    guard creates one [AbortController] and later at most one [Audio]
    element; both are named by the number of the call. *)
Definition call_id := nat.

(** Where an invocation of the asynchronous [speak] is suspended. *)
Inductive phase : Type :=
| Fetching        (* await fetch("/api/tts", { signal }) *)
| ReadingBlob     (* await response.blob() *)
| Playing         (* await new Promise(resolve => ...) *)
| Settled.        (* the promise was resolved; the Audio element remains *)

Record state : Type := mkState {
  isSpeaking : bool;
  audioRef : option call_id;
  abortControllerRef : option call_id;
  aborted : list call_id;            (* controllers with [signal.aborted] *)
  sessions : list (call_id * phase); (* invocations of [speak] in flight *)
  endTimers : list call_id;          (* pending 400 ms timeouts *)
  next : call_id
}.

Definition init : state :=
  mkState false None None [] [] [] 0.

(** What the platform can report to the hook. *)
Inductive fetch_result := RespOk | RespNotOk | FetchFailed.
Inductive blob_result := BlobOk | BlobFailed.

Inductive event : Type :=
| Stop                                       (* stop() *)
| Speak (text : jsstring)                    (* speak(text) *)
| FetchSettled (c : call_id) (r : fetch_result)
| BlobSettled (c : call_id) (r : blob_result)
| AudioEnded (c : call_id)                   (* audio.onended *)
| EndTimer (c : call_id)                     (* the 400 ms timeout fires *)
| AudioError (c : call_id)                   (* audio.onerror *)
| PlayRejected (c : call_id).                (* audio.play().catch *)

(** What the hook does to its surroundings. *)
Inductive out : Type :=
| CallOnEnd                       (* onEndRef.current?.() *)
| Resolved (c : call_id)          (* the promise returned by speak settles *)
| DoAbort (c : call_id)           (* controller.abort() *)
| DoPause (c : call_id)           (* audio.pause(); audio.src = "" *)
| DoFetch (c : call_id) (text : jsstring)
| DoPlay (c : call_id)            (* new Audio(url); audio.play() *)
| DoSetTimeout (c : call_id) (ms : N)
| DoWarn.                         (* console.warn *)

Definition is_aborted (s : state) (c : call_id) : bool :=
  existsb (Nat.eqb c) (aborted s).

Fixpoint phase_of (l : list (call_id * phase)) (c : call_id)
  : option phase :=
  match l with
  | [] => None
  | (c', p) :: l' => if Nat.eqb c c' then Some p else phase_of l' c
  end.

Fixpoint set_phase (l : list (call_id * phase)) (c : call_id) (p : phase)
  : list (call_id * phase) :=
  match l with
  | [] => []
  | (c', p') :: l' =>
      if Nat.eqb c c' then (c', p) :: l' else (c', p') :: set_phase l' c p
  end.

Fixpoint drop_session (l : list (call_id * phase)) (c : call_id)
  : list (call_id * phase) :=
  match l with
  | [] => []
  | (c', p') :: l' =>
      if Nat.eqb c c' then l' else (c', p') :: drop_session l' c
  end.

Definition remove_id (c : call_id) (l : list call_id) : list call_id :=
  filter (fun c' => negb (Nat.eqb c c')) l.

(** [stop]: abort the controller in the ref, pause the audio in the ref,
    clear both refs and [isSpeaking].  [onEnd] is not called. *)
Definition stop (s : state) : state * list out :=
  let '(ab, o1) :=
    match abortControllerRef s with
    | Some c => (c :: aborted s, [DoAbort c])
    | None => (aborted s, [])
    end in
  let o2 :=
    match audioRef s with
    | Some a => [DoPause a]
    | None => []
    end in
  (mkState false None None ab (sessions s) (endTimers s) (next s),
   o1 ++ o2).

(** [speak] up to its first [await]. *)
Definition speak (text : jsstring) (s : state) : call_id * state * list out :=
  let '(s1, o1) := stop s in
  let c := next s1 in
  if truthy (trim text) then
    (c,
     mkState true (audioRef s1) (Some c) (aborted s1)
             (sessions s1 ++ [(c, Fetching)]) (endTimers s1) (S c),
     o1 ++ [DoFetch c text])
  else
    (c,
     mkState (isSpeaking s1) (audioRef s1) (abortControllerRef s1)
             (aborted s1) (sessions s1) (endTimers s1) (S c),
     o1 ++ [Resolved c]).

(** [speak] returns: the invocation leaves the table. *)
Definition finish (c : call_id) (s : state) : state :=
  mkState (isSpeaking s) (audioRef s) (abortControllerRef s) (aborted s)
          (drop_session (sessions s) c) (endTimers s) (next s).

(** [setIsSpeaking(false); onEndRef.current?.()] and return. *)
Definition end_with_onEnd (c : call_id) (s : state) : state * list out :=
  (finish c (mkState false (audioRef s) (abortControllerRef s) (aborted s)
                     (sessions s) (endTimers s) (next s)),
   [CallOnEnd; Resolved c]).

(** The three handlers that call [resolve()]:
    [URL.revokeObjectURL(url); audioRef.current = null; resolve()], and what
    runs after the awaited promise.  A second [resolve()] does nothing. *)
Definition resolve_playback (c : call_id) (s : state) : state * list out :=
  let s1 := mkState (isSpeaking s) None (abortControllerRef s) (aborted s)
                    (sessions s) (endTimers s) (next s) in
  match phase_of (sessions s) c with
  | Some Playing =>
      (mkState false None (abortControllerRef s) (aborted s)
               (set_phase (sessions s) c Settled) (endTimers s) (next s),
       [CallOnEnd; Resolved c])
  | _ => (s1, [])
  end.

Definition step (s : state) (e : event) : state * list out :=
  match e with
  | Stop => stop s
  | Speak text => let '(_, s', o) := speak text s in (s', o)
  | FetchSettled c r =>
      match phase_of (sessions s) c with
      | Some Fetching =>
          if is_aborted s c then
            (* the fetch rejects with an AbortError: return without onEnd *)
            (finish c s, [Resolved c])
          else
            match r with
            | RespOk =>
                (mkState (isSpeaking s) (audioRef s) (abortControllerRef s)
                         (aborted s) (set_phase (sessions s) c ReadingBlob)
                         (endTimers s) (next s), [])
            | RespNotOk =>
                let '(s', o) := end_with_onEnd c s in (s', DoWarn :: o)
            | FetchFailed =>
                let '(s', o) := end_with_onEnd c s in (s', DoWarn :: o)
            end
      | _ => (s, [])
      end
  | BlobSettled c r =>
      match phase_of (sessions s) c with
      | Some ReadingBlob =>
          if is_aborted s c then
            (* either the AbortError is caught, or the guard
               [if (controller.signal.aborted) return] is taken *)
            (finish c s, [Resolved c])
          else
            match r with
            | BlobOk =>
                (mkState (isSpeaking s) (Some c) (abortControllerRef s)
                         (aborted s) (set_phase (sessions s) c Playing)
                         (endTimers s) (next s), [DoPlay c])
            | BlobFailed =>
                let '(s', o) := end_with_onEnd c s in (s', DoWarn :: o)
            end
      | _ => (s, [])
      end
  | AudioEnded c =>
      match phase_of (sessions s) c with
      | Some (Playing | Settled) =>
          (mkState (isSpeaking s) (audioRef s) (abortControllerRef s)
                   (aborted s) (sessions s) (c :: endTimers s) (next s),
           [DoSetTimeout c 400])
      | _ => (s, [])
      end
  | EndTimer c =>
      if existsb (Nat.eqb c) (endTimers s) then
        let s1 := mkState (isSpeaking s) (audioRef s) (abortControllerRef s)
                          (aborted s) (sessions s)
                          (remove_id c (endTimers s)) (next s) in
        if is_aborted s c then (s1, []) else resolve_playback c s1
      else (s, [])
  | AudioError c =>
      match phase_of (sessions s) c with
      | Some (Playing | Settled) =>
          let '(s', o) := resolve_playback c s in (s', DoWarn :: o)
      | _ => (s, [])
      end
  | PlayRejected c =>
      match phase_of (sessions s) c with
      | Some (Playing | Settled) =>
          let '(s', o) := resolve_playback c s in (s', DoWarn :: o)
      | _ => (s, [])
      end
  end.

(** The events on which the source calls [onEnd]: the end of the trailing
    buffer after the audio ended (natural completion), and the soft
    failures (a response that is not ok, a failed fetch or body read, an
    audio error, a rejected [play()]). *)
Definition completes (e : event) : bool :=
  match e with
  | FetchSettled _ (RespNotOk | FetchFailed) => true
  | BlobSettled _ BlobFailed => true
  | EndTimer _ | AudioError _ | PlayRejected _ => true
  | _ => false
  end.

Fixpoint run (s : state) (es : list event) : state * list out :=
  match es with
  | [] => (s, [])
  | e :: es' =>
      let '(s1, o1) := step s e in
      let '(s2, o2) := run s1 es' in
      (s2, o1 ++ o2)
  end.

End Tts.

(* ------------------------------------------------------------------ *)
(** * Speech capture adapter ([hooks/useSpeechRecognition.ts]) *)

Module Speech.
Import Js.

(** A [SpeechRecognition] instance, by number of creation. *)
Definition rec_id := nat.

Record state : Type := mkState {
  isSupported : bool;
  isListening : bool;
  transcript : jsstring;
  recognitionRef : option rec_id;
  finalTranscriptRef : jsstring;
  next : rec_id
}.

Definition init (supported : bool) : state :=
  mkState supported false [] None [] 0.

(** One entry of [event.results] from [event.resultIndex] on:
    [isFinal] and the transcript of the first alternative. *)
Definition result := (bool * jsstring)%type.

Inductive event : Type :=
| OnStart                          (* recognition.onstart *)
| OnResult (results : list result) (* recognition.onresult *)
| OnEnd                            (* recognition.onend *)
| OnError.                         (* recognition.onerror *)

Inductive out : Type :=
| DoAbort (r : rec_id)             (* recognition.abort() *)
| DoStart (r : rec_id)             (* recognition.start() *)
| DoStop (r : rec_id)              (* recognition.stop() *)
| FinalTranscript (text : jsstring) (* onFinalRef.current(final) *)
| DoError.                         (* console.error *)

Definition startListening (s : state) : state * list out :=
  if isSupported s then
    let o1 := match recognitionRef s with
              | Some r => [DoAbort r]
              | None => []
              end in
    let r := next s in
    (mkState (isSupported s) (isListening s) (transcript s) (Some r) []
             (S r),
     o1 ++ [DoStart r])
  else (s, []).

Definition stopListening (s : state) : state * list out :=
  (mkState (isSupported s) false (transcript s) (recognitionRef s)
           (finalTranscriptRef s) (next s),
   match recognitionRef s with
   | Some r => [DoStop r]
   | None => []
   end).

(** The loop of [onresult]: final and interim text of the new results. *)
Fixpoint collect (results : list result) : jsstring * jsstring :=
  match results with
  | [] => ([], [])
  | (isFinal, t) :: rest =>
      let '(finalText, interimText) := collect rest in
      if isFinal then (t ++ finalText, interimText)
      else (finalText, t ++ interimText)
  end.

Definition step (s : state) (e : event) : state * list out :=
  match e with
  | OnStart =>
      (mkState (isSupported s) true [] (recognitionRef s)
               (finalTranscriptRef s) (next s), [])
  | OnResult results =>
      let '(finalText, interimText) := collect results in
      let ft := if truthy finalText then finalTranscriptRef s ++ finalText
                else finalTranscriptRef s in
      (mkState (isSupported s) (isListening s) (ft ++ interimText)
               (recognitionRef s) ft (next s), [])
  | OnEnd =>
      let final := trim (finalTranscriptRef s) in
      (mkState (isSupported s) false [] None (finalTranscriptRef s) (next s),
       if truthy final then [FinalTranscript final] else [])
  | OnError =>
      (mkState (isSupported s) false (transcript s) None
               (finalTranscriptRef s) (next s), [DoError])
  end.

End Speech.

(* ------------------------------------------------------------------ *)
(** * Order persistence gateway ([lib/order-service.ts], [lib/types.ts]) *)

Module OrderService.
Import Js Json.

(** Identifiers are uuid strings that the program only compares; JavaScript
    numbers are only stored and copied by this module, except for the order
    number, an integer column that is decoded to a number and incremented
    with the addition of numbers ([JsNumber.add]). *)
Definition uuid := N.
Definition number := Q.

(** ** The receipt, as the model emits it *)

Record ReceiptAddOn : Type := mkReceiptAddOn {
  a_name : jsstring;
  a_qty : number;
  a_price : number
}.

Record ReceiptItem : Type := mkReceiptItem {
  ri_item_name : jsstring;
  ri_size : jsstring;
  ri_temp : jsstring;
  ri_milk : option jsstring;
  ri_sweetness : jsstring;
  ri_ice_level : jsstring;
  ri_add_ons : list ReceiptAddOn;
  ri_item_price : number;
  ri_special_instructions : option jsstring
}.

Inductive receipt_type := order_complete | order_update.

Record OrderReceipt : Type := mkOrderReceipt {
  r_type : receipt_type;
  r_customer_name : option jsstring;   (* [undefined] and [null] are [None] *)
  r_items : list ReceiptItem;
  r_total_price : number
}.

(** ** The rows of the two tables *)

Inductive OrderStatus := status_new | status_in_progress | status_completed.

Record Order : Type := mkOrder {
  o_id : uuid;
  o_order_number : Z;
  o_customer_name : option jsstring;
  o_status : OrderStatus;
  o_total_price : number;
  o_created_at : N;
  o_started_at : option N;
  o_completed_at : option N
}.

Record AddOnLineItem : Type := mkAddOnLineItem {
  l_name : jsstring;
  l_qty : number;
  l_unit_price : number
}.

(** [NewOrderItem]: an item row before the store gives it an id. *)
Record NewOrderItem : Type := mkNewOrderItem {
  n_order_id : uuid;
  n_item_name : jsstring;
  n_size : jsstring;
  n_temp : jsstring;
  n_milk : option jsstring;
  n_sweetness : jsstring;
  n_ice_level : jsstring;
  n_add_ons : list AddOnLineItem;
  n_item_price : number;
  n_special_instructions : option jsstring
}.

Record OrderItem : Type := mkOrderItem {
  i_id : uuid;
  i_row : NewOrderItem
}.

Definition OrderWithItems := (Order * list OrderItem)%type.

(** ** The store *)

Record db : Type := mkDb {
  orders : list Order;
  order_items : list OrderItem;
  next_uuid : uuid;     (* the next id the store generates *)
  clock : N             (* the store's [now()] *)
}.

(** [select order_number ... order by order_number desc limit 1]. *)
Fixpoint latest_order_number (l : list Order) : option Z :=
  match l with
  | [] => None
  | o :: l' =>
      match latest_order_number l' with
      | Some m => Some (Z.max (o_order_number o) m)
      | None => Some (o_order_number o)
      end
  end.

(** [insert(...).select().single()] into [orders]. *)
Definition insert_order (d : db) (order_number : Z)
  (customer_name : option jsstring) (total_price : number) : db * Order :=
  let o := mkOrder (next_uuid d) order_number customer_name status_new
                   total_price (clock d) None None in
  (mkDb (orders d ++ [o]) (order_items d) (N.succ (next_uuid d)) (clock d),
   o).

Fixpoint with_ids (first : uuid) (rows : list NewOrderItem)
  : list OrderItem :=
  match rows with
  | [] => []
  | r :: rows' => mkOrderItem first r :: with_ids (N.succ first) rows'
  end.

(** [insert(rows)] into [order_items]. *)
Definition insert_items (d : db) (rows : list NewOrderItem)
  : db * list OrderItem :=
  let items := with_ids (next_uuid d) rows in
  (mkDb (orders d) (order_items d ++ items)
        (next_uuid d + N.of_nat (length rows))%N (clock d),
   items).

(** [update({ total_price }).eq("id", orderId)] on [orders]. *)
Definition update_total (d : db) (orderId : uuid) (newTotal : number) : db :=
  mkDb (map (fun o =>
               if (o_id o =? orderId)%N then
                 mkOrder (o_id o) (o_order_number o) (o_customer_name o)
                         (o_status o) newTotal (o_created_at o)
                         (o_started_at o) (o_completed_at o)
               else o) (orders d))
       (order_items d) (next_uuid d) (clock d).

(** [delete().eq("order_id", orderId)] on [order_items]. *)
Definition delete_items (d : db) (orderId : uuid) : db :=
  mkDb (orders d)
       (filter (fun i => negb (n_order_id (i_row i) =? orderId)%N)
               (order_items d))
       (next_uuid d) (clock d).

(** Which of the three requests of a call come back with an error. *)
Record faults : Type := mkFaults {
  fail_1 : bool;
  fail_2 : bool;
  fail_3 : bool
}.

Definition no_faults : faults := mkFaults false false false.

(** The errors the two functions throw. *)
Inductive error :=
| FailedToCreateOrder
| FailedToCreateOrderItems
| FailedToUpdateOrder
| FailedToDeleteOrderItems
| FailedToInsertUpdatedItems.

Inductive result (A : Type) : Type :=
| Ok (a : A)
| Err (e : error).
Arguments Ok {A} a.
Arguments Err {A} e.

(** ** The two operations *)

Definition toItemRows (orderId : uuid) (items : list ReceiptItem)
  : list NewOrderItem :=
  map (fun item =>
         mkNewOrderItem orderId (ri_item_name item) (ri_size item)
           (ri_temp item) (ri_milk item) (ri_sweetness item)
           (ri_ice_level item)
           (map (fun a => mkAddOnLineItem (a_name a) (a_qty a) (a_price a))
                (ri_add_ons item))
           (ri_item_price item) (ri_special_instructions item))
      items.

Definition saveOrder (f : faults) (receipt : OrderReceipt) (d : db)
  : db * result OrderWithItems :=
  (* the error of the first request is not looked at: no data, number 1 *)
  let latest := if fail_1 f then None else latest_order_number (orders d) in
  let orderNumber :=
    JsNumber.add (match latest with
                  | Some n => JsNumber.round n
                  | None => 0%Z
                  end) 1 in
  if fail_2 f then (d, Err FailedToCreateOrder)
  else
    let '(d1, order) :=
      insert_order d orderNumber (r_customer_name receipt)
                   (r_total_price receipt) in
    let itemRows := toItemRows (o_id order) (r_items receipt) in
    if fail_3 f then (d1, Err FailedToCreateOrderItems)
    else
      let '(d2, orderItems) := insert_items d1 itemRows in
      (d2, Ok (order, orderItems)).

Definition updateOrder (f : faults) (orderId : uuid)
  (items : list ReceiptItem) (newTotal : number) (d : db)
  : db * result unit :=
  if fail_1 f then (d, Err FailedToUpdateOrder)
  else
    let d1 := update_total d orderId newTotal in
    if fail_2 f then (d1, Err FailedToDeleteOrderItems)
    else
      let d2 := delete_items d1 orderId in
      let itemRows := toItemRows orderId items in
      if fail_3 f then (d2, Err FailedToInsertUpdatedItems)
      else (fst (insert_items d2 itemRows), Ok tt).

(** What a later read of an order's items returns. *)
Definition items_of (d : db) (orderId : uuid) : list OrderItem :=
  filter (fun i => (n_order_id (i_row i) =? orderId)%N) (order_items d).

Definition find_order (d : db) (orderId : uuid) : option Order :=
  find (fun o => (o_id o =? orderId)%N) (orders d).

(** The sum of the item prices of a receipt. *)
Definition items_sum (items : list ReceiptItem) : number :=
  fold_right (fun i acc => Qplus (ri_item_price i) acc) 0%Q items.

(** ** [data as OrderReceipt]

    The cast checks nothing.  The functions above are typed by the
    interfaces of the source; this reads a parsed value that has the
    declared shape as a value of that type. *)

Definition str_field (ms : list (jsstring * json)) (k : jsstring)
  : option jsstring :=
  match lookup k ms with Some (JStr s) => Some s | _ => None end.

Definition num_field (ms : list (jsstring * json)) (k : jsstring)
  : option number :=
  match lookup k ms with Some (JNum q) => Some q | _ => None end.

(** A field of type [string | null]. *)
Definition nullable_field (ms : list (jsstring * json)) (k : jsstring)
  : option (option jsstring) :=
  match lookup k ms with
  | Some (JStr s) => Some (Some s)
  | Some JNull => Some None
  | _ => None
  end.

Fixpoint all_some {A B} (f : A -> option B) (l : list A) : option (list B) :=
  match l with
  | [] => Some []
  | a :: l' =>
      match f a, all_some f l' with
      | Some b, Some bs => Some (b :: bs)
      | _, _ => None
      end
  end.

Definition asReceiptAddOn (v : json) : option ReceiptAddOn :=
  match v with
  | JObj ms =>
      match str_field ms (lit "name"), num_field ms (lit "qty"),
            num_field ms (lit "price") with
      | Some n, Some q, Some p => Some (mkReceiptAddOn n q p)
      | _, _, _ => None
      end
  | _ => None
  end.

Definition asReceiptItem (v : json) : option ReceiptItem :=
  match v with
  | JObj ms =>
      match str_field ms (lit "item_name"), str_field ms (lit "size"),
            str_field ms (lit "temp"), nullable_field ms (lit "milk"),
            str_field ms (lit "sweetness"), str_field ms (lit "ice_level"),
            lookup (lit "add_ons") ms, num_field ms (lit "item_price"),
            nullable_field ms (lit "special_instructions") with
      | Some nm, Some sz, Some tp, Some mk, Some sw, Some ice,
        Some (JArr adds), Some price, Some instr =>
          match all_some asReceiptAddOn adds with
          | Some adds' =>
              Some (mkReceiptItem nm sz tp mk sw ice adds' price instr)
          | None => None
          end
      | _, _, _, _, _, _, _, _, _ => None
      end
  | _ => None
  end.

Definition asOrderReceipt (data : json) : option OrderReceipt :=
  match data with
  | JObj ms =>
      let ty :=
        match str_field ms (lit "type") with
        | Some s =>
            if Js.eqb s (lit "order_complete") then Some order_complete
            else if Js.eqb s (lit "order_update") then Some order_update
            else None
        | None => None
        end in
      let name :=
        match lookup (lit "customer_name") ms with
        | None | Some JNull => Some None
        | Some (JStr s) => Some (Some s)
        | Some _ => None
        end in
      match ty, name, lookup (lit "items") ms,
            num_field ms (lit "total_price") with
      | Some ty', Some name', Some (JArr items), Some total =>
          match all_some asReceiptItem items with
          | Some items' => Some (mkOrderReceipt ty' name' items' total)
          | None => None
          end
      | _, _, _, _ => None
      end
  | _ => None
  end.

End OrderService.

(* ------------------------------------------------------------------ *)
(** * The persistence gateway on the values it receives

    TypeScript's types are erased when the program runs, and
    [parseReceipt] returns [data as OrderReceipt] without a check: what
    [handleSend] passes to [saveOrder] and [updateOrder] is what
    [JSON.parse] returned, an object with a recognized [type] and an array
    [items], and otherwise anything.  This is [lib/order-service.ts] on
    such values; [OrderService] is the same code on receipts that have the
    declared type. *)

Module OrderServiceJs.
Import Js Json.
Import OrderService (OrderStatus, status_new, faults, fail_1, fail_2,
                     fail_3, error, FailedToCreateOrder,
                     FailedToCreateOrderItems, FailedToUpdateOrder,
                     FailedToDeleteOrderItems, FailedToInsertUpdatedItems).

Definition uuid := OrderService.uuid.

(** A JavaScript value that comes out of parsed JSON; [None] is
    [undefined].  A property that is [undefined] is left out of the body
    of a request: the store is sent no value for that column. *)
Definition value := option json.

(** ** The rows, as the requests hold them *)

Record AddOnRow : Type := mkAddOnRow {
  ja_name : value;
  ja_qty : value;
  ja_unit_price : value
}.

Record ItemRow : Type := mkItemRow {
  ji_order_id : uuid;
  ji_item_name : value;
  ji_size : value;
  ji_temp : value;
  ji_milk : value;
  ji_sweetness : value;
  ji_ice_level : value;
  ji_add_ons : list AddOnRow;
  ji_item_price : value;
  ji_special_instructions : value
}.

Record OrderRow : Type := mkOrderRow {
  j_id : uuid;
  j_order_number : Z;
  j_customer_name : json;       (* [receipt.customer_name ?? null] *)
  j_status : OrderStatus;
  j_total_price : value;
  j_created_at : N
}.

(** A row of [order_items] with the id the store gave it. *)
Definition StoredItem := (uuid * ItemRow)%type.

Record store : Type := mkStore {
  orders : list OrderRow;
  order_items : list StoredItem;
  next_uuid : uuid;
  clock : N
}.

(** [select order_number ... order by order_number desc limit 1]. *)
Fixpoint latest_order_number (l : list OrderRow) : option Z :=
  match l with
  | [] => None
  | o :: l' =>
      match latest_order_number l' with
      | Some m => Some (Z.max (j_order_number o) m)
      | None => Some (j_order_number o)
      end
  end.

(** [insert(...).select().single()] into [orders]. *)
Definition insert_order (d : store) (order_number : Z)
  (customer_name : json) (total_price : value) : store * OrderRow :=
  let o := mkOrderRow (next_uuid d) order_number customer_name status_new
                      total_price (clock d) in
  (mkStore (orders d ++ [o]) (order_items d) (N.succ (next_uuid d))
           (clock d),
   o).

Fixpoint with_ids (first : uuid) (rows : list ItemRow) : list StoredItem :=
  match rows with
  | [] => []
  | r :: rows' => (first, r) :: with_ids (N.succ first) rows'
  end.

(** [insert(rows)] into [order_items]. *)
Definition insert_items (d : store) (rows : list ItemRow)
  : store * list StoredItem :=
  let items := with_ids (next_uuid d) rows in
  (mkStore (orders d) (order_items d ++ items)
           (next_uuid d + N.of_nat (length rows))%N (clock d),
   items).

(** [update({ total_price: newTotal }).eq("id", orderId)] on [orders]:
    when [newTotal] is [undefined] the request names no column. *)
Definition update_total (d : store) (orderId : uuid) (newTotal : value)
  : store :=
  match newTotal with
  | None => d
  | Some v =>
      mkStore (map (fun o =>
                      if (j_id o =? orderId)%N then
                        mkOrderRow (j_id o) (j_order_number o)
                                   (j_customer_name o) (j_status o)
                                   (Some v) (j_created_at o)
                      else o) (orders d))
              (order_items d) (next_uuid d) (clock d)
  end.

(** [delete().eq("order_id", orderId)] on [order_items]. *)
Definition delete_items (d : store) (orderId : uuid) : store :=
  mkStore (orders d)
          (filter (fun i => negb (ji_order_id (snd i) =? orderId)%N)
                  (order_items d))
          (next_uuid d) (clock d).

(** What a call throws: the [Error] of a failed request, or the
    [TypeError] of a property read of [null] or [undefined] or of a call
    of [map] on what is no array. *)
Inductive failure : Type :=
| Failed (e : error)
| TypeError.

Inductive outcome (A : Type) : Type :=
| Returned (a : A)
| Threw (e : failure).
Arguments Returned {A} a.
Arguments Threw {A} e.

(** ** [toItemRows] *)

(** [l.map(f)] for an [f] that may throw. *)
Fixpoint map_throwing {A B} (f : A -> completion B) (l : list A)
  : completion (list B) :=
  match l with
  | [] => Normal []
  | a :: l' =>
      bind (f a) (fun b =>
      bind (map_throwing f l') (fun bs => Normal (b :: bs)))
  end.

(** [v.map(f)]: of the values of parsed JSON only an array has [map]. *)
Definition array_map {B} (v : value) (f : json -> completion B)
  : completion (list B) :=
  match v with
  | Some (JArr l) => map_throwing f l
  | _ => Throw
  end.

Definition addOnRow (a : json) : completion AddOnRow :=
  bind (get a (lit "name")) (fun name =>
  bind (get a (lit "qty")) (fun qty =>
  bind (get a (lit "price")) (fun price =>
  Normal (mkAddOnRow name qty price)))).

Definition itemRow (orderId : uuid) (item : json) : completion ItemRow :=
  bind (get item (lit "item_name")) (fun item_name =>
  bind (get item (lit "size")) (fun size =>
  bind (get item (lit "temp")) (fun temp =>
  bind (get item (lit "milk")) (fun milk =>
  bind (get item (lit "sweetness")) (fun sweetness =>
  bind (get item (lit "ice_level")) (fun ice_level =>
  bind (get item (lit "add_ons")) (fun add_ons =>
  bind (array_map add_ons addOnRow) (fun add_on_rows =>
  bind (get item (lit "item_price")) (fun item_price =>
  bind (get item (lit "special_instructions")) (fun special_instructions =>
  Normal (mkItemRow orderId item_name size temp milk sweetness ice_level
                    add_on_rows item_price special_instructions))))))))))).

Definition toItemRows (orderId : uuid) (items : value)
  : completion (list ItemRow) :=
  array_map items (itemRow orderId).

(** ** The two operations *)

(** [v ?? null]. *)
Definition or_null (v : value) : json :=
  match v with
  | Some JNull | None => JNull
  | Some w => w
  end.

Definition saveOrder (f : faults) (receipt : json) (d : store)
  : store * outcome (OrderRow * list StoredItem) :=
  let latest := if fail_1 f then None else latest_order_number (orders d) in
  let orderNumber :=
    JsNumber.add (match latest with
                  | Some n => JsNumber.round n
                  | None => 0%Z
                  end) 1 in
  match get receipt (lit "customer_name"),
        get receipt (lit "total_price") with
  | Normal customer_name, Normal total_price =>
      if fail_2 f then (d, Threw (Failed FailedToCreateOrder))
      else
        let '(d1, order) :=
          insert_order d orderNumber (or_null customer_name) total_price in
        match bind (get receipt (lit "items")) (toItemRows (j_id order)) with
        | Throw => (d1, Threw TypeError)
        | Normal itemRows =>
            if fail_3 f then (d1, Threw (Failed FailedToCreateOrderItems))
            else
              let '(d2, orderItems) := insert_items d1 itemRows in
              (d2, Returned (order, orderItems))
        end
  | _, _ => (d, Threw TypeError)
  end.

Definition updateOrder (f : faults) (orderId : uuid) (items newTotal : value)
  (d : store) : store * outcome unit :=
  if fail_1 f then (d, Threw (Failed FailedToUpdateOrder))
  else
    let d1 := update_total d orderId newTotal in
    if fail_2 f then (d1, Threw (Failed FailedToDeleteOrderItems))
    else
      let d2 := delete_items d1 orderId in
      match toItemRows orderId items with
      | Throw => (d2, Threw TypeError)
      | Normal itemRows =>
          if fail_3 f then (d2, Threw (Failed FailedToInsertUpdatedItems))
          else (fst (insert_items d2 itemRows), Returned tt)
      end.

(** What a later read of an order returns. *)
Definition find_order (d : store) (orderId : uuid) : option OrderRow :=
  find (fun o => (j_id o =? orderId)%N) (orders d).

Definition items_of (d : store) (orderId : uuid) : list StoredItem :=
  filter (fun i => (ji_order_id (snd i) =? orderId)%N) (order_items d).

End OrderServiceJs.

(* ------------------------------------------------------------------ *)
(** * Turn controller ([components/chat/ChatInterface.tsx])

    Every handler of the component, and every piece of the asynchronous
    [handleSend] between two [await]s, is one atomic transition: the
    program runs on a single thread and a handler runs to its next [await]
    before anything else is delivered.  React state is committed, and the
    effects that copy it into refs have run, before the next transition.
    Presentation-only state ([mounted], [micGlowing], scrolling) is left
    out. *)

Module Chat.
Import Js Json Receipt.

Definition uuid := OrderService.uuid.
Definition timer_id := nat.
Definition turn_id := nat.

(** Message ids are ["greeting"] and the strings [`user-${Date.now()}`],
    [`cashier-${Date.now()}`], [`error-${Date.now()}`]. *)
Inductive msgid : Type :=
| Greeting
| UserMsg (now : N)
| CashierMsg (now : N)
| ErrorMsg (now : N).

Definition msgid_eqb (a b : msgid) : bool :=
  match a, b with
  | Greeting, Greeting => true
  | UserMsg x, UserMsg y => (x =? y)%N
  | CashierMsg x, CashierMsg y => (x =? y)%N
  | ErrorMsg x, ErrorMsg y => (x =? y)%N
  | _, _ => false
  end.

Inductive role := cashier | customer.

Record ChatMessage : Type := mkMsg {
  m_id : msgid;
  m_role : role;
  m_content : jsstring;
  m_rawContent : option jsstring;
  m_receipt : option json;
  m_orderNumber : option Z;
  m_orderId : option uuid;
  m_timestamp : N
}.

Inductive api_role := user | assistant.
Definition ApiMessage := (api_role * jsstring)%type.

Definition em_dash : jsstring := [8212%N].

Definition GREETING_TEXT : jsstring :=
  lit "Hey there! I'm Alex, your cashier at NYC Coffee. You can check out our menu with the 'View Menu' button above, or just tell me what you're in the mood for "
  ++ em_dash ++ lit " I'm happy to help you pick something out!".

Definition makeGreeting (now : N) : ChatMessage :=
  mkMsg Greeting cashier GREETING_TEXT None None None None now.

Fixpoint drop_leading_assistant (l : list ApiMessage) : list ApiMessage :=
  match l with
  | (assistant, _) :: l' => drop_leading_assistant l'
  | _ => l
  end.

Definition toApiMessages (messages : list ChatMessage) : list ApiMessage :=
  let mapped :=
    map (fun m =>
           (match m_role m with cashier => assistant | customer => user end,
            match m_rawContent m with
            | Some raw => raw
            | None => m_content m
            end))
        (filter (fun m => negb (msgid_eqb (m_id m) Greeting)) messages) in
  drop_leading_assistant mapped.

(** ** The local variables of one invocation of [handleSend] *)

Inductive turn_phase : Type :=
| AwaitResponse      (* await fetch("/api/chat", ...) *)
| Reading            (* await reader.read() *)
| AwaitUpdate (receipt : json) (displayContent : jsstring)
              (savedModReceiptMsgId : msgid)   (* await updateOrder(...) *)
| AwaitSave (receipt : json) (displayContent : jsstring).
                                               (* await saveOrder(receipt) *)

Record turn : Type := mkTurn {
  fullContent : jsstring;
  streamingId : option msgid;
  streamingTimestamp : N;
  ttsStarted : bool;
  phase : turn_phase
}.

Record state : Type := mkState {
  messages : list ChatMessage;
  isTyping : bool;
  isResponding : bool;
  menuOpen : bool;
  hasStarted : bool;
  voiceMode : bool;
  isMuted : bool;
  speakingMessageId : option msgid;
  voiceModeRef : bool;
  isMutedRef : bool;
  isRespondingRef : bool;
  orderCompleteRef : bool;
  ttsEndedWhileRespondingRef : bool;
  modifyingOrderIdRef : option uuid;
  modifyingReceiptMsgIdRef : option msgid;
  autoListenTimerRef : option timer_id;
  tts : Tts.state;
  speech : Speech.state;
  timers : list timer_id;
  nextTimer : timer_id;
  turns : list (turn_id * turn);
  nextTurn : turn_id;
  speakCalls : list (Tts.call_id * msgid)
}.

Definition set_messages (v : list ChatMessage) (s : state) : state :=
  mkState v (isTyping s) (isResponding s) (menuOpen s) (hasStarted s)
          (voiceMode s) (isMuted s) (speakingMessageId s) (voiceModeRef s)
          (isMutedRef s) (isRespondingRef s) (orderCompleteRef s)
          (ttsEndedWhileRespondingRef s) (modifyingOrderIdRef s)
          (modifyingReceiptMsgIdRef s) (autoListenTimerRef s) (tts s)
          (speech s) (timers s) (nextTimer s) (turns s) (nextTurn s)
          (speakCalls s).

Definition set_isTyping (v : bool) (s : state) : state :=
  mkState (messages s) v (isResponding s) (menuOpen s) (hasStarted s)
          (voiceMode s) (isMuted s) (speakingMessageId s) (voiceModeRef s)
          (isMutedRef s) (isRespondingRef s) (orderCompleteRef s)
          (ttsEndedWhileRespondingRef s) (modifyingOrderIdRef s)
          (modifyingReceiptMsgIdRef s) (autoListenTimerRef s) (tts s)
          (speech s) (timers s) (nextTimer s) (turns s) (nextTurn s)
          (speakCalls s).

Definition set_isResponding (v : bool) (s : state) : state :=
  mkState (messages s) (isTyping s) v (menuOpen s) (hasStarted s)
          (voiceMode s) (isMuted s) (speakingMessageId s) (voiceModeRef s)
          (isMutedRef s) (isRespondingRef s) (orderCompleteRef s)
          (ttsEndedWhileRespondingRef s) (modifyingOrderIdRef s)
          (modifyingReceiptMsgIdRef s) (autoListenTimerRef s) (tts s)
          (speech s) (timers s) (nextTimer s) (turns s) (nextTurn s)
          (speakCalls s).

Definition set_menuOpen (v : bool) (s : state) : state :=
  mkState (messages s) (isTyping s) (isResponding s) v (hasStarted s)
          (voiceMode s) (isMuted s) (speakingMessageId s) (voiceModeRef s)
          (isMutedRef s) (isRespondingRef s) (orderCompleteRef s)
          (ttsEndedWhileRespondingRef s) (modifyingOrderIdRef s)
          (modifyingReceiptMsgIdRef s) (autoListenTimerRef s) (tts s)
          (speech s) (timers s) (nextTimer s) (turns s) (nextTurn s)
          (speakCalls s).

Definition set_hasStarted (v : bool) (s : state) : state :=
  mkState (messages s) (isTyping s) (isResponding s) (menuOpen s) v
          (voiceMode s) (isMuted s) (speakingMessageId s) (voiceModeRef s)
          (isMutedRef s) (isRespondingRef s) (orderCompleteRef s)
          (ttsEndedWhileRespondingRef s) (modifyingOrderIdRef s)
          (modifyingReceiptMsgIdRef s) (autoListenTimerRef s) (tts s)
          (speech s) (timers s) (nextTimer s) (turns s) (nextTurn s)
          (speakCalls s).

Definition set_voiceMode (v : bool) (s : state) : state :=
  mkState (messages s) (isTyping s) (isResponding s) (menuOpen s)
          (hasStarted s) v (isMuted s) (speakingMessageId s)
          (voiceModeRef s) (isMutedRef s) (isRespondingRef s)
          (orderCompleteRef s) (ttsEndedWhileRespondingRef s)
          (modifyingOrderIdRef s) (modifyingReceiptMsgIdRef s)
          (autoListenTimerRef s) (tts s) (speech s) (timers s) (nextTimer s)
          (turns s) (nextTurn s) (speakCalls s).

Definition set_isMuted (v : bool) (s : state) : state :=
  mkState (messages s) (isTyping s) (isResponding s) (menuOpen s)
          (hasStarted s) (voiceMode s) v (speakingMessageId s)
          (voiceModeRef s) (isMutedRef s) (isRespondingRef s)
          (orderCompleteRef s) (ttsEndedWhileRespondingRef s)
          (modifyingOrderIdRef s) (modifyingReceiptMsgIdRef s)
          (autoListenTimerRef s) (tts s) (speech s) (timers s) (nextTimer s)
          (turns s) (nextTurn s) (speakCalls s).

Definition set_speakingMessageId (v : option msgid) (s : state) : state :=
  mkState (messages s) (isTyping s) (isResponding s) (menuOpen s)
          (hasStarted s) (voiceMode s) (isMuted s) v (voiceModeRef s)
          (isMutedRef s) (isRespondingRef s) (orderCompleteRef s)
          (ttsEndedWhileRespondingRef s) (modifyingOrderIdRef s)
          (modifyingReceiptMsgIdRef s) (autoListenTimerRef s) (tts s)
          (speech s) (timers s) (nextTimer s) (turns s) (nextTurn s)
          (speakCalls s).

Definition set_voiceModeRef (v : bool) (s : state) : state :=
  mkState (messages s) (isTyping s) (isResponding s) (menuOpen s)
          (hasStarted s) (voiceMode s) (isMuted s) (speakingMessageId s) v
          (isMutedRef s) (isRespondingRef s) (orderCompleteRef s)
          (ttsEndedWhileRespondingRef s) (modifyingOrderIdRef s)
          (modifyingReceiptMsgIdRef s) (autoListenTimerRef s) (tts s)
          (speech s) (timers s) (nextTimer s) (turns s) (nextTurn s)
          (speakCalls s).

Definition set_isMutedRef (v : bool) (s : state) : state :=
  mkState (messages s) (isTyping s) (isResponding s) (menuOpen s)
          (hasStarted s) (voiceMode s) (isMuted s) (speakingMessageId s)
          (voiceModeRef s) v (isRespondingRef s) (orderCompleteRef s)
          (ttsEndedWhileRespondingRef s) (modifyingOrderIdRef s)
          (modifyingReceiptMsgIdRef s) (autoListenTimerRef s) (tts s)
          (speech s) (timers s) (nextTimer s) (turns s) (nextTurn s)
          (speakCalls s).

Definition set_isRespondingRef (v : bool) (s : state) : state :=
  mkState (messages s) (isTyping s) (isResponding s) (menuOpen s)
          (hasStarted s) (voiceMode s) (isMuted s) (speakingMessageId s)
          (voiceModeRef s) (isMutedRef s) v (orderCompleteRef s)
          (ttsEndedWhileRespondingRef s) (modifyingOrderIdRef s)
          (modifyingReceiptMsgIdRef s) (autoListenTimerRef s) (tts s)
          (speech s) (timers s) (nextTimer s) (turns s) (nextTurn s)
          (speakCalls s).

Definition set_orderCompleteRef (v : bool) (s : state) : state :=
  mkState (messages s) (isTyping s) (isResponding s) (menuOpen s)
          (hasStarted s) (voiceMode s) (isMuted s) (speakingMessageId s)
          (voiceModeRef s) (isMutedRef s) (isRespondingRef s) v
          (ttsEndedWhileRespondingRef s) (modifyingOrderIdRef s)
          (modifyingReceiptMsgIdRef s) (autoListenTimerRef s) (tts s)
          (speech s) (timers s) (nextTimer s) (turns s) (nextTurn s)
          (speakCalls s).

Definition set_ttsEndedWhileRespondingRef (v : bool) (s : state) : state :=
  mkState (messages s) (isTyping s) (isResponding s) (menuOpen s)
          (hasStarted s) (voiceMode s) (isMuted s) (speakingMessageId s)
          (voiceModeRef s) (isMutedRef s) (isRespondingRef s)
          (orderCompleteRef s) v (modifyingOrderIdRef s)
          (modifyingReceiptMsgIdRef s) (autoListenTimerRef s) (tts s)
          (speech s) (timers s) (nextTimer s) (turns s) (nextTurn s)
          (speakCalls s).

Definition set_modifyingOrderIdRef (v : option uuid) (s : state) : state :=
  mkState (messages s) (isTyping s) (isResponding s) (menuOpen s)
          (hasStarted s) (voiceMode s) (isMuted s) (speakingMessageId s)
          (voiceModeRef s) (isMutedRef s) (isRespondingRef s)
          (orderCompleteRef s) (ttsEndedWhileRespondingRef s) v
          (modifyingReceiptMsgIdRef s) (autoListenTimerRef s) (tts s)
          (speech s) (timers s) (nextTimer s) (turns s) (nextTurn s)
          (speakCalls s).

Definition set_modifyingReceiptMsgIdRef (v : option msgid) (s : state)
  : state :=
  mkState (messages s) (isTyping s) (isResponding s) (menuOpen s)
          (hasStarted s) (voiceMode s) (isMuted s) (speakingMessageId s)
          (voiceModeRef s) (isMutedRef s) (isRespondingRef s)
          (orderCompleteRef s) (ttsEndedWhileRespondingRef s)
          (modifyingOrderIdRef s) v (autoListenTimerRef s) (tts s)
          (speech s) (timers s) (nextTimer s) (turns s) (nextTurn s)
          (speakCalls s).

Definition set_autoListenTimerRef (v : option timer_id) (s : state) : state :=
  mkState (messages s) (isTyping s) (isResponding s) (menuOpen s)
          (hasStarted s) (voiceMode s) (isMuted s) (speakingMessageId s)
          (voiceModeRef s) (isMutedRef s) (isRespondingRef s)
          (orderCompleteRef s) (ttsEndedWhileRespondingRef s)
          (modifyingOrderIdRef s) (modifyingReceiptMsgIdRef s) v (tts s)
          (speech s) (timers s) (nextTimer s) (turns s) (nextTurn s)
          (speakCalls s).

Definition set_tts (v : Tts.state) (s : state) : state :=
  mkState (messages s) (isTyping s) (isResponding s) (menuOpen s)
          (hasStarted s) (voiceMode s) (isMuted s) (speakingMessageId s)
          (voiceModeRef s) (isMutedRef s) (isRespondingRef s)
          (orderCompleteRef s) (ttsEndedWhileRespondingRef s)
          (modifyingOrderIdRef s) (modifyingReceiptMsgIdRef s)
          (autoListenTimerRef s) v (speech s) (timers s) (nextTimer s)
          (turns s) (nextTurn s) (speakCalls s).

Definition set_speech (v : Speech.state) (s : state) : state :=
  mkState (messages s) (isTyping s) (isResponding s) (menuOpen s)
          (hasStarted s) (voiceMode s) (isMuted s) (speakingMessageId s)
          (voiceModeRef s) (isMutedRef s) (isRespondingRef s)
          (orderCompleteRef s) (ttsEndedWhileRespondingRef s)
          (modifyingOrderIdRef s) (modifyingReceiptMsgIdRef s)
          (autoListenTimerRef s) (tts s) v (timers s) (nextTimer s)
          (turns s) (nextTurn s) (speakCalls s).

Definition set_timers (v : list timer_id) (s : state) : state :=
  mkState (messages s) (isTyping s) (isResponding s) (menuOpen s)
          (hasStarted s) (voiceMode s) (isMuted s) (speakingMessageId s)
          (voiceModeRef s) (isMutedRef s) (isRespondingRef s)
          (orderCompleteRef s) (ttsEndedWhileRespondingRef s)
          (modifyingOrderIdRef s) (modifyingReceiptMsgIdRef s)
          (autoListenTimerRef s) (tts s) (speech s) v (nextTimer s)
          (turns s) (nextTurn s) (speakCalls s).

Definition set_nextTimer (v : timer_id) (s : state) : state :=
  mkState (messages s) (isTyping s) (isResponding s) (menuOpen s)
          (hasStarted s) (voiceMode s) (isMuted s) (speakingMessageId s)
          (voiceModeRef s) (isMutedRef s) (isRespondingRef s)
          (orderCompleteRef s) (ttsEndedWhileRespondingRef s)
          (modifyingOrderIdRef s) (modifyingReceiptMsgIdRef s)
          (autoListenTimerRef s) (tts s) (speech s) (timers s) v (turns s)
          (nextTurn s) (speakCalls s).

Definition set_turns (v : list (turn_id * turn)) (s : state) : state :=
  mkState (messages s) (isTyping s) (isResponding s) (menuOpen s)
          (hasStarted s) (voiceMode s) (isMuted s) (speakingMessageId s)
          (voiceModeRef s) (isMutedRef s) (isRespondingRef s)
          (orderCompleteRef s) (ttsEndedWhileRespondingRef s)
          (modifyingOrderIdRef s) (modifyingReceiptMsgIdRef s)
          (autoListenTimerRef s) (tts s) (speech s) (timers s) (nextTimer s)
          v (nextTurn s) (speakCalls s).

Definition set_nextTurn (v : turn_id) (s : state) : state :=
  mkState (messages s) (isTyping s) (isResponding s) (menuOpen s)
          (hasStarted s) (voiceMode s) (isMuted s) (speakingMessageId s)
          (voiceModeRef s) (isMutedRef s) (isRespondingRef s)
          (orderCompleteRef s) (ttsEndedWhileRespondingRef s)
          (modifyingOrderIdRef s) (modifyingReceiptMsgIdRef s)
          (autoListenTimerRef s) (tts s) (speech s) (timers s) (nextTimer s)
          (turns s) v (speakCalls s).

Definition set_speakCalls (v : list (Tts.call_id * msgid)) (s : state)
  : state :=
  mkState (messages s) (isTyping s) (isResponding s) (menuOpen s)
          (hasStarted s) (voiceMode s) (isMuted s) (speakingMessageId s)
          (voiceModeRef s) (isMutedRef s) (isRespondingRef s)
          (orderCompleteRef s) (ttsEndedWhileRespondingRef s)
          (modifyingOrderIdRef s) (modifyingReceiptMsgIdRef s)
          (autoListenTimerRef s) (tts s) (speech s) (timers s) (nextTimer s)
          (turns s) (nextTurn s) v.

Definition init (supported : bool) (now : N) : state :=
  mkState [makeGreeting now] false false false false supported false None
          supported false false false false None None None
          Tts.init (Speech.init supported) [] 0 [] 0 [].

(** ** What the component does to its surroundings *)

Inductive call : Type :=
| CActivateMic                           (* activateMic() is entered *)
| CSpeak (id : msgid) (text : jsstring)  (* speakMessage(id, text) *)
| CFetchChat (n : turn_id) (apiMessages : list ApiMessage)
| CUpdateOrder (n : turn_id) (orderId : uuid)
               (items total_price : option json)
| CSaveOrder (n : turn_id) (receipt : json)
| CSetTimeout (t : timer_id) (ms : N)
| CClearTimeout (t : timer_id)
| CTts (o : Tts.out)
| CRec (o : Speech.out)
| CConsoleError.

(** ** Handlers are state transformers that log their calls *)

Definition M (A : Type) : Type := state -> A * state * list call.

Definition ret {A} (a : A) : M A := fun s => (a, s, []).

Definition bind {A B} (m : M A) (k : A -> M B) : M B :=
  fun s =>
    let '(a, s1, l1) := m s in
    let '(b, s2, l2) := k a s1 in
    (b, s2, l1 ++ l2).

Definition gets {A} (f : state -> A) : M A := fun s => (f s, s, []).
Definition modify (f : state -> state) : M unit := fun s => (tt, f s, []).
Definition emit (c : call) : M unit := fun s => (tt, s, [c]).

Notation "x <- m ;; k" := (bind m (fun x => k))
  (at level 61, m at next level, right associativity).
Notation "m ;; k" := (bind m (fun _ => k))
  (at level 61, right associativity).

Fixpoint each {A} (f : A -> M unit) (l : list A) : M unit :=
  match l with
  | [] => ret tt
  | a :: l' => f a ;; each f l'
  end.

Definition when (b : bool) (m : M unit) : M unit :=
  if b then m else ret tt.

(** A call into the playback hook, and into the capture hook. *)
Definition with_tts {A} (f : Tts.state -> A * Tts.state * list Tts.out)
  : M (A * list Tts.out) :=
  fun s => let '(a, t, o) := f (tts s) in ((a, o), set_tts t s, []).

Definition with_speech (f : Speech.state -> Speech.state * list Speech.out)
  : M (list Speech.out) :=
  fun s => let '(r, o) := f (speech s) in (o, set_speech r s, []).

Definition remove_timer (t : timer_id) (l : list timer_id) : list timer_id :=
  filter (fun t' => negb (Nat.eqb t t')) l.

Fixpoint lookup_turn (l : list (turn_id * turn)) (n : turn_id)
  : option turn :=
  match l with
  | [] => None
  | (n', t) :: l' => if Nat.eqb n n' then Some t else lookup_turn l' n
  end.

Fixpoint store_turn (l : list (turn_id * turn)) (n : turn_id) (t : turn)
  : list (turn_id * turn) :=
  match l with
  | [] => []
  | (n', t') :: l' =>
      if Nat.eqb n n' then (n', t) :: l' else (n', t') :: store_turn l' n t
  end.

Definition drop_turn (l : list (turn_id * turn)) (n : turn_id)
  : list (turn_id * turn) :=
  filter (fun p => negb (Nat.eqb n (fst p))) l.

Definition put_turn (n : turn_id) (t : turn) : M unit :=
  modify (fun s => set_turns (store_turn (turns s) n t) s).

Definition end_turn (n : turn_id) : M unit :=
  modify (fun s => set_turns (drop_turn (turns s) n) s).

Definition setMessages (f : list ChatMessage -> list ChatMessage) : M unit :=
  modify (fun s => set_messages (f (messages s)) s).

(** [startListeningRef.current()] and [stopListeningRef.current()]: the
    refs always hold the two functions of the capture hook. *)
Definition startListening : M unit :=
  o <- with_speech Speech.startListening ;; each (fun x => emit (CRec x)) o.

Definition stopListening : M unit :=
  o <- with_speech Speech.stopListening ;; each (fun x => emit (CRec x)) o.

Definition clearAutoListenTimer : M unit :=
  r <- gets autoListenTimerRef ;;
  match r with
  | Some t =>
      emit (CClearTimeout t) ;;
      modify (fun s => set_timers (remove_timer t (timers s)) s) ;;
      modify (set_autoListenTimerRef None)
  | None => ret tt
  end.

(** Start the mic and arm the 5-second silence guard. *)
Definition activateMic : M unit :=
  emit CActivateMic ;;
  clearAutoListenTimer ;;
  startListening ;;
  t <- gets nextTimer ;;
  modify (fun s => set_nextTimer (S t) (set_timers (timers s ++ [t]) s)) ;;
  emit (CSetTimeout t 5000) ;;
  modify (set_autoListenTimerRef (Some t)).

Definition onTtsEnd : M unit :=
  oc <- gets orderCompleteRef ;;
  if oc then ret tt else
  vm <- gets voiceModeRef ;;
  mu <- gets isMutedRef ;;
  if negb vm || mu then ret tt else
  r <- gets isRespondingRef ;;
  if r then modify (set_ttsEndedWhileRespondingRef true)
  else activateMic.

Fixpoint lookup_call (l : list (Tts.call_id * msgid)) (c : Tts.call_id)
  : option msgid :=
  match l with
  | [] => None
  | (c', id) :: l' => if Nat.eqb c c' then Some id else lookup_call l' c
  end.

(** What [speakMessage] does after [await speak(text)]. *)
Definition speakResolved (c : Tts.call_id) : M unit :=
  calls <- gets speakCalls ;;
  match lookup_call calls c with
  | Some id =>
      modify (fun s =>
        set_speakingMessageId
          (match speakingMessageId s with
           | Some cur => if msgid_eqb cur id then None else Some cur
           | None => None
           end) s) ;;
      modify (fun s =>
        set_speakCalls
          (filter (fun p => negb (Nat.eqb c (fst p))) (speakCalls s)) s)
  | None => ret tt
  end.

(** What the component makes of an output of the playback hook. *)
Definition tts_out (o : Tts.out) : M unit :=
  emit (CTts o) ;;
  match o with
  | Tts.CallOnEnd => onTtsEnd
  | Tts.Resolved c => speakResolved c
  | _ => ret tt
  end.

Definition stop : M unit :=
  r <- with_tts (fun t => let '(t', o) := Tts.stop t in (tt, t', o)) ;;
  each tts_out (snd r).

Definition speakMessage (messageId : msgid) (text : jsstring) : M unit :=
  modify (set_speakingMessageId (Some messageId)) ;;
  emit (CSpeak messageId text) ;;
  r <- with_tts (Tts.speak text) ;;
  modify (fun s => set_speakCalls (speakCalls s ++ [(fst r, messageId)]) s) ;;
  each tts_out (snd r).

Definition setVoiceMode (b : bool) : M unit :=
  modify (set_voiceMode b) ;; modify (set_voiceModeRef b).

Definition handleBegin : M unit :=
  modify (set_hasStarted true) ;;
  speakMessage Greeting GREETING_TEXT.

Definition handleBeginText : M unit :=
  modify (set_hasStarted true) ;;
  setVoiceMode false.

Definition handleNewOrder (now : N) : M unit :=
  clearAutoListenTimer ;;
  stop ;;
  modify (set_speakingMessageId None) ;;
  modify (set_orderCompleteRef false) ;;
  modify (set_ttsEndedWhileRespondingRef false) ;;
  modify (set_modifyingOrderIdRef None) ;;
  modify (set_modifyingReceiptMsgIdRef None) ;;
  setMessages (fun _ => [makeGreeting now]) ;;
  modify (set_isTyping false) ;;
  modify (set_isResponding false) ;;
  modify (set_isRespondingRef false) ;;
  speakMessage Greeting GREETING_TEXT.

Definition handleModifyOrder (receiptMsgId : msgid) (orderId : uuid)
  (now : N) : M unit :=
  modify (set_orderCompleteRef false) ;;
  modify (set_ttsEndedWhileRespondingRef false) ;;
  modify (set_modifyingOrderIdRef (Some orderId)) ;;
  modify (set_modifyingReceiptMsgIdRef (Some receiptMsgId)) ;;
  let modMsg :=
    mkMsg (CashierMsg now) cashier
          (lit "Sure, what would you like to change?")
          None None None None now in
  setMessages (fun prev => prev ++ [modMsg]) ;;
  speakMessage (m_id modMsg) (m_content modMsg).

(** The [catch] and the [finally] of [handleSend]. *)
Definition catch_block (now : N) : M unit :=
  emit CConsoleError ;;
  modify (set_isTyping false) ;;
  setMessages (fun prev =>
    prev ++ [mkMsg (ErrorMsg now) cashier
               (lit "Something went wrong on my end. Give me a second and try again.")
               None None None None now]).

Definition finally_block : M unit :=
  modify (set_isResponding false) ;;
  modify (set_isRespondingRef false) ;;
  modify (set_isTyping false) ;;
  deferred <- gets ttsEndedWhileRespondingRef ;;
  vm <- gets voiceModeRef ;;
  mu <- gets isMutedRef ;;
  oc <- gets orderCompleteRef ;;
  when (deferred && vm && negb mu && negb oc)
       (modify (set_ttsEndedWhileRespondingRef false) ;; activateMic).

(** [handleSend] up to [await fetch("/api/chat")]. *)
Definition handleSend (text : jsstring) (now : N) : M unit :=
  clearAutoListenTimer ;;
  stop ;;
  modify (set_speakingMessageId None) ;;
  modify (set_ttsEndedWhileRespondingRef false) ;;
  let userMsg := mkMsg (UserMsg now) customer text None None None None now in
  messages0 <- gets messages ;;
  let historySnapshot := messages0 ++ [userMsg] in
  setMessages (fun prev => prev ++ [userMsg]) ;;
  modify (set_isTyping true) ;;
  modify (set_isResponding true) ;;
  modify (set_isRespondingRef true) ;;
  let apiMessages := toApiMessages historySnapshot in
  n <- gets nextTurn ;;
  modify (fun s =>
    set_nextTurn (S n)
      (set_turns (turns s ++ [(n, mkTurn [] None 0 false AwaitResponse)]) s)) ;;
  emit (CFetchChat n apiMessages).

Inductive chat_response := ROk | RNotOk | RNoBody | RFailed.

(** After [await fetch]: the two checks and [getReader]. *)
Definition onChatResponse (n : turn_id) (t : turn) (r : chat_response)
  (now : N) : M unit :=
  match r with
  | ROk => put_turn n (mkTurn [] None now (ttsStarted t) Reading)
  | _ => catch_block now ;; finally_block ;; end_turn n
  end.

(** One round of the reading loop with [done] false. *)
Definition onChunk (n : turn_id) (t : turn) (chunk : jsstring) (now : N)
  : M unit :=
  let full := fullContent t ++ chunk in
  sid <- match streamingId t with
         | None =>
             let sid := CashierMsg now in
             modify (set_isTyping false) ;;
             setMessages (fun prev =>
               prev ++ [mkMsg sid cashier full None None None None
                              (streamingTimestamp t)]) ;;
             ret sid
         | Some sid =>
             setMessages (map (fun m =>
               if msgid_eqb (m_id m) sid then
                 mkMsg (m_id m) (m_role m) full (m_rawContent m)
                       (m_receipt m) (m_orderNumber m) (m_orderId m)
                       (m_timestamp m)
               else m)) ;;
             ret sid
         end ;;
  vm <- gets voiceModeRef ;;
  mu <- gets isMutedRef ;;
  if negb (ttsStarted t) && vm && negb mu && (100 <=? length full) then
    put_turn n (mkTurn full (Some sid) (streamingTimestamp t) true Reading) ;;
    let earlyText := trim (stripReceiptBlock full) in
    when (truthy earlyText) (speakMessage sid earlyText)
  else
    put_turn n (mkTurn full (Some sid) (streamingTimestamp t) (ttsStarted t)
                       Reading).

(** The end of the [try] block and the [finally]. *)
Definition finish_turn (n : turn_id) (t : turn) (sid : msgid)
  (displayContent : jsstring) : M unit :=
  let ttsText := trim displayContent in
  vm <- gets voiceModeRef ;;
  mu <- gets isMutedRef ;;
  when (negb (ttsStarted t) && vm && negb mu && truthy ttsText)
       (speakMessage sid ttsText) ;;
  finally_block ;;
  end_turn n.

Definition type_is (data : json) (s : jsstring) : bool :=
  match get data (lit "type") with
  | Normal ty => is_string ty s
  | Throw => false
  end.

Definition field (data : json) (k : jsstring) : option json :=
  match get data k with
  | Normal v => v
  | Throw => None
  end.

Section WithJson.

Variable JSON_parse : jsstring -> option json.

(** The reading loop ends ([done] is true): receipt handling up to the
    [await] of the persistence call, if there is one. *)
Definition onDone (n : turn_id) (t : turn) (now : N) : M unit :=
  match streamingId t with
  | None =>
      modify (set_isTyping false) ;;
      setMessages (fun prev =>
        prev ++ [mkMsg (CashierMsg now) cashier
                   (lit "Sorry about that " ++ em_dash
                    ++ lit " could you repeat your order?")
                   None None None None now]) ;;
      finally_block ;;
      end_turn n
  | Some sid =>
      let full := fullContent t in
      let receipt := parseReceipt JSON_parse full in
      let displayContent :=
        match receipt with
        | Some _ => stripReceiptBlock full
        | None => full
        end in
      orderId <- gets modifyingOrderIdRef ;;
      msgId <- gets modifyingReceiptMsgIdRef ;;
      match receipt with
      | Some data =>
          match type_is data (lit "order_update"), orderId, msgId with
          | true, Some oid, Some savedModReceiptMsgId =>
              emit (CUpdateOrder n oid (field data (lit "items"))
                                 (field data (lit "total_price"))) ;;
              put_turn n (mkTurn full (Some sid) (streamingTimestamp t)
                            (ttsStarted t)
                            (AwaitUpdate data displayContent
                                         savedModReceiptMsgId))
          | _, _, _ =>
              if type_is data (lit "order_complete") then
                emit (CSaveOrder n data) ;;
                put_turn n (mkTurn full (Some sid) (streamingTimestamp t)
                              (ttsStarted t) (AwaitSave data displayContent))
              else finish_turn n t sid displayContent
          end
      | None => finish_turn n t sid displayContent
      end
  end.

(** After [await updateOrder(...)], caught or not. *)
Definition onUpdateSettled (n : turn_id) (t : turn) (sid : msgid)
  (receipt : json) (displayContent : jsstring) (savedModReceiptMsgId : msgid)
  (ok : bool) : M unit :=
  when (negb ok) (emit CConsoleError) ;;
  modify (set_modifyingOrderIdRef None) ;;
  modify (set_modifyingReceiptMsgIdRef None) ;;
  modify (set_orderCompleteRef true) ;;
  clearAutoListenTimer ;;
  stopListening ;;
  setMessages (map (fun m =>
    if msgid_eqb (m_id m) sid then
      mkMsg (m_id m) (m_role m) displayContent (Some (fullContent t))
            (m_receipt m) (m_orderNumber m) (m_orderId m) (m_timestamp m)
    else if msgid_eqb (m_id m) savedModReceiptMsgId then
      mkMsg (m_id m) (m_role m) (m_content m) (m_rawContent m)
            (Some receipt) (m_orderNumber m) (m_orderId m) (m_timestamp m)
    else m)) ;;
  finish_turn n t sid displayContent.

(** After [await saveOrder(receipt)]: [saved] holds [order_number] and [id]
    of the new order, or nothing when the call threw. *)
Definition onSaveSettled (n : turn_id) (t : turn) (sid : msgid)
  (receipt : json) (displayContent : jsstring) (saved : option (Z * uuid))
  : M unit :=
  let orderNumber := match saved with Some (k, _) => k | None => 0%Z end in
  let savedOrderId :=
    match saved with Some (_, i) => Some i | None => None end in
  when (match saved with Some _ => false | None => true end)
       (emit CConsoleError) ;;
  modify (set_orderCompleteRef true) ;;
  clearAutoListenTimer ;;
  stopListening ;;
  setMessages (map (fun m =>
    if msgid_eqb (m_id m) sid then
      mkMsg (m_id m) (m_role m) displayContent (Some (fullContent t))
            (Some receipt) (Some orderNumber) savedOrderId (m_timestamp m)
    else m)) ;;
  finish_turn n t sid displayContent.

Definition handleSelectItem (name : jsstring) (now : N) : M unit :=
  modify (set_menuOpen false) ;;
  handleSend (lit "I'd like a " ++ name) now.

Definition onFinalSpeech (text : jsstring) (now : N) : M unit :=
  r <- gets isResponding ;;
  when (negb r && truthy (trim text)) (handleSend text now).

Definition handleStartListening : M unit :=
  clearAutoListenTimer ;;
  stop ;;
  modify (set_speakingMessageId None) ;;
  startListening.

Definition toggleMute : M unit :=
  m <- gets isMuted ;;
  when (negb m) stop ;;
  modify (set_isMuted (negb m)) ;;
  modify (set_isMutedRef (negb m)).

(** The replay control of a bubble: [speakMessage(msg.id, msg.content)]. *)
Definition replay (id : msgid) : M unit :=
  ms <- gets messages ;;
  vm <- gets voiceMode ;;
  mu <- gets isMuted ;;
  match find (fun m => msgid_eqb (m_id m) id) ms with
  | Some m =>
      let shown :=
        match m_receipt m with
        | Some _ => truthy (m_content m)
        | None => match m_role m with cashier => true | customer => false end
        end in
      when (shown && vm && negb mu) (speakMessage id (m_content m))
  | None => ret tt
  end.

(** The silence guard fires: [stopListeningRef.current()]. *)
Definition onTimer (t : timer_id) : M unit :=
  ts <- gets timers ;;
  when (existsb (Nat.eqb t) ts)
       (modify (fun s => set_timers (remove_timer t (timers s)) s) ;;
        stopListening).

Definition speech_out (now : N) (o : Speech.out) : M unit :=
  emit (CRec o) ;;
  match o with
  | Speech.FinalTranscript text => onFinalSpeech text now
  | _ => ret tt
  end.

(** ** Events and the transition function *)

Inductive event : Type :=
| Begin                                       (* "Start your order" *)
| BeginText                                   (* "or type instead" *)
| NewOrder (now : N)                          (* handleNewOrder *)
| ModifyOrder (receiptMsgId : msgid) (orderId : uuid) (now : N)
| Send (text : jsstring) (now : N)            (* handleSend(text) *)
| SelectItem (name : jsstring) (now : N)      (* handleSelectItem *)
| StartListening                              (* handleStartListening *)
| StopListening                               (* the manual stop control *)
| ToggleMute
| SetVoiceMode (b : bool)
| SetMenuOpen (b : bool)
| Replay (id : msgid)
| TimerFired (t : timer_id)
| ChatResponse (n : turn_id) (r : chat_response) (now : N)
| ReadChunk (n : turn_id) (chunk : jsstring) (now : N)
| ReadDone (n : turn_id) (now : N)
| ReadFailed (n : turn_id) (now : N)
| UpdateSettled (n : turn_id) (ok : bool)
| SaveSettled (n : turn_id) (saved : option (Z * uuid))
| TtsEvent (e : Tts.event)
| SpeechEvent (e : Speech.event) (now : N).

(** A continuation of [handleSend] runs only where that invocation is
    suspended. *)
Definition on_turn (n : turn_id) (k : turn -> M unit) : M unit :=
  ts <- gets turns ;;
  match lookup_turn ts n with
  | Some t => k t
  | None => ret tt
  end.

Definition handle (e : event) : M unit :=
  match e with
  | Begin => handleBegin
  | BeginText => handleBeginText
  | NewOrder now => handleNewOrder now
  | ModifyOrder receiptMsgId orderId now =>
      handleModifyOrder receiptMsgId orderId now
  | Send text now => handleSend text now
  | SelectItem name now => handleSelectItem name now
  | StartListening => handleStartListening
  | StopListening => stopListening
  | ToggleMute => toggleMute
  | SetVoiceMode b => setVoiceMode b
  | SetMenuOpen b => modify (set_menuOpen b)
  | Replay id => replay id
  | TimerFired t => onTimer t
  | ChatResponse n r now =>
      on_turn n (fun t =>
        match phase t with
        | AwaitResponse => onChatResponse n t r now
        | _ => ret tt
        end)
  | ReadChunk n chunk now =>
      on_turn n (fun t =>
        match phase t with
        | Reading => onChunk n t chunk now
        | _ => ret tt
        end)
  | ReadDone n now =>
      on_turn n (fun t =>
        match phase t with
        | Reading => onDone n t now
        | _ => ret tt
        end)
  | ReadFailed n now =>
      on_turn n (fun t =>
        match phase t with
        | Reading => catch_block now ;; finally_block ;; end_turn n
        | _ => ret tt
        end)
  | UpdateSettled n ok =>
      on_turn n (fun t =>
        match phase t, streamingId t with
        | AwaitUpdate receipt displayContent saved, Some sid =>
            onUpdateSettled n t sid receipt displayContent saved ok
        | _, _ => ret tt
        end)
  | SaveSettled n saved =>
      on_turn n (fun t =>
        match phase t, streamingId t with
        | AwaitSave receipt displayContent, Some sid =>
            onSaveSettled n t sid receipt displayContent saved
        | _, _ => ret tt
        end)
  | TtsEvent e =>
      r <- with_tts (fun t => let '(t', o) := Tts.step t e in (tt, t', o)) ;;
      each tts_out (snd r)
  | SpeechEvent e now =>
      o <- with_speech (fun r => Speech.step r e) ;;
      each (speech_out now) o
  end.

Definition step (s : state) (e : event) : state * list call :=
  let '(_, s', l) := handle e s in (s', l).

Fixpoint run (s : state) (es : list event) : state * list call :=
  match es with
  | [] => (s, [])
  | e :: es' =>
      let '(s1, l1) := step s e in
      let '(s2, l2) := run s1 es' in
      (s2, l1 ++ l2)
  end.

End WithJson.

Definition is_speak (c : call) : bool :=
  match c with CSpeak _ _ => true | _ => false end.

Definition is_activate (c : call) : bool :=
  match c with CActivateMic => true | _ => false end.

Definition count_speak (l : list call) : nat :=
  length (filter is_speak l).

End Chat.

(* ------------------------------------------------------------------ *)
(** * The input bar and the receipt card

    [ChatInput] (components/chat/ChatInput.tsx) and the two controls of
    [ReceiptCard] (components/chat/ReceiptCard.tsx), as [ChatInterface]
    wires them. *)

Module ChatInput.
Import Js.

(** [handleSend] of the input bar: what it passes to [onSend], if it calls
    it, and the value of the text field afterwards. *)
Definition handleSend (value : jsstring) (disabled : bool)
  : option jsstring * jsstring :=
  let trimmed := trim value in
  if negb (truthy trimmed) || disabled then (None, value)
  else (Some trimmed, []).

Inductive mic_action := CallStopListening | CallStartListening.

(** [handleMicPress]: which of the two callbacks is called, if any. *)
Definition handleMicPress (disabled isListening : bool)
  : option mic_action :=
  if disabled then None
  else if isListening then Some CallStopListening
  else Some CallStartListening.

End ChatInput.

Module Page.
Import Js Json Chat.

(** The send control: [ChatInterface] renders the input bar with
    [onSend={handleSend}] and [disabled={isResponding}].  Returns the new
    value of the text field. *)
Definition submit (value : jsstring) (now : N) : M jsstring :=
  disabled <- gets isResponding ;;
  match ChatInput.handleSend value disabled with
  | (Some text, value') => Chat.handleSend text now ;; ret value'
  | (None, value') => ret value'
  end.

(** The mic control: [isListening] of the capture hook,
    [onStartListening={handleStartListening}] and
    [onStopListening={stopListening}]. *)
Definition micPress : M unit :=
  disabled <- gets isResponding ;;
  listening <- gets (fun s => Speech.isListening (speech s)) ;;
  match ChatInput.handleMicPress disabled listening with
  | Some ChatInput.CallStopListening => stopListening
  | Some ChatInput.CallStartListening => handleStartListening
  | None => ret tt
  end.

(** The [onModifyOrder] prop that [ChatInterface] gives the receipt card of
    a message: [msg.orderId ? () => handleModifyOrder(msg.id, msg.orderId)
    : undefined]. *)
Definition onModifyOrder (msg : ChatMessage) : option (msgid * uuid) :=
  match m_orderId msg with
  | Some orderId => Some (m_id msg, orderId)
  | None => None
  end.

(** The card shows "Modify order" when [status === "new" && onModifyOrder]. *)
Definition shows_modify (status : OrderService.OrderStatus)
  (msg : ChatMessage) : bool :=
  match status, onModifyOrder msg with
  | OrderService.status_new, Some _ => true
  | _, _ => false
  end.

End Page.

(* ------------------------------------------------------------------ *)
(** * The speech synthesis route ([app/api/tts/route.ts])

    What the route makes of the [text] of a request before it calls the
    synthesis service. *)

Module TtsRoute.
Import Js.

Definition MAX_TEXT_LENGTH : nat := 500.

(** [".", "!", "?", ",", ";", "…"].includes(lastChar)]; the last entry is
    the single code unit U+2026. *)
Definition is_punctuation (c : char) : bool :=
  ((c =? 46) || (c =? 33) || (c =? 63) || (c =? 44) || (c =? 59)
   || (c =? 8230))%N.

(** [trimmedText.slice(-1)]: the last character, or the empty string. *)
Definition lastChar (s : jsstring) : option char :=
  match rev s with
  | c :: _ => Some c
  | [] => None
  end.

(** The text sent to the service, or [None] for the response
    400 "text is required" ([text] is a string here; the route also
    answers 400 when it is not). *)
Definition paddedText (text : jsstring) : option jsstring :=
  if negb (truthy text) || negb (truthy (trim text)) then None
  else
    let truncated :=
      if Nat.ltb MAX_TEXT_LENGTH (length text)
      then firstn MAX_TEXT_LENGTH text else text in
    let trimmedText := trimEnd truncated in
    let hasPunctuation :=
      match lastChar trimmedText with
      | Some c => is_punctuation c
      | None => false
      end in
    Some (if hasPunctuation then trimmedText ++ lit "  "
          else trimmedText ++ lit ".  ").

End TtsRoute.

(* ------------------------------------------------------------------ *)
(** * Barista-side status update ([lib/barista-service.ts]) *)

Module BaristaService.
Import OrderService.

(** [update({ status: newStatus }).eq("id", orderId)] on [orders]: the
    request writes the [status] column only. *)
Definition update_status (d : db) (orderId : uuid) (newStatus : OrderStatus)
  : db :=
  mkDb (map (fun o =>
               if (o_id o =? orderId)%N then
                 mkOrder (o_id o) (o_order_number o) (o_customer_name o)
                         newStatus (o_total_price o) (o_created_at o)
                         (o_started_at o) (o_completed_at o)
               else o) (orders d))
       (order_items d) (next_uuid d) (clock d).

(** [updateOrderStatus]: an error of the request is logged and not thrown.
    Returns the store and whether an error was logged. *)
Definition updateOrderStatus (fail : bool) (orderId : uuid)
  (newStatus : OrderStatus) (d : db) : db * bool :=
  if fail then (d, true) else (update_status d orderId newStatus, false).

End BaristaService.

(* ------------------------------------------------------------------ *)
(** * Facts about JavaScript strings *)

Module JsFacts.
Import Js.

Lemma eqb_spec (a b : jsstring) : reflect (a = b) (eqb a b).
Proof.
  revert b; induction a as [|x a IH]; intros [|y b]; simpl;
    try (constructor; congruence).
  destruct (N.eqb_spec x y); simpl.
  - destruct (IH b); constructor; congruence.
  - constructor; congruence.
Qed.

Lemma trimStart_length (s : jsstring) : length (trimStart s) <= length s.
Proof.
  induction s as [|c s IH]; simpl; [lia|].
  destruct (is_space c); simpl; lia.
Qed.

Lemma trimStart_idem (s : jsstring) : trimStart (trimStart s) = trimStart s.
Proof.
  induction s as [|c s IH]; simpl; [reflexivity|].
  destruct (is_space c) eqn:E; [exact IH|].
  simpl. now rewrite E.
Qed.

(** Dropping leading white space commutes with dropping trailing white
    space: what [trimStart] leaves, when not empty, starts with a character
    that is no space, and [trimEnd] cannot go past it. *)
Lemma trimStart_app_nonspace (s t : jsstring) (c : char) :
  is_space c = false ->
  trimStart (s ++ c :: t) = trimStart s ++ c :: t \/
  (trimStart s = [] /\ trimStart (s ++ c :: t) = c :: t).
Proof.
  intros Hc. induction s as [|d s IH]; simpl.
  - right. now rewrite Hc.
  - destruct (is_space d); [exact IH|]. now left.
Qed.

Lemma trimStart_all_space (s : jsstring) :
  trimStart s = [] <-> forallb is_space s = true.
Proof.
  induction s as [|c s IH]; simpl; [tauto|].
  destruct (is_space c); simpl; [exact IH|]. split; discriminate.
Qed.

Lemma trimEnd_length (s : jsstring) : length (trimEnd s) <= length s.
Proof.
  unfold trimEnd. rewrite length_rev.
  etransitivity; [apply trimStart_length|]. now rewrite length_rev.
Qed.

Lemma trim_length (s : jsstring) : length (trim s) <= length s.
Proof.
  unfold trim. etransitivity; [apply trimEnd_length|]. apply trimStart_length.
Qed.

Lemma trimEnd_idem (s : jsstring) : trimEnd (trimEnd s) = trimEnd s.
Proof.
  unfold trimEnd. now rewrite rev_involutive, trimStart_idem.
Qed.

(** [trimEnd] keeps the first character of a string that starts with a
    character that is no space. *)
Lemma trimEnd_cons_nonspace (c : char) (s : jsstring) :
  is_space c = false -> exists s', trimEnd (c :: s) = c :: s'.
Proof.
  intros Hc. unfold trimEnd. simpl rev.
  destruct (trimStart_app_nonspace (rev s) [] c Hc) as [E | [_ E]];
    rewrite E.
  - rewrite rev_app_distr. simpl. eauto.
  - simpl. eauto.
Qed.

Lemma trimStart_fix (s : jsstring) :
  match s with [] => True | c :: _ => is_space c = false end ->
  trimStart s = s.
Proof. destruct s as [|c s]; simpl; [easy|]. now intros ->. Qed.

Lemma trimStart_head (s : jsstring) :
  match trimStart s with [] => True | c :: _ => is_space c = false end.
Proof.
  induction s as [|c s IH]; simpl; [exact I|].
  destruct (is_space c) eqn:E; [exact IH|exact E].
Qed.

Lemma trim_head (s : jsstring) :
  match trim s with [] => True | c :: _ => is_space c = false end.
Proof.
  unfold trim. pose proof (trimStart_head s) as H.
  destruct (trimStart s) as [|c r]; [exact I|].
  destruct (trimEnd_cons_nonspace c r H) as [s' ->]. exact H.
Qed.

Lemma trim_idem (s : jsstring) : trim (trim s) = trim s.
Proof.
  unfold trim at 1. rewrite (trimStart_fix (trim s) (trim_head s)).
  unfold trim. apply trimEnd_idem.
Qed.

End JsFacts.

(* ------------------------------------------------------------------ *)
(** * Facts about integers as JavaScript numbers *)

Module JsNumberFacts.
Import JsNumber.

(** Up to 2^53 in magnitude every integer is a number. *)
Lemma round_exact (n : Z) : (Z.abs n <= two53)%Z -> round n = n.
Proof.
  intros H. unfold round.
  destruct (Z.ltb_spec (Z.abs n) two53) as [L|L]; [reflexivity|].
  assert (E : n = two53 \/ n = (- two53)%Z) by lia.
  destruct E as [-> | ->]; vm_compute; reflexivity.
Qed.

(** Below 2^53 in magnitude, adding 1 to a decoded integer is exact. *)
Lemma add_one_exact (n : Z) :
  (Z.abs n < two53)%Z -> add (round n) 1 = (n + 1)%Z.
Proof.
  intros H. unfold add. rewrite (round_exact n) by lia.
  apply round_exact. lia.
Qed.

(** At 2^53 it is not: 2^53 + 1 is no number, and the sum is 2^53 again. *)
Lemma add_one_at_two53 : add (round two53) 1 = two53.
Proof. vm_compute. reflexivity. Qed.

End JsNumberFacts.

(* ------------------------------------------------------------------ *)
(** * Facts about the receipt extractor *)

Module ReceiptFacts.
Import Js Json Receipt JsFacts.

Lemma strip_prefix_length (p s r : jsstring) :
  strip_prefix p s = Some r -> length s = length p + length r.
Proof.
  revert s; induction p as [|a p IH]; intros [|b s]; simpl; intros H;
    try discriminate; try (injection H as <-; reflexivity).
  destruct (a =? b)%N; [|discriminate]. now rewrite (IH _ H).
Qed.

Lemma find_close_length (s g post : jsstring) :
  find_close s = Some (g, post) ->
  length post + 4 <= length s /\ 1 <= length g.
Proof.
  revert g post; induction s as [|c s IH]; intros g post H;
    [discriminate|].
  cbn [find_close] in H.
  destruct (if (c =? rbrace)%N then strip_prefix fence_close (skip_ws s)
            else None) as [p|] eqn:E.
  - injection H as <- <-.
    destruct (c =? rbrace)%N; [|discriminate].
    apply strip_prefix_length in E. pose proof (trimStart_length s) as L.
    unfold skip_ws in E. simpl in *. lia.
  - destruct (find_close s) as [[g' post']|]; [|discriminate].
    injection H as <- <-. destruct (IH _ _ eq_refl). simpl. lia.
Qed.

Lemma match_at_length (s g post : jsstring) :
  match_at s = Some (g, post) -> length post + 12 <= length s.
Proof.
  unfold match_at. intros H.
  destruct (strip_prefix fence_open s) as [r1|] eqn:E1; [|discriminate].
  destruct (skip_ws r1) as [|c r2] eqn:E2; [discriminate|].
  destruct (c =? lbrace)%N; [|discriminate].
  destruct (find_close r2) as [[g' post']|] eqn:E3; [|discriminate].
  injection H as <- <-.
  apply strip_prefix_length in E1. apply find_close_length in E3.
  pose proof (trimStart_length r1) as L. unfold skip_ws in E2.
  rewrite E2 in L. simpl in *. lia.
Qed.

(** A match takes at least the twelve characters of "```json{}```" away. *)
Lemma regex_exec_length (s pre g post : jsstring) :
  RECEIPT_REGEX_exec s = Some (pre, g, post) ->
  length pre + length post + 12 <= length s.
Proof.
  revert pre g post; induction s as [|c s IH]; intros pre g post H.
  - simpl in H. discriminate.
  - cbn [RECEIPT_REGEX_exec] in H.
    destruct (match_at (c :: s)) as [[g' post']|] eqn:E.
    + injection H as <- <- <-. apply match_at_length in E. simpl in *. lia.
    + destruct (RECEIPT_REGEX_exec s) as [[[pre' g'] post']|]; [|discriminate].
      injection H as <- <- <-. specialize (IH _ _ _ eq_refl). simpl. lia.
Qed.

Lemma replace_first_no_match (s : jsstring) :
  RECEIPT_REGEX_exec s = None -> replace_first s = s.
Proof. unfold replace_first. now intros ->. Qed.

Lemma replace_first_shorter (s : jsstring) :
  RECEIPT_REGEX_exec s <> None -> length (replace_first s) < length s.
Proof.
  unfold replace_first.
  destruct (RECEIPT_REGEX_exec s) as [[[pre g] post]|] eqn:E.
  - intros _. apply regex_exec_length in E. rewrite length_app. lia.
  - congruence.
Qed.

Lemma stripReceiptBlock_trimmed (t : jsstring) :
  trim (stripReceiptBlock t) = stripReceiptBlock t.
Proof. apply trim_idem. Qed.

Lemma stripReceiptBlock_fixpoint (s : jsstring) :
  RECEIPT_REGEX_exec s = None -> trim s = s -> stripReceiptBlock s = s.
Proof.
  intros H T. unfold stripReceiptBlock.
  now rewrite (replace_first_no_match s H).
Qed.

Lemma parseReceipt_no_match (JSON_parse : jsstring -> option json)
  (s : jsstring) :
  RECEIPT_REGEX_exec s = None -> parseReceipt_run JSON_parse s = Normal None.
Proof. unfold parseReceipt_run. now intros ->. Qed.

Lemma parseReceipt_run_total (JSON_parse : jsstring -> option json)
  (s : jsstring) :
  parseReceipt_run JSON_parse s <> Throw.
Proof.
  unfold parseReceipt_run.
  destruct (RECEIPT_REGEX_exec s) as [[[pre g] post]|]; [|discriminate].
  destruct (parseReceipt_try JSON_parse g); discriminate.
Qed.

(** The type test of [parseReceipt] on a parsed value. *)
Definition recognized_type (data : json) : bool :=
  match get data (lit "type") with
  | Normal ty =>
      is_string ty (lit "order_complete") || is_string ty (lit "order_update")
  | Throw => false
  end.

(** The three ways a text carries no receipt: no fenced block; a block whose
    content [JSON.parse] rejects; a block that parses to a value whose
    [type] is neither [order_complete] nor [order_update]. *)
Inductive no_receipt (JSON_parse : jsstring -> option json)
  (text : jsstring) : Prop :=
| NoBlock :
    RECEIPT_REGEX_exec text = None -> no_receipt JSON_parse text
| BadJson pre g post :
    RECEIPT_REGEX_exec text = Some (pre, g, post) -> JSON_parse g = None ->
    no_receipt JSON_parse text
| OtherType pre g post data :
    RECEIPT_REGEX_exec text = Some (pre, g, post) -> JSON_parse g = Some data ->
    recognized_type data = false ->
    no_receipt JSON_parse text.

(** A second application of [stripReceiptBlock] changes its argument
    exactly when a fenced block is left in it. *)
Lemma stripReceiptBlock_again (t : jsstring) :
  stripReceiptBlock (stripReceiptBlock t) = stripReceiptBlock t <->
  RECEIPT_REGEX_exec (stripReceiptBlock t) = None.
Proof.
  split.
  - intros E.
    destruct (RECEIPT_REGEX_exec (stripReceiptBlock t)) eqn:M; [|easy].
    exfalso.
    assert (L : length (replace_first (stripReceiptBlock t))
                < length (stripReceiptBlock t))
      by (apply replace_first_shorter; congruence).
    pose proof (trim_length (replace_first (stripReceiptBlock t))) as L'.
    unfold stripReceiptBlock at 1 in E. rewrite E in L'. lia.
  - intros M. apply stripReceiptBlock_fixpoint; [exact M|].
    apply stripReceiptBlock_trimmed.
Qed.

End ReceiptFacts.

(* ------------------------------------------------------------------ *)
(** * Facts about the playback adapter *)

Module TtsFacts.
Import Tts.

Lemma stop_state (s : state) :
  fst (stop s) =
  mkState false None None
          (match abortControllerRef s with
           | Some c => c :: aborted s
           | None => aborted s
           end)
          (sessions s) (endTimers s) (next s).
Proof. unfold stop. now destruct (abortControllerRef s). Qed.

Lemma stop_out (s : state) :
  snd (stop s) =
  match abortControllerRef s with Some c => [DoAbort c] | None => [] end
  ++ match audioRef s with Some a => [DoPause a] | None => [] end.
Proof. unfold stop. now destruct (abortControllerRef s). Qed.

Lemma stop_stopped (s : state) : stop (fst (stop s)) = (fst (stop s), []).
Proof. rewrite stop_state. reflexivity. Qed.

Lemma stop_silent (s : state) : ~ In CallOnEnd (snd (stop s)).
Proof.
  rewrite stop_out. intros H. apply in_app_or in H.
  destruct (abortControllerRef s), (audioRef s), H as [H|H];
    simpl in H; intuition discriminate.
Qed.

Lemma stop_no_resolve (s : state) (c : call_id) :
  ~ In (Resolved c) (snd (stop s)).
Proof.
  rewrite stop_out. intros H. apply in_app_or in H.
  destruct (abortControllerRef s), (audioRef s), H as [H|H];
    simpl in H; intuition discriminate.
Qed.

Lemma stop_aborts (s : state) (c : call_id) :
  abortControllerRef s = Some c -> is_aborted (fst (stop s)) c = true.
Proof.
  intros H. rewrite stop_state, H. unfold is_aborted. simpl.
  now rewrite Nat.eqb_refl.
Qed.

Lemma speak_silent (text : Js.jsstring) (s : state) :
  ~ In CallOnEnd (snd (speak text s)).
Proof.
  unfold speak. pose proof (stop_silent s) as H.
  destruct (stop s) as [s1 o1]. simpl in H.
  destruct (Js.truthy (Js.trim text)); simpl; intros I;
    apply in_app_or in I; destruct I as [I|I]; try contradiction;
    simpl in I; intuition discriminate.
Qed.

Lemma resolve_playback_out (c : call_id) (s : state) :
  snd (resolve_playback c s) = [] \/
  snd (resolve_playback c s) = [CallOnEnd; Resolved c].
Proof.
  unfold resolve_playback.
  destruct (phase_of (sessions s) c) as [[]|]; simpl; auto.
Qed.

(** [onEnd] is called on natural completion and on soft failures only. *)
Lemma onEnd_completes (s : state) (e : event) :
  In CallOnEnd (snd (step s e)) -> completes e = true.
Proof.
  destruct e as [|text|c r|c r|c|c|c|c]; simpl; intros H;
    try reflexivity.
  - now apply stop_silent in H.
  - exfalso. apply (speak_silent text s).
    destruct (speak text s) as [[k s'] o]. exact H.
  - destruct (phase_of (sessions s) c) as [[]|]; simpl in H;
      try contradiction.
    destruct (is_aborted s c); simpl in H; [intuition discriminate|].
    destruct r; simpl in H; intuition discriminate.
  - destruct (phase_of (sessions s) c) as [[]|]; simpl in H;
      try contradiction.
    destruct (is_aborted s c); simpl in H; [intuition discriminate|].
    destruct r; simpl in H; intuition discriminate.
  - destruct (phase_of (sessions s) c) as [[]|]; simpl in H;
      intuition discriminate.
Qed.

(** Once its controller is aborted, an invocation of [speak] that waits for
    the fetch, for the body or for the trailing buffer returns without
    calling [onEnd]. *)
Lemma aborted_silent (s : state) (c : call_id) :
  is_aborted s c = true ->
  (forall r, ~ In CallOnEnd (snd (step s (FetchSettled c r)))) /\
  (forall r, ~ In CallOnEnd (snd (step s (BlobSettled c r)))) /\
  ~ In CallOnEnd (snd (step s (EndTimer c))).
Proof.
  intros A. split; [|split].
  - intros r. simpl.
    destruct (phase_of (sessions s) c) as [[]|]; simpl; auto.
    rewrite A. simpl. intuition discriminate.
  - intros r. simpl.
    destruct (phase_of (sessions s) c) as [[]|]; simpl; auto.
    rewrite A. simpl. intuition discriminate.
  - simpl. destruct (existsb (Nat.eqb c) (endTimers s)); simpl; auto.
    unfold is_aborted in *. simpl. rewrite A. simpl. auto.
Qed.

End TtsFacts.

(* ------------------------------------------------------------------ *)
(** * Facts about the persistence gateway *)

Module OrderFacts.
Import Js Json OrderService.

(** The order [o] with another total. *)
Definition with_total (o : Order) (total : number) : Order :=
  mkOrder (o_id o) (o_order_number o) (o_customer_name o) (o_status o)
          total (o_created_at o) (o_started_at o) (o_completed_at o).

Lemma with_ids_rows (k : uuid) (rows : list NewOrderItem) :
  map i_row (with_ids k rows) = rows.
Proof.
  revert k; induction rows as [|r rows IH]; intros k; simpl;
    [reflexivity|]. now rewrite IH.
Qed.

Lemma toItemRows_order_id (orderId : uuid) (items : list ReceiptItem) :
  Forall (fun r => n_order_id r = orderId) (toItemRows orderId items).
Proof.
  unfold toItemRows. induction items as [|i items IH]; simpl;
    constructor; [reflexivity|exact IH].
Qed.

Lemma filter_all {A} (p : A -> bool) (l : list A) :
  Forall (fun a => p a = true) l -> filter p l = l.
Proof.
  induction 1 as [|a l H _ IH]; simpl; [reflexivity|].
  now rewrite H, IH.
Qed.

Lemma filter_none {A} (p : A -> bool) (l : list A) :
  Forall (fun a => p a = false) l -> filter p l = [].
Proof.
  induction 1 as [|a l H _ IH]; simpl; [reflexivity|].
  now rewrite H, IH.
Qed.

Lemma filter_after_delete (orderId other : uuid) (l : list OrderItem) :
  filter (fun i => (n_order_id (i_row i) =? other)%N)
         (filter (fun i => negb (n_order_id (i_row i) =? orderId)%N) l)
  = if (other =? orderId)%N then []
    else filter (fun i => (n_order_id (i_row i) =? other)%N) l.
Proof.
  induction l as [|i l IH]; simpl.
  - now destruct (other =? orderId)%N.
  - destruct (N.eqb_spec (n_order_id (i_row i)) orderId) as [E|E]; simpl.
    + rewrite IH. destruct (N.eqb_spec other orderId) as [E'|E'];
        [reflexivity|].
      destruct (N.eqb_spec (n_order_id (i_row i)) other); [congruence|].
      reflexivity.
    + rewrite IH. destruct (N.eqb_spec other orderId) as [E'|E'].
      * subst other. apply N.eqb_neq in E. now rewrite E.
      * reflexivity.
Qed.

Lemma with_ids_order_id (k orderId : uuid) (rows : list NewOrderItem) :
  Forall (fun r => n_order_id r = orderId) rows ->
  Forall (fun i => n_order_id (i_row i) = orderId) (with_ids k rows).
Proof.
  intros H; revert k; induction H as [|r rows E _ IH]; intros k; simpl;
    constructor; [exact E|apply IH].
Qed.

Lemma find_update_total (l : list Order) (orderId : uuid) (total : number)
  (o : Order) :
  find (fun o => (o_id o =? orderId)%N) l = Some o ->
  find (fun o => (o_id o =? orderId)%N)
       (map (fun o => if (o_id o =? orderId)%N then with_total o total
                      else o) l)
  = Some (with_total o total).
Proof.
  induction l as [|a l IH]; simpl; [discriminate|].
  destruct (o_id a =? orderId)%N eqn:E; simpl.
  - rewrite E. now intros [= ->].
  - rewrite E. exact IH.
Qed.

(** The state of the store after a call of [updateOrder] in which no
    request fails. *)
Lemma updateOrder_no_faults (orderId : uuid) (items : list ReceiptItem)
  (newTotal : number) (d : db) :
  updateOrder no_faults orderId items newTotal d =
  (mkDb (map (fun o => if (o_id o =? orderId)%N then with_total o newTotal
                       else o) (orders d))
        (filter (fun i => negb (n_order_id (i_row i) =? orderId)%N)
                (order_items d)
         ++ with_ids (next_uuid d) (toItemRows orderId items))
        (next_uuid d + N.of_nat (length (toItemRows orderId items)))%N
        (clock d),
   Ok tt).
Proof. reflexivity. Qed.

(** The state of the store after a call of [saveOrder] in which no request
    fails. *)
Lemma saveOrder_no_faults (receipt : OrderReceipt) (d : db) :
  let number :=
    JsNumber.add (match latest_order_number (orders d) with
                  | Some n => JsNumber.round n
                  | None => 0%Z
                  end) 1 in
  let order :=
    mkOrder (next_uuid d) number (r_customer_name receipt) status_new
            (r_total_price receipt) (clock d) None None in
  let items :=
    with_ids (N.succ (next_uuid d))
             (toItemRows (next_uuid d) (r_items receipt)) in
  saveOrder no_faults receipt d =
  (mkDb (orders d ++ [order]) (order_items d ++ items)
        (N.succ (next_uuid d)
         + N.of_nat (length (toItemRows (next_uuid d) (r_items receipt))))%N
        (clock d),
   Ok (order, items)).
Proof. reflexivity. Qed.

Lemma str_field_lookup (ms : list (jsstring * json)) (k s : jsstring) :
  str_field ms k = Some s -> lookup k ms = Some (JStr s).
Proof.
  unfold str_field. destruct (lookup k ms) as [[]|]; try discriminate.
  now intros [= ->].
Qed.

Lemma num_field_lookup (ms : list (jsstring * json)) (k : jsstring)
  (q : number) :
  num_field ms k = Some q -> lookup k ms = Some (JNum q).
Proof.
  unfold num_field. destruct (lookup k ms) as [[]|]; try discriminate.
  now intros [= ->].
Qed.

(** What [asOrderReceipt] read is what the parsed value holds. *)
Lemma asOrderReceipt_fields (data : json) (r : OrderReceipt) :
  asOrderReceipt data = Some r ->
  exists ms items,
    data = JObj ms /\
    lookup (lit "total_price") ms = Some (JNum (r_total_price r)) /\
    lookup (lit "items") ms = Some (JArr items) /\
    all_some asReceiptItem items = Some (r_items r) /\
    lookup (lit "type") ms =
      Some (JStr (match r_type r with
                  | order_complete => lit "order_complete"
                  | order_update => lit "order_update"
                  end)).
Proof.
  destruct data as [| | | | |ms]; try discriminate. cbn [asOrderReceipt].
  destruct (str_field ms (lit "type")) as [ty|] eqn:T; [|discriminate].
  apply str_field_lookup in T.
  set (name := match lookup (lit "customer_name") ms with
               | None | Some JNull => Some None
               | Some (JStr s) => Some (Some s)
               | Some _ => None
               end).
  destruct (num_field ms (lit "total_price")) as [total|] eqn:P.
  2:{ destruct (if Js.eqb ty (lit "order_complete") then _ else _);
        [|discriminate].
      destruct name; [|discriminate].
      destruct (lookup (lit "items") ms) as [[]|]; discriminate. }
  apply num_field_lookup in P.
  destruct (lookup (lit "items") ms) as [items|] eqn:I.
  2:{ destruct (if Js.eqb ty (lit "order_complete") then _ else _);
        [|discriminate]. destruct name; discriminate. }
  assert (TY : forall ty', (if Js.eqb ty (lit "order_complete")
                            then Some order_complete
                            else if Js.eqb ty (lit "order_update")
                                 then Some order_update else None)
                           = Some ty' ->
               ty = match ty' with
                    | order_complete => lit "order_complete"
                    | order_update => lit "order_update"
                    end).
  { intros ty'. destruct (JsFacts.eqb_spec ty (lit "order_complete")) as [E|_].
    - now intros [= <-].
    - destruct (JsFacts.eqb_spec ty (lit "order_update")) as [E|_].
      + now intros [= <-].
      + discriminate. }
  destruct (if Js.eqb ty (lit "order_complete") then _ else _) as [ty'|];
    [|discriminate].
  specialize (TY ty' eq_refl).
  destruct name as [name'|]; [|discriminate].
  destruct items as [| | | |items|]; try discriminate.
  destruct (all_some asReceiptItem items) as [items'|] eqn:A;
    [|discriminate].
  intros [= <-]. simpl. exists ms, items. subst ty. auto.
Qed.

End OrderFacts.

(* ------------------------------------------------------------------ *)
(** * Facts about the gateway on the values it receives *)

Module OrderJsFacts.
Import Js Json OrderServiceJs.
Import OrderService (faults, fail_1, fail_2, fail_3).

(** The order [o] with the total of a request that sent [newTotal]. *)
Definition with_sent_total (o : OrderRow) (newTotal : value) : OrderRow :=
  match newTotal with
  | None => o
  | Some v =>
      mkOrderRow (j_id o) (j_order_number o) (j_customer_name o)
                 (j_status o) (Some v) (j_created_at o)
  end.

Lemma find_update_sent_total (d : store) (orderId : uuid)
  (newTotal : value) (o : OrderRow) :
  find_order d orderId = Some o ->
  find_order (update_total d orderId newTotal) orderId
  = Some (with_sent_total o newTotal).
Proof.
  unfold find_order, update_total, with_sent_total.
  destruct newTotal as [v|]; [|easy]. cbn [orders].
  induction (orders d) as [|a l IH]; cbn; [discriminate|].
  destruct (j_id a =? orderId)%N eqn:E; cbn.
  - rewrite E. now intros [= ->].
  - rewrite E. exact IH.
Qed.

(** Whatever the receipt holds besides, once the insert of the order row
    succeeds the store has that row, with the [total_price] of the
    receipt, and nothing that follows takes it back. *)
Lemma saveOrder_inserts (f : faults) (ms : list (jsstring * json))
  (d : store) :
  fail_2 f = false ->
  exists d' res order,
    saveOrder f (JObj ms) d = (d', res) /\
    orders d' = orders d ++ [order] /\
    j_id order = next_uuid d /\
    j_total_price order = lookup (lit "total_price") ms /\
    j_customer_name order = or_null (lookup (lit "customer_name") ms).
Proof.
  intros F2. unfold saveOrder. cbn [get]. rewrite F2.
  cbn [insert_order j_id].
  destruct (bind (Normal (lookup (lit "items") ms))
                 (toItemRows (next_uuid d))) as [rows|].
  - destruct (fail_3 f); eexists _, _, _; (split; [reflexivity|]);
      cbn; auto.
  - eexists _, _, _. split; [reflexivity|]. cbn. auto.
Qed.

(** Once the first request of [updateOrder] succeeds the order has the
    total that was sent, whatever becomes of the items. *)
Lemma updateOrder_total (f : faults) (orderId : uuid)
  (items newTotal : value) (d : store) (o : OrderRow) :
  fail_1 f = false ->
  find_order d orderId = Some o ->
  exists d' res,
    updateOrder f orderId items newTotal d = (d', res) /\
    find_order d' orderId = Some (with_sent_total o newTotal).
Proof.
  intros F1 Fo. unfold updateOrder. rewrite F1.
  pose proof (find_update_sent_total d orderId newTotal o Fo) as H.
  destruct (fail_2 f); [eexists _, _; split; [reflexivity|exact H]|].
  destruct (toItemRows orderId items) as [rows|];
    [destruct (fail_3 f)|]; eexists _, _; (split; [reflexivity|]);
    exact H.
Qed.

(** ** The two readings of the gateway

    On a receipt that has the declared shape, and on stores with the same
    order numbers, [saveOrder] on the parsed value and [saveOrder] on the
    typed receipt insert an order row with the same number and the same
    total. *)
Lemma latest_order_number_numbers (lt : list OrderService.Order)
  (l : list OrderRow) :
  map OrderService.o_order_number lt = map j_order_number l ->
  OrderService.latest_order_number lt = latest_order_number l.
Proof.
  revert l. induction lt as [|o lt IH]; intros [|o' l] E;
    try discriminate; [reflexivity|].
  cbn [map] in E. injection E as E1 E2.
  cbn [OrderService.latest_order_number latest_order_number].
  now rewrite (IH l E2), E1.
Qed.

Lemma saveOrder_typed_agrees (f : faults) (data : json)
  (r : OrderService.OrderReceipt) (dt : OrderService.db) (d : store) :
  OrderService.asOrderReceipt data = Some r ->
  fail_2 f = false ->
  map OrderService.o_order_number (OrderService.orders dt)
    = map j_order_number (orders d) ->
  exists dt' rt ot d' res order,
    OrderService.saveOrder f r dt = (dt', rt) /\
    OrderService.orders dt' = OrderService.orders dt ++ [ot] /\
    saveOrder f data d = (d', res) /\
    orders d' = orders d ++ [order] /\
    j_order_number order = OrderService.o_order_number ot /\
    j_total_price order = Some (JNum (OrderService.o_total_price ot)).
Proof.
  intros AR F2 E.
  destruct (OrderFacts.asOrderReceipt_fields data r AR)
    as (ms & items & -> & Tot & _).
  unfold OrderService.saveOrder, saveOrder. cbn [get]. rewrite F2, Tot.
  rewrite (latest_order_number_numbers _ _ E).
  cbn [OrderService.insert_order insert_order j_id OrderService.o_id].
  destruct (bind (Normal (lookup (lit "items") ms))
                 (toItemRows (next_uuid d))) as [rows|];
    destruct (fail_3 f); eexists _, _, _, _, _, _;
    repeat (split; [reflexivity|]); reflexivity.
Qed.

End OrderJsFacts.

(* ------------------------------------------------------------------ *)
(** * Reasoning about handlers *)

Module ChatFacts.
Import Js Json Receipt Chat.

(** The three components of the result of a handler. *)
Definition val {A} (r : A * state * list call) : A := fst (fst r).
Definition st {A} (r : A * state * list call) : state := snd (fst r).
Definition lg {A} (r : A * state * list call) : list call := snd r.

Lemma bind_val {A B} (m : M A) (k : A -> M B) (s : state) :
  val (bind m k s) = val (k (val (m s)) (st (m s))).
Proof.
  unfold bind, val, st. destruct (m s) as [[a s1] l1]. simpl.
  now destruct (k a s1) as [[b s2] l2].
Qed.

Lemma bind_st {A B} (m : M A) (k : A -> M B) (s : state) :
  st (bind m k s) = st (k (val (m s)) (st (m s))).
Proof.
  unfold bind, val, st. destruct (m s) as [[a s1] l1]. simpl.
  now destruct (k a s1) as [[b s2] l2].
Qed.

Lemma bind_lg {A B} (m : M A) (k : A -> M B) (s : state) :
  lg (bind m k s) = lg (m s) ++ lg (k (val (m s)) (st (m s))).
Proof.
  unfold bind, val, st, lg. destruct (m s) as [[a s1] l1]. simpl.
  now destruct (k a s1) as [[b s2] l2].
Qed.

Lemma step_eq (JSON_parse : jsstring -> option json) (s : state)
  (e : event) :
  step JSON_parse s e
  = (st (handle JSON_parse e s), lg (handle JSON_parse e s)).
Proof.
  unfold step, st, lg. now destruct (handle JSON_parse e s) as [[a s'] l].
Qed.

Lemma run_cons (JSON_parse : jsstring -> option json) (s : state)
  (e : event) (es : list event) :
  run JSON_parse s (e :: es) =
  (fst (run JSON_parse (fst (step JSON_parse s e)) es),
   snd (step JSON_parse s e)
   ++ snd (run JSON_parse (fst (step JSON_parse s e)) es)).
Proof.
  cbn [run]. destruct (step JSON_parse s e) as [s1 l1]. simpl.
  now destruct (run JSON_parse s1 es) as [s2 l2].
Qed.

Lemma run_app (JSON_parse : jsstring -> option json) (s : state)
  (es es' : list event) :
  run JSON_parse s (es ++ es') =
  (fst (run JSON_parse (fst (run JSON_parse s es)) es'),
   snd (run JSON_parse s es)
   ++ snd (run JSON_parse (fst (run JSON_parse s es)) es')).
Proof.
  revert s; induction es as [|e es IH]; intros s.
  - simpl. now destruct (run JSON_parse s es').
  - rewrite <- app_comm_cons, !run_cons, IH. simpl. now rewrite app_assoc.
Qed.

(** ** Handlers that keep an invariant and make only allowed calls *)

Section Keeps.

Variable I : state -> Prop.
Variable G : call -> bool.

Definition holds {A} (m : M A) (s : state) : Prop :=
  I (st (m s)) /\ forallb G (lg (m s)) = true.

Definition keeps {A} (m : M A) : Prop := forall s, I s -> holds m s.

Lemma keeps_ret {A} (a : A) : keeps (ret a).
Proof. intros s H. now split. Qed.

Lemma keeps_gets {A} (f : state -> A) : keeps (gets f).
Proof. intros s H. now split. Qed.

Lemma keeps_modify (f : state -> state) :
  (forall s, I s -> I (f s)) -> keeps (modify f).
Proof. intros F s H. split; [now apply F|reflexivity]. Qed.

Lemma keeps_emit (c : call) : G c = true -> keeps (emit c).
Proof. intros E s H. split; [exact H|]. simpl. now rewrite E. Qed.

Lemma holds_bind {A B} (m : M A) (k : A -> M B) (s : state) :
  holds m s ->
  (I (st (m s)) -> holds (k (val (m s))) (st (m s))) ->
  holds (bind m k) s.
Proof.
  intros [H1 L1] H2. destruct (H2 H1) as [H3 L3]. split.
  - now rewrite bind_st.
  - rewrite bind_lg, forallb_app, L1. exact L3.
Qed.

Lemma keeps_bind {A B} (m : M A) (k : A -> M B) :
  keeps m -> (forall a, keeps (k a)) -> keeps (bind m k).
Proof.
  intros Hm Hk s H. apply holds_bind; [now apply Hm|].
  intros H'. now apply Hk.
Qed.

(** The continuation of a read may rely on what was read. *)
Lemma keeps_bind_gets {A B} (f : state -> A) (k : A -> M B) :
  (forall s, I s -> holds (k (f s)) s) -> keeps (bind (gets f) k).
Proof.
  intros Hk s H. apply holds_bind; [now apply keeps_gets|].
  intros _. now apply Hk.
Qed.

Lemma keeps_when (b : bool) (m : M unit) : keeps m -> keeps (when b m).
Proof. intros H. destruct b; [exact H|apply keeps_ret]. Qed.

Lemma keeps_each {A} (f : A -> M unit) (l : list A) :
  (forall a, keeps (f a)) -> keeps (each f l).
Proof.
  intros H. induction l as [|a l IH]; simpl.
  - apply keeps_ret.
  - apply keeps_bind; [apply H|intros _; exact IH].
Qed.

Lemma keeps_with_tts {A}
  (f : Tts.state -> A * Tts.state * list Tts.out) :
  (forall t s, I s -> I (set_tts t s)) -> keeps (with_tts f).
Proof.
  intros F s H. unfold holds, with_tts, st, lg.
  destruct (f (tts s)) as [[a t] o]. simpl. split; [now apply F|reflexivity].
Qed.

Lemma keeps_with_speech
  (f : Speech.state -> Speech.state * list Speech.out) :
  (forall r s, I s -> I (set_speech r s)) -> keeps (with_speech f).
Proof.
  intros F s H. unfold holds, with_speech, st, lg.
  destruct (f (speech s)) as [r o]. simpl. split; [now apply F|reflexivity].
Qed.

(** A run of events whose handlers keep the invariant. *)
Lemma keeps_run (JSON_parse : jsstring -> option json)
  (ok : event -> Prop) :
  (forall e, ok e -> keeps (handle JSON_parse e)) ->
  forall es s, Forall ok es -> I s ->
    I (fst (run JSON_parse s es))
    /\ forallb G (snd (run JSON_parse s es)) = true.
Proof.
  intros H es. induction es as [|e es IH]; intros s F Hs.
  - now split.
  - inversion F as [|e' es' Oe Oes]; subst.
    rewrite run_cons, step_eq. cbn [fst snd].
    destruct (H e Oe s Hs) as [H1 L1].
    destruct (IH _ Oes H1) as [H2 L2].
    split; [exact H2|]. now rewrite forallb_app, L1, L2.
Qed.

End Keeps.

(** The head symbol of a handler. *)
Ltac head_of t :=
  lazymatch t with
  | ?f _ => head_of f
  | _ => t
  end.

(** [keeps_go known frame] proves [keeps I G m] along the structure of [m]:
    [known] closes the handlers that have a lemma of their own, [frame]
    shows that a state update keeps the invariant. *)
Ltac keeps_go known frame :=
  repeat first
    [ solve [known]
    | apply keeps_ret
    | apply keeps_gets
    | apply keeps_emit; reflexivity
    | apply keeps_modify; solve [frame]
    | apply keeps_with_tts; solve [frame]
    | apply keeps_with_speech; solve [frame]
    | apply keeps_bind; [|intros ?]
    | apply keeps_when
    | apply keeps_each; intros ?
    | match goal with
      | |- keeps _ _ (match ?x with _ => _ end) => destruct x
      | |- keeps _ _ (let _ := _ in _) => cbv zeta
      | |- keeps _ _ ?m => let h := head_of m in progress unfold h
      end ].

End ChatFacts.

(* ------------------------------------------------------------------ *)
(** * After a completed order *)

Module OrderCompleteFacts.
Import Js Json Receipt Chat ChatFacts.

(** The receipt is shown: [orderCompleteRef.current] is true. *)
Definition completed (s : state) : Prop := orderCompleteRef s = true.

Definition not_activate (c : call) : bool := negb (is_activate c).

(** The two events by which the user reopens the order flow. *)
Definition reopens (e : event) : bool :=
  match e with
  | NewOrder _ | ModifyOrder _ _ _ => true
  | _ => false
  end.

Ltac frame_completed :=
  let s := fresh "s" in let H := fresh "H" in
  intros; first [eassumption | reflexivity].

Lemma onTtsEnd_completed : keeps completed not_activate onTtsEnd.
Proof.
  unfold onTtsEnd. apply keeps_bind_gets. intros s H.
  unfold completed in H. rewrite H. now split.
Qed.

Lemma finally_block_completed : keeps completed not_activate finally_block.
Proof.
  unfold finally_block.
  do 3 (apply keeps_bind;
        [apply keeps_modify; intros s H; exact H|intros _]).
  do 3 (apply keeps_bind; [apply keeps_gets|intros ?]).
  apply keeps_bind_gets. intros s H. unfold completed in H. rewrite H.
  rewrite !andb_false_r. now split.
Qed.

Lemma handle_completed (JSON_parse : jsstring -> option json) (e : event) :
  reopens e = false -> keeps completed not_activate (handle JSON_parse e).
Proof.
  intros R.
  destruct e; try discriminate R; cbn [handle];
    keeps_go ltac:(first [apply onTtsEnd_completed
                         |apply finally_block_completed])
             ltac:(frame_completed).
Qed.

End OrderCompleteFacts.

(* ------------------------------------------------------------------ *)
(** * The silence guard *)

Module SilenceGuardFacts.
Import Js Json Receipt Chat ChatFacts.

(** At most one silence-guard timeout is pending, and it is the one whose
    id [autoListenTimerRef] holds. *)
Definition timer_inv (s : state) : Prop :=
  match timers s with
  | [] => True
  | [t] => autoListenTimerRef s = Some t
  | _ :: _ :: _ => False
  end.

Definition any_call (c : call) : bool := true.

Definition reachable (JSON_parse : jsstring -> option json)
  (supported : bool) (s : state) : Prop :=
  exists now es, s = fst (run JSON_parse (init supported now) es).

Ltac frame_timer := intros; eassumption.

Lemma forallb_any (l : list call) : forallb any_call l = true.
Proof. now induction l. Qed.

Lemma clearAutoListenTimer_st (s : state) :
  timer_inv s ->
  timers (st (clearAutoListenTimer s)) = [] /\
  autoListenTimerRef (st (clearAutoListenTimer s)) = None /\
  nextTimer (st (clearAutoListenTimer s)) = nextTimer s /\
  speech (st (clearAutoListenTimer s)) = speech s.
Proof.
  unfold timer_inv, clearAutoListenTimer, bind, gets, st.
  destruct (autoListenTimerRef s) as [t|] eqn:R; cbn.
  - destruct (timers s) as [|t' [|t'' l]]; cbn; try tauto.
    intros [= ->]. now rewrite Nat.eqb_refl.
  - destruct (timers s) as [|t' [|t'' l]]; cbn; try tauto. discriminate.
Qed.

Lemma clearAutoListenTimer_timer :
  keeps timer_inv any_call clearAutoListenTimer.
Proof.
  intros s H. split; [|apply forallb_any].
  destruct (clearAutoListenTimer_st s H) as (T & _).
  unfold timer_inv. now rewrite T.
Qed.

Lemma startListening_frame (s : state) :
  timers (st (startListening s)) = timers s /\
  autoListenTimerRef (st (startListening s)) = autoListenTimerRef s /\
  nextTimer (st (startListening s)) = nextTimer s.
Proof.
  unfold startListening. rewrite bind_st.
  assert (E : forall l s', st (each (fun x => emit (CRec x)) l s') = s').
  { induction l as [|a l IH]; intros s'; simpl; [reflexivity|].
    rewrite bind_st. apply IH. }
  rewrite E. unfold with_speech, st.
  now destruct (Speech.startListening (speech s)).
Qed.

(** [activateMic] leaves exactly one timeout pending: the one of 5000 ms
    that it has just set. *)
Lemma activateMic_arms (s : state) :
  timer_inv s ->
  timers (st (activateMic s)) = [nextTimer s] /\
  autoListenTimerRef (st (activateMic s)) = Some (nextTimer s) /\
  In (CSetTimeout (nextTimer s) 5000) (lg (activateMic s)).
Proof.
  intros H. destruct (clearAutoListenTimer_st s H) as (T & R & N & _).
  unfold activateMic.
  rewrite !bind_st, !bind_lg. cbn [emit st lg val fst snd].
  set (s1 := st (clearAutoListenTimer s)) in *.
  destruct (startListening_frame s1) as (T2 & R2 & N2).
  set (s2 := st (startListening s1)) in *.
  cbn [gets modify emit st lg val fst snd bind].
  cbn. rewrite T2, T, N2, N. cbn. repeat split.
  right. apply in_or_app. right. apply in_or_app. right. cbn. auto.
Qed.

Lemma activateMic_timer : keeps timer_inv any_call activateMic.
Proof.
  intros s H. split; [|apply forallb_any].
  destruct (activateMic_arms s H) as (T & R & _).
  unfold timer_inv. now rewrite T.
Qed.

Lemma remove_timer_inv (t : timer_id) (s : state) :
  timer_inv s -> timer_inv (set_timers (remove_timer t (timers s)) s).
Proof.
  unfold timer_inv. cbn.
  destruct (timers s) as [|t' [|t'' l]]; cbn; try tauto.
  now destruct (Nat.eqb t t').
Qed.

Lemma onTimer_timer (t : timer_id) : keeps timer_inv any_call (onTimer t).
Proof.
  unfold onTimer.
  keeps_go ltac:(fail) ltac:(first [frame_timer
                                   |intros; now apply remove_timer_inv]).
Qed.

Lemma handle_timer (JSON_parse : jsstring -> option json) (e : event) :
  keeps timer_inv any_call (handle JSON_parse e).
Proof.
  destruct e; cbn [handle];
    keeps_go ltac:(first [apply clearAutoListenTimer_timer
                         |apply activateMic_timer
                         |apply onTimer_timer])
             ltac:(frame_timer).
Qed.

Lemma reachable_timer_inv (JSON_parse : jsstring -> option json)
  (supported : bool) (s : state) :
  reachable JSON_parse supported s -> timer_inv s.
Proof.
  intros (now & es & ->).
  apply (keeps_run timer_inv any_call JSON_parse (fun _ => True)).
  - intros e _. apply handle_timer.
  - now apply Forall_forall.
  - exact I.
Qed.

End SilenceGuardFacts.

(* ------------------------------------------------------------------ *)
(** * Speech started by a turn *)

Module SpeakFacts.
Import Js Json Receipt Chat ChatFacts JsFacts.

Definition not_speak (c : call) : bool := negb (is_speak c).

(** The handler leaves the table of turns in flight as it is. *)
Definition same_turns (T : list (turn_id * turn)) (s : state) : Prop :=
  turns s = T.

Ltac frame_turns := intros; eassumption.

Lemma count_speak_app (l l' : list call) :
  count_speak (l ++ l') = count_speak l + count_speak l'.
Proof. unfold count_speak. now rewrite filter_app, length_app. Qed.

Lemma not_speak_filter (l : list call) :
  forallb not_speak l = true -> filter is_speak l = [].
Proof.
  induction l as [|c l IH]; simpl; [reflexivity|].
  unfold not_speak at 1. destruct (is_speak c); simpl; [discriminate|].
  exact IH.
Qed.

(** A handler that starts no speech and leaves the turns alone. *)
Definition quiet {A} (m : M A) : Prop :=
  forall T, keeps (same_turns T) not_speak m.

Lemma quiet_spec {A} (m : M A) (s : state) :
  quiet m ->
  turns (st (m s)) = turns s /\ filter is_speak (lg (m s)) = [].
Proof.
  intros Q. destruct (Q (turns s) s eq_refl) as [H L].
  split; [exact H|now apply not_speak_filter].
Qed.

Ltac quiet_go known :=
  intros ?; keeps_go known ltac:(frame_turns).

Lemma clearAutoListenTimer_quiet : quiet clearAutoListenTimer.
Proof. quiet_go ltac:(fail). Qed.

Lemma startListening_quiet : quiet startListening.
Proof. quiet_go ltac:(fail). Qed.

Lemma stopListening_quiet : quiet stopListening.
Proof. quiet_go ltac:(fail). Qed.

Lemma activateMic_quiet : quiet activateMic.
Proof. quiet_go ltac:(fail). Qed.

Lemma tts_outs_quiet (os : list Tts.out) : quiet (each tts_out os).
Proof. quiet_go ltac:(fail). Qed.

Lemma catch_block_quiet (now : N) : quiet (catch_block now).
Proof. quiet_go ltac:(fail). Qed.

Lemma finally_block_quiet : quiet finally_block.
Proof. quiet_go ltac:(fail). Qed.

Lemma with_tts_spec {A} (f : Tts.state -> A * Tts.state * list Tts.out)
  (s : state) :
  turns (st (with_tts f s)) = turns s /\ lg (with_tts f s) = [].
Proof.
  unfold with_tts, st, lg. now destruct (f (tts s)) as [[a t] o].
Qed.

(** [speakMessage] is one speech-start call and leaves the turns alone. *)
Lemma speakMessage_spec (id : msgid) (text : jsstring) (s : state) :
  turns (st (speakMessage id text s)) = turns s /\
  filter is_speak (lg (speakMessage id text s)) = [CSpeak id text].
Proof.
  unfold speakMessage. rewrite !bind_st, !bind_lg.
  cbn [modify emit st lg val fst snd app].
  set (s1 := set_speakingMessageId (Some id) s).
  destruct (with_tts_spec (Tts.speak text) s1) as [T1 L1].
  set (r := with_tts (Tts.speak text) s1) in *.
  set (s2 := set_speakCalls (speakCalls (st r) ++ [(fst (val r), id)])
                            (st r)).
  destruct (quiet_spec (each tts_out (snd (val r))) s2
              (tts_outs_quiet (snd (val r)))) as [T L].
  split.
  - rewrite T. subst s2. cbn [turns set_speakCalls]. exact T1.
  - cbn [filter is_speak]. rewrite L1. cbn [app]. now rewrite L.
Qed.

(** ** The speech budget of a turn

    An invocation of [handleSend] may start speech once: early, which sets
    its [ttsStarted], or at its end, if [ttsStarted] is not set. *)
Definition budget (n : turn_id) (s : state) : nat :=
  match lookup_turn (turns s) n with
  | Some t => if ttsStarted t then 0 else 1
  | None => 0
  end.

(** The continuations of invocation [n] of [handleSend]. *)
Definition of_turn (n : turn_id) (e : event) : bool :=
  match e with
  | ChatResponse m _ _ | ReadChunk m _ _ | ReadDone m _ | ReadFailed m _
  | UpdateSettled m _ | SaveSettled m _ => Nat.eqb m n
  | _ => false
  end.

Definition spends {A} (n : turn_id) (m : M A) (s : state) : Prop :=
  count_speak (lg (m s)) + budget n (st (m s)) <= budget n s.

Lemma spends_bind {A B} (n : turn_id) (m : M A) (k : A -> M B)
  (s : state) :
  spends n m s -> spends n (k (val (m s))) (st (m s)) ->
  spends n (bind m k) s.
Proof.
  unfold spends. rewrite bind_st, bind_lg, count_speak_app. lia.
Qed.

Lemma spends_quiet {A} (n : turn_id) (m : M A) (s : state) :
  quiet m -> spends n m s.
Proof.
  intros Q. destruct (quiet_spec m s Q) as [T L].
  unfold spends, budget, count_speak. rewrite T, L. simpl. lia.
Qed.

Lemma lookup_store_turn (l : list (turn_id * turn)) (n : turn_id)
  (t t' : turn) :
  lookup_turn l n = Some t -> lookup_turn (store_turn l n t') n = Some t'.
Proof.
  induction l as [|[m u] l IH]; simpl; [discriminate|].
  destruct (Nat.eqb n m) eqn:E; simpl; rewrite E; [reflexivity|exact IH].
Qed.

Lemma lookup_drop_turn (l : list (turn_id * turn)) (n : turn_id) :
  lookup_turn (drop_turn l n) n = None.
Proof.
  induction l as [|[m u] l IH]; simpl; [reflexivity|].
  destruct (Nat.eqb n m) eqn:E; simpl; [exact IH|]. now rewrite E.
Qed.

(** The end of an invocation: at most the speech that [ttsStarted] still
    allows, and the invocation leaves the table. *)
Lemma finish_turn_spec (n : turn_id) (t : turn) (sid : msgid)
  (displayContent : jsstring) (s : state) :
  count_speak (lg (finish_turn n t sid displayContent s))
    <= (if ttsStarted t then 0 else 1) /\
  turns (st (finish_turn n t sid displayContent s)) = drop_turn (turns s) n.
Proof.
  unfold finish_turn. rewrite !bind_st, !bind_lg.
  cbn [gets st lg val fst snd app].
  set (b := negb (ttsStarted t) && voiceModeRef s && negb (isMutedRef s)
            && truthy (trim displayContent)).
  set (m := when b (speakMessage sid (trim displayContent))).
  assert (Hm : turns (st (m s)) = turns s /\
               count_speak (lg (m s)) <= if ttsStarted t then 0 else 1).
  { subst m. destruct b eqn:B; cbn [when].
    - destruct (speakMessage_spec sid (trim displayContent) s) as [T L].
      split; [exact T|]. unfold count_speak. rewrite L. simpl.
      subst b. destruct (ttsStarted t); [discriminate B|lia].
    - split; [reflexivity|]. unfold count_speak. simpl. lia. }
  destruct Hm as [Tm Lm].
  destruct (quiet_spec finally_block (st (m s)) finally_block_quiet)
    as [Tf Lf].
  rewrite !count_speak_app. unfold count_speak at 2. rewrite Lf.
  cbn [end_turn modify st lg val fst snd]. unfold count_speak at 2.
  cbn [turns set_turns filter length]. rewrite Tf, Tm.
  split; [simpl; lia|reflexivity].
Qed.

Lemma spends_finish_turn (n : turn_id) (t : turn) (sid : msgid)
  (displayContent : jsstring) (s : state) :
  lookup_turn (turns s) n = Some t ->
  spends n (finish_turn n t sid displayContent) s.
Proof.
  intros L. destruct (finish_turn_spec n t sid displayContent s) as [C T].
  unfold spends, budget. rewrite T, lookup_drop_turn, L. lia.
Qed.

Lemma spends_after_quiet {A B} (n : turn_id) (m : M A) (k : A -> M B)
  (s : state) :
  quiet m ->
  (forall a s', turns s' = turns s -> spends n (k a) s') ->
  spends n (bind m k) s.
Proof.
  intros Q K. apply spends_bind; [now apply spends_quiet|].
  assert (T : turns (st (m s)) = turns s) by now apply quiet_spec.
  exact (K (val (m s)) (st (m s)) T).
Qed.

Lemma spends_end_turn (n : turn_id) (s : state) : spends n (end_turn n) s.
Proof.
  unfold spends, budget, end_turn, modify, st, lg, count_speak.
  cbn. rewrite lookup_drop_turn. lia.
Qed.

Lemma spends_put_turn (n : turn_id) (t t' : turn) (s : state) :
  lookup_turn (turns s) n = Some t ->
  (ttsStarted t = true -> ttsStarted t' = true) ->
  spends n (put_turn n t') s.
Proof.
  intros L H. unfold spends, budget, put_turn, modify, st, lg, count_speak.
  cbn. rewrite (lookup_store_turn _ _ _ t' L), L.
  destruct (ttsStarted t), (ttsStarted t'); try lia.
  all: discriminate (H eq_refl).
Qed.

(** The early trigger: [ttsStarted] is set, then speech may start. *)
Lemma spends_early (n : turn_id) (t t' : turn) (sid : msgid)
  (text : jsstring) (b : bool) (s : state) :
  lookup_turn (turns s) n = Some t ->
  ttsStarted t = false -> ttsStarted t' = true ->
  spends n (put_turn n t' ;; when b (speakMessage sid text)) s.
Proof.
  intros L F S. unfold spends, budget. rewrite bind_st, bind_lg.
  unfold put_turn at 1 2 3. cbn [modify st lg val fst snd app].
  remember (set_turns (store_turn (turns s) n t') s) as s1 eqn:E1.
  assert (L1 : lookup_turn (turns s1) n = Some t')
    by (subst s1; cbn; now apply (lookup_store_turn _ _ _ t' L)).
  rewrite L, F.
  destruct b; cbn [when].
  - destruct (speakMessage_spec sid text s1) as [T C].
    unfold count_speak. rewrite C, T, L1, S. simpl. lia.
  - cbn [ret st lg fst snd]. rewrite L1, S. unfold count_speak. simpl. lia.
Qed.

Ltac quiet_prefix :=
  apply spends_after_quiet;
  [ solve [intros ?; keeps_go ltac:(fail) ltac:(frame_turns)]
  | let a := fresh "a" in let s' := fresh "s" in let T := fresh "T" in
    intros a s' T;
    match goal with
    | L : lookup_turn (turns _) _ = Some _ |- _ => rewrite <- T in L
    end ].

Lemma spends_abort (n : turn_id) (now : N) (s : state) :
  spends n (catch_block now ;; finally_block ;; end_turn n) s.
Proof.
  apply spends_after_quiet; [apply catch_block_quiet|intros _ s1 _].
  apply spends_after_quiet; [apply finally_block_quiet|intros _ s2 _].
  apply spends_end_turn.
Qed.

Lemma spends_onChatResponse (n : turn_id) (t : turn) (r : chat_response)
  (now : N) (s : state) :
  lookup_turn (turns s) n = Some t ->
  spends n (onChatResponse n t r now) s.
Proof.
  intros L. destruct r; cbn [onChatResponse]; try apply spends_abort.
  now apply (spends_put_turn n t).
Qed.

Lemma spends_onChunk (n : turn_id) (t : turn) (chunk : jsstring) (now : N)
  (s : state) :
  lookup_turn (turns s) n = Some t ->
  spends n (onChunk n t chunk now) s.
Proof.
  intros L. unfold onChunk.
  quiet_prefix. quiet_prefix. quiet_prefix.
  destruct (ttsStarted t) eqn:S; cbn [negb andb].
  - now apply (spends_put_turn n t).
  - match goal with
    | |- spends _ (if ?c then _ else _) _ => destruct c
    end.
    + now apply (spends_early n t).
    + apply (spends_put_turn n t); [assumption|]. cbn. congruence.
Qed.

Lemma spends_onDone (JSON_parse : jsstring -> option json) (n : turn_id)
  (t : turn) (now : N) (s : state) :
  lookup_turn (turns s) n = Some t ->
  spends n (onDone JSON_parse n t now) s.
Proof.
  intros L. unfold onDone. destruct (streamingId t) as [sid|].
  - quiet_prefix. quiet_prefix.
    destruct (parseReceipt JSON_parse (fullContent t)) as [data|];
      [|now apply spends_finish_turn].
    match goal with
    | |- spends _ (match ?c with true => _ | false => _ end) _ =>
        destruct c
    end;
    repeat match goal with
      | |- spends _ (match ?x with Some _ => _ | None => _ end) _ =>
          destruct x
      | |- spends _ (if ?c then _ else _) _ => destruct c
      end;
    try (now apply spends_finish_turn);
    (quiet_prefix; now apply (spends_put_turn n t)).
  - quiet_prefix. quiet_prefix.
    apply spends_after_quiet; [apply finally_block_quiet|intros _ s2 _].
    apply spends_end_turn.
Qed.

Lemma spends_onUpdateSettled (n : turn_id) (t : turn) (sid : msgid)
  (receipt : json) (displayContent : jsstring) (saved : msgid) (ok : bool)
  (s : state) :
  lookup_turn (turns s) n = Some t ->
  spends n (onUpdateSettled n t sid receipt displayContent saved ok) s.
Proof.
  intros L. unfold onUpdateSettled.
  do 7 quiet_prefix. now apply spends_finish_turn.
Qed.

Lemma spends_onSaveSettled (n : turn_id) (t : turn) (sid : msgid)
  (receipt : json) (displayContent : jsstring) (saved : option (Z * uuid))
  (s : state) :
  lookup_turn (turns s) n = Some t ->
  spends n (onSaveSettled n t sid receipt displayContent saved) s.
Proof.
  intros L. unfold onSaveSettled.
  do 5 quiet_prefix. now apply spends_finish_turn.
Qed.

Lemma spends_nothing (n : turn_id) (s : state) : spends n (ret tt) s.
Proof. unfold spends, ret, st, lg, count_speak. simpl. lia. Qed.

(** A continuation of invocation [n] never adds to its speech budget. *)
Lemma spends_handle (JSON_parse : jsstring -> option json) (n : turn_id)
  (e : event) (s : state) :
  of_turn n e = true -> spends n (handle JSON_parse e) s.
Proof.
  intros O.
  destruct e; try discriminate O; cbn [of_turn] in O;
    apply Nat.eqb_eq in O; subst; cbn [handle]; unfold on_turn;
    (apply spends_bind; [apply spends_quiet; intros ?; apply keeps_gets|]);
    cbn [gets st val fst snd];
    destruct (lookup_turn (turns s) n) as [t|] eqn:L;
    try apply spends_nothing;
    destruct (phase t); try apply spends_nothing.
  - now apply spends_onChatResponse.
  - now apply spends_onChunk.
  - now apply spends_onDone.
  - apply spends_abort.
  - destruct (streamingId t); [|apply spends_nothing].
    now apply spends_onUpdateSettled.
  - destruct (streamingId t); [|apply spends_nothing].
    now apply spends_onSaveSettled.
Qed.

Lemma spends_run (JSON_parse : jsstring -> option json) (n : turn_id)
  (es : list event) (s : state) :
  Forall (fun e => of_turn n e = true) es ->
  count_speak (snd (run JSON_parse s es))
  + budget n (fst (run JSON_parse s es)) <= budget n s.
Proof.
  intros F; revert s; induction F as [|e es O _ IH]; intros s.
  - simpl. unfold count_speak. simpl. lia.
  - rewrite run_cons, step_eq. cbn [fst snd]. rewrite count_speak_app.
    pose proof (spends_handle JSON_parse n e s O) as H. unfold spends in H.
    specialize (IH (st (handle JSON_parse e s))). lia.
Qed.

Lemma budget_le_1 (n : turn_id) (s : state) : budget n s <= 1.
Proof.
  unfold budget. destruct (lookup_turn (turns s) n) as [t|]; [|lia].
  destruct (ttsStarted t); lia.
Qed.

(** The message that holds the streamed text after a chunk was read at
    [now]. *)
Definition streaming_id (t : turn) (now : N) : msgid :=
  match streamingId t with
  | Some sid => sid
  | None => CashierMsg now
  end.

(** The chunk with which the text reaches 100 characters, in voice mode and
    not muted: the text with the first closed fenced block removed is
    spoken, if there is any, and [ttsStarted] is set. *)
Lemma onChunk_crossing (JSON_parse : jsstring -> option json) (n : turn_id)
  (t : turn) (chunk : jsstring) (now : N) (s : state) :
  lookup_turn (turns s) n = Some t ->
  phase t = Reading ->
  ttsStarted t = false ->
  voiceModeRef s = true ->
  isMutedRef s = false ->
  100 <= length (fullContent t ++ chunk) ->
  stripReceiptBlock (fullContent t ++ chunk) <> [] ->
  filter is_speak (snd (step JSON_parse s (ReadChunk n chunk now)))
    = [CSpeak (streaming_id t now)
              (stripReceiptBlock (fullContent t ++ chunk))] /\
  budget n (fst (step JSON_parse s (ReadChunk n chunk now))) = 0.
Proof.
  intros L Ph S V Mu Len Txt.
  rewrite step_eq. cbn [fst snd handle]. unfold on_turn.
  rewrite bind_st, bind_lg. cbn [gets st lg val fst snd app].
  rewrite L, Ph. unfold onChunk.
  rewrite (ReceiptFacts.stripReceiptBlock_trimmed (fullContent t ++ chunk)).
  set (full := fullContent t ++ chunk) in *.
  assert (Tr : truthy (stripReceiptBlock full) = true)
    by (destruct (stripReceiptBlock full); [congruence|reflexivity]).
  apply Nat.leb_le in Len.
  rewrite bind_st, bind_lg.
  unfold streaming_id.
  destruct (streamingId t) as [sid|];
    rewrite ?bind_st, ?bind_lg, ?bind_val;
    cbn [modify setMessages ret gets st lg val fst snd app
         voiceModeRef isMutedRef set_messages set_isTyping];
    rewrite V, Mu, S, Len; cbn [negb andb];
    rewrite ?bind_st, ?bind_lg; rewrite Tr; cbn [when];
    unfold put_turn at 1 2 3; cbn [modify st lg val fst snd app];
    match goal with
    | |- context [speakMessage ?i ?x ?s1] =>
        destruct (speakMessage_spec i x s1) as [T C]; rewrite C;
        split; [reflexivity|]; unfold budget; rewrite T; cbn [turns set_turns];
        now rewrite (lookup_store_turn _ _ _ _ L)
    end.
Qed.

End SpeakFacts.

(* ------------------------------------------------------------------ *)
(** * Properties of the receipt extractor *)

Module ReceiptProps.
Import Js Json Receipt JsFacts ReceiptFacts.

(** A cashier turn that carries two fenced blocks. *)
Definition two_blocks : jsstring :=
  qlit "Done! ```json{'type':'order_complete','items':[]}``` and ```json{'type':'order_update','items':[]}```".

(** A cashier turn with one block, as the system prompt asks for. *)
Definition one_block : jsstring :=
  qlit "You are all set, Sam! ```json
{'type':'order_complete','customer_name':'Sam','items':[],'total_price':6.50}
```".

(** A block that is no JSON, and a block of another type. *)
Definition bad_json_block : jsstring := qlit "Here: ```json {oops} ```".
Definition other_type_block : jsstring :=
  qlit "Here: ```json {'type':'order_draft','items':[]} ```".

(** C6, as stated, fails: [stripReceiptBlock] removes the first fenced block
    only, so on a text with two blocks the second application removes the
    second block, and [parseReceipt] still finds a receipt in the output of
    the first application. *)
Lemma stripReceiptBlock_not_idempotent :
  stripReceiptBlock (stripReceiptBlock two_blocks)
    <> stripReceiptBlock two_blocks /\
  parseReceipt parse_subset (stripReceiptBlock two_blocks) <> None.
Proof. split; intros H; vm_compute in H; discriminate H. Qed.

(** C6, amended: for every text whose stripped form holds no further fenced
    block, applying [stripReceiptBlock] to the stripped form returns it
    unchanged and [parseReceipt] finds no receipt in it. *)
Theorem stripReceiptBlock_idempotent_single
  (JSON_parse : jsstring -> option json) (t : jsstring) :
  RECEIPT_REGEX_exec (stripReceiptBlock t) = None ->
  stripReceiptBlock (stripReceiptBlock t) = stripReceiptBlock t /\
  parseReceipt JSON_parse (stripReceiptBlock t) = None.
Proof.
  intros H. split.
  - now apply stripReceiptBlock_again.
  - unfold parseReceipt. now rewrite parseReceipt_no_match.
Qed.

Lemma stripReceiptBlock_idempotent_single_witness :
  RECEIPT_REGEX_exec (stripReceiptBlock one_block) = None /\
  stripReceiptBlock (stripReceiptBlock one_block)
    = stripReceiptBlock one_block /\
  parseReceipt parse_subset (stripReceiptBlock one_block) = None.
Proof.
  split; [reflexivity|].
  apply (stripReceiptBlock_idempotent_single parse_subset one_block).
  reflexivity.
Defined.

(** C7: whatever [JSON.parse] does, [parseReceipt] returns [null] on a text
    with no fenced block, on a block that is not valid JSON and on a block
    whose [type] is not one of the two recognized values; and on no text at
    all does it throw. *)
Theorem parseReceipt_tolerant
  (JSON_parse : jsstring -> option json) (text : jsstring) :
  no_receipt JSON_parse text ->
  parseReceipt_run JSON_parse text = Normal None /\
  parseReceipt JSON_parse text = None /\
  (forall t, parseReceipt_run JSON_parse t <> Throw).
Proof.
  intros H.
  assert (R : parseReceipt_run JSON_parse text = Normal None).
  { destruct H as [M | pre g post M E | pre g post data M E T].
    - now apply parseReceipt_no_match.
    - unfold parseReceipt_run, parseReceipt_try. now rewrite M, E.
    - unfold parseReceipt_run, parseReceipt_try. rewrite M, E.
      unfold recognized_type in T.
      destruct (get data (lit "type")) as [ty|]; simpl; [|reflexivity].
      now rewrite T. }
  split; [exact R|]. split.
  - unfold parseReceipt. now rewrite R.
  - intros t. apply parseReceipt_run_total.
Qed.

Lemma parseReceipt_tolerant_witness :
  (no_receipt parse_subset (lit "A large oat latte, coming up!") /\
   parseReceipt parse_subset (lit "A large oat latte, coming up!") = None) /\
  (no_receipt parse_subset bad_json_block /\
   parseReceipt parse_subset bad_json_block = None) /\
  (no_receipt parse_subset other_type_block /\
   parseReceipt parse_subset other_type_block = None).
Proof.
  assert (H1 : no_receipt parse_subset
                (lit "A large oat latte, coming up!"))
    by (apply NoBlock; reflexivity).
  assert (H2 : no_receipt parse_subset bad_json_block)
    by (eapply BadJson; reflexivity).
  assert (H3 : no_receipt parse_subset other_type_block)
    by (eapply OtherType; reflexivity).
  exact (conj (conj H1 (proj1 (proj2 (parseReceipt_tolerant _ _ H1))))
          (conj (conj H2 (proj1 (proj2 (parseReceipt_tolerant _ _ H2))))
                (conj H3 (proj1 (proj2 (parseReceipt_tolerant _ _ H3)))))).
Defined.

End ReceiptProps.

(* ------------------------------------------------------------------ *)
(** * Properties of the playback adapter *)

Module TtsProps.
Import Js Tts TtsFacts.

(** What holds of [stop()] in every state of the playback adapter:
    [stop()] after [stop()] leaves the state as it is and calls nothing;
    [stop()] itself does not call [onEnd]; [onEnd] is called only on the
    events of [completes]; and the invocation of [speak] that [stop()] has
    aborted does not call [onEnd] when its fetch, its body read or its
    trailing buffer comes back.  The two handlers without a check of the
    aborted signal, [audio.onerror] and the rejection of [play()], are not
    covered: they are looked at below. *)
Lemma stop_idempotent_and_guarded (s : state) :
  stop (fst (stop s)) = (fst (stop s), []) /\
  ~ In CallOnEnd (snd (stop s)) /\
  (forall e, In CallOnEnd (snd (step s e)) -> completes e = true) /\
  (forall c, abortControllerRef s = Some c ->
     (forall r, ~ In CallOnEnd
                  (snd (step (fst (stop s)) (FetchSettled c r)))) /\
     (forall r, ~ In CallOnEnd
                  (snd (step (fst (stop s)) (BlobSettled c r)))) /\
     ~ In CallOnEnd (snd (step (fst (stop s)) (EndTimer c)))).
Proof.
  split; [apply stop_stopped|].
  split; [apply stop_silent|].
  split; [intros e; apply onEnd_completes|].
  intros c H. apply aborted_silent. now apply stop_aborts.
Qed.

(** Playback of "Hello" has begun: the synthesis request and the body read
    have succeeded, the [Audio] element is in [audioRef] and [play()] was
    called. *)
Definition playing_hello : state :=
  fst (run init [Speak (lit "Hello"); FetchSettled 0 RespOk;
                 BlobSettled 0 BlobOk]).

(** C4, where the code departs from it: during playback [stop()] aborts the
    controller, pauses the audio and sets [audio.src] to the empty string,
    without calling [onEnd], and a second [stop()] changes nothing.  The
    element then raises [error] for the empty source (and rejects a pending
    [play()] for the pause): [audio.onerror] and the [catch] of [play()]
    do not look at the aborted signal, they resolve the playback promise,
    and the stopped invocation of [speak] goes on to [setIsSpeaking(false)]
    and [onEnd].  So [onEnd] is called as a result of an explicit stop. *)
Theorem stop_then_error_calls_onEnd :
  phase_of (sessions playing_hello) 0 = Some Playing /\
  audioRef playing_hello = Some 0 /\
  snd (stop playing_hello) = [DoAbort 0; DoPause 0] /\
  stop (fst (stop playing_hello)) = (fst (stop playing_hello), []) /\
  is_aborted (fst (stop playing_hello)) 0 = true /\
  snd (step (fst (stop playing_hello)) (AudioError 0))
    = [DoWarn; CallOnEnd; Resolved 0] /\
  snd (step (fst (stop playing_hello)) (PlayRejected 0))
    = [DoWarn; CallOnEnd; Resolved 0] /\
  snd (run init [Speak (lit "Hello"); FetchSettled 0 RespOk;
                 BlobSettled 0 BlobOk; Stop; Stop; AudioError 0])
    = [DoFetch 0 (lit "Hello"); DoPlay 0; DoAbort 0; DoPause 0;
       DoWarn; CallOnEnd; Resolved 0].
Proof. repeat split; vm_compute; reflexivity. Qed.

End TtsProps.

(* ------------------------------------------------------------------ *)
(** * Properties of the persistence gateway *)

Module OrderProps.
Import Js Json OrderService OrderFacts.

Definition latte : ReceiptItem :=
  mkReceiptItem (lit "Latte") (lit "large") (lit "hot") (Some (lit "oat"))
                (lit "regular") (lit "none")
                [mkReceiptAddOn (lit "Extra shot") 1%Q (3 # 2)%Q] (13 # 2)%Q
                None.

Definition mocha : ReceiptItem :=
  mkReceiptItem (lit "Mocha") (lit "small") (lit "iced") None
                (lit "less") (lit "light") [] (5 # 1)%Q
                (Some (lit "no whip")).

Definition croissant : ReceiptItem :=
  mkReceiptItem (lit "Butter Croissant") (lit "small") (lit "hot") None
                (lit "regular") (lit "none") [] (7 # 2)%Q None.

(** A store with order 41 of another customer and order 42, the one that
    is modified, with a latte and a mocha. *)
Definition sample_db : db :=
  mkDb [mkOrder 7%N 41%Z (Some (lit "Ana")) status_completed (4 # 1)%Q
                100%N (Some 110%N) (Some 120%N);
        mkOrder 8%N 42%Z (Some (lit "Sam")) status_new (23 # 2)%Q
                200%N None None]
       (with_ids 20%N (toItemRows 7%N [croissant])
        ++ with_ids 21%N (toItemRows 8%N [latte; mocha]))
       30%N 300%N.

(** The add-on line [l] is the add-on [a] of the receipt: the same name
    and quantity, and its price as the unit price. *)
Definition line_of (l : AddOnLineItem) (a : ReceiptAddOn) : Prop :=
  l_name l = a_name a /\ l_qty l = a_qty a /\ l_unit_price l = a_price a.

(** The row [row] is the item [item] of the receipt, column by column, and
    belongs to the order [orderId]. *)
Definition row_of (orderId : uuid) (row : NewOrderItem) (item : ReceiptItem)
  : Prop :=
  n_order_id row = orderId /\
  n_item_name row = ri_item_name item /\
  n_size row = ri_size item /\
  n_temp row = ri_temp item /\
  n_milk row = ri_milk item /\
  n_sweetness row = ri_sweetness item /\
  n_ice_level row = ri_ice_level item /\
  Forall2 line_of (n_add_ons row) (ri_add_ons item) /\
  n_item_price row = ri_item_price item /\
  n_special_instructions row = ri_special_instructions item.

Lemma toItemRows_row_of (orderId : uuid) (items : list ReceiptItem) :
  Forall2 (row_of orderId) (toItemRows orderId items) items.
Proof.
  unfold toItemRows. induction items as [|item items IH]; cbn [map];
    constructor; [|exact IH].
  unfold row_of. cbn. repeat (split; [reflexivity|]). split; [|now split].
  induction (ri_add_ons item) as [|a l IHl]; cbn [map]; constructor;
    [now unfold line_of|exact IHl].
Qed.

(** C5: for every order that exists in the store, [updateOrder(orderId,
    items, total)], when none of its three requests fails, returns normally
    and leaves the order with the same id, order number and other columns
    and with the new total; the items read back for that order are, one for
    one and in order, the new items: as many rows as the receipt has items,
    each with the order's id and with the name, size, temperature, milk,
    sweetness, ice level, price and special instructions of its item, and
    with one add-on line for each add-on of the item, holding its name,
    quantity and price; none of the rows the order had before is left.  The
    items of every other order and the ids and order numbers of all orders
    are as before. *)
Theorem updateOrder_replaces (d : db) (orderId : uuid)
  (items : list ReceiptItem) (newTotal : number) (o : Order) :
  find_order d orderId = Some o ->
  exists d',
    updateOrder no_faults orderId items newTotal d = (d', Ok tt) /\
    find_order d' orderId = Some (with_total o newTotal) /\
    o_id (with_total o newTotal) = o_id o /\
    o_order_number (with_total o newTotal) = o_order_number o /\
    o_total_price (with_total o newTotal) = newTotal /\
    map i_row (items_of d' orderId) = toItemRows orderId items /\
    Forall2 (row_of orderId) (map i_row (items_of d' orderId)) items /\
    length (items_of d' orderId) = length items /\
    (forall other, other <> orderId -> items_of d' other = items_of d other) /\
    map o_id (orders d') = map o_id (orders d) /\
    map o_order_number (orders d') = map o_order_number (orders d).
Proof.
  intros F. eexists. split; [apply updateOrder_no_faults|].
  unfold find_order, items_of in *. cbn [orders order_items].
  split; [now apply find_update_total|].
  do 3 (split; [reflexivity|]).
  match goal with
  | |- ?rows = toItemRows _ _ /\ _ =>
      assert (Rows : rows = toItemRows orderId items)
  end.
  { rewrite filter_app, filter_after_delete, N.eqb_refl. cbn [app].
    rewrite filter_all; [apply with_ids_rows|].
    eapply Forall_impl; [|apply with_ids_order_id, toItemRows_order_id].
    cbn beta. intros i ->. apply N.eqb_refl. }
  split; [exact Rows|].
  split; [rewrite Rows; apply toItemRows_row_of|].
  split; [rewrite <- (length_map i_row), Rows; unfold toItemRows;
          apply length_map|].
  split; [|split].
  - intros other Hne. rewrite filter_app, filter_after_delete.
    apply N.eqb_neq in Hne. rewrite Hne.
    rewrite (filter_none _ (with_ids _ _)); [apply app_nil_r|].
    eapply Forall_impl; [|apply with_ids_order_id, toItemRows_order_id].
    cbn beta. intros i ->. rewrite N.eqb_sym. exact Hne.
  - rewrite map_map. apply map_ext. intros a.
    now destruct (o_id a =? orderId)%N.
  - rewrite map_map. apply map_ext. intros a.
    now destruct (o_id a =? orderId)%N.
Qed.

Lemma updateOrder_replaces_witness :
  exists o,
    find_order sample_db 8%N = Some o /\
    exists d',
      updateOrder no_faults 8%N [croissant] (7 # 2)%Q sample_db = (d', Ok tt) /\
      find_order d' 8%N = Some (with_total o (7 # 2)%Q) /\
      o_id (with_total o (7 # 2)%Q) = o_id o /\
      o_order_number (with_total o (7 # 2)%Q) = o_order_number o /\
      o_total_price (with_total o (7 # 2)%Q) = (7 # 2)%Q /\
      map i_row (items_of d' 8%N) = toItemRows 8%N [croissant] /\
      Forall2 (row_of 8%N) (map i_row (items_of d' 8%N)) [croissant] /\
      length (items_of d' 8%N) = length [croissant] /\
      (forall other, other <> 8%N ->
         items_of d' other = items_of sample_db other) /\
      map o_id (orders d') = map o_id (orders sample_db) /\
      map o_order_number (orders d')
        = map o_order_number (orders sample_db).
Proof.
  eexists. split; [reflexivity|].
  apply (updateOrder_replaces sample_db 8%N [croissant] (7 # 2)%Q).
  reflexivity.
Defined.

End OrderProps.

(* ------------------------------------------------------------------ *)
(** * Properties of the turn controller *)

Module ChatProps.
Import Js Json Receipt Chat ChatFacts.
Import OrderCompleteFacts SilenceGuardFacts.

(** A cashier turn that closes an order. *)
Definition receipt_turn : jsstring :=
  qlit "You are all set, Sam! ```json
{'type':'order_complete','customer_name':'Sam','items':[],'total_price':6.50}
```".

(** A new order is placed by voice and saved as order 42. *)
Definition order_placed : list event :=
  [Begin;
   TtsEvent (Tts.FetchSettled 0 Tts.RespOk);
   TtsEvent (Tts.BlobSettled 0 Tts.BlobOk);
   SpeechEvent Speech.OnStart 1;
   SpeechEvent (Speech.OnResult [(true, lit "a latte for Sam")]) 2;
   SpeechEvent Speech.OnEnd 3;
   ChatResponse 0 ROk 4;
   ReadChunk 0 receipt_turn 5;
   TtsEvent (Tts.FetchSettled 1 Tts.RespOk);
   TtsEvent (Tts.BlobSettled 1 Tts.BlobOk);
   TtsEvent (Tts.AudioEnded 1);
   TtsEvent (Tts.EndTimer 1);
   ReadDone 0 6;
   SaveSettled 0 (Some (42%Z, 8%N))].

Definition after_order : state :=
  fst (run parse_subset (init true 0) order_placed).

(** What can still arrive after the receipt is shown: speech that ends or
    fails, a typed message and its answer, a silence timeout. *)
Definition after_events : list event :=
  [Replay (CashierMsg 5);
   TtsEvent (Tts.FetchSettled 2 Tts.RespNotOk);
   Replay (CashierMsg 5);
   TtsEvent (Tts.FetchSettled 3 Tts.RespOk);
   TtsEvent (Tts.BlobSettled 3 Tts.BlobOk);
   TtsEvent (Tts.AudioEnded 3);
   TtsEvent (Tts.EndTimer 3);
   Send (lit "thanks!") 7;
   ChatResponse 1 ROk 8;
   ReadChunk 1 (lit "Enjoy your latte, Sam! It will be ready at the counter in just a few minutes. See you next time at NYC Coffee.") 9;
   TtsEvent (Tts.FetchSettled 4 Tts.FetchFailed);
   ReadDone 1 10;
   TimerFired 0].

(** C1: from every state in which [orderCompleteRef] is set, whatever the
    deferred-reactivation flag holds, no sequence of events other than
    "new order" and "modify order" enters [activateMic], however many times
    speech playback ends in it; and [orderCompleteRef] stays set. *)
Theorem no_auto_listen_after_order_complete
  (JSON_parse : jsstring -> option json) (s : state) (es : list event) :
  orderCompleteRef s = true ->
  Forall (fun e => reopens e = false) es ->
  ~ In CActivateMic (snd (run JSON_parse s es)) /\
  orderCompleteRef (fst (run JSON_parse s es)) = true.
Proof.
  intros H F.
  destruct (keeps_run completed not_activate JSON_parse
              (fun e => reopens e = false)
              (handle_completed JSON_parse) es s F H) as [H1 L1].
  split; [|exact H1].
  intros HIn. rewrite forallb_forall in L1.
  specialize (L1 _ HIn). discriminate L1.
Qed.

Lemma no_auto_listen_after_order_complete_witness :
  orderCompleteRef after_order = true /\
  Forall (fun e => reopens e = false) after_events /\
  ~ In CActivateMic (snd (run parse_subset after_order after_events)) /\
  orderCompleteRef (fst (run parse_subset after_order after_events))
    = true.
Proof.
  assert (H : orderCompleteRef after_order = true)
    by (vm_compute; reflexivity).
  assert (F : Forall (fun e => reopens e = false) after_events)
    by (repeat constructor).
  exact (conj H (conj F
           (no_auto_listen_after_order_complete parse_subset after_order
              after_events H F))).
Defined.

(** The user opens the mic by hand. *)
Definition manual_session : state :=
  fst (run parse_subset (init true 0)
         [StartListening; SpeechEvent Speech.OnStart 1]).

(** C9, as stated, fails: a listening session that the user starts by hand
    arms no silence guard.  After [handleStartListening] and the start of
    recognition the mic is open, no timeout is pending and no timeout can
    stop it. *)
Lemma manual_session_has_no_silence_guard :
  Speech.isListening (speech manual_session) = true /\
  Speech.recognitionRef (speech manual_session) = Some 0 /\
  timers manual_session = [] /\
  autoListenTimerRef manual_session = None /\
  forall t,
    step parse_subset manual_session (TimerFired t) = (manual_session, []).
Proof.
  repeat split; vm_compute; reflexivity.
Qed.

(** C9, amended: in every reachable state at most one silence-guard timeout
    is pending; [activateMic], by which listening is reactivated
    automatically, leaves exactly one pending, of 5000 ms; and when a
    pending timeout fires, the state and the calls are those of the manual
    stop control (with that timeout no longer pending): [stopListening]
    calls [stop()] on the recognizer that [recognitionRef] holds, if it
    holds one, [isListening] is cleared, no message is added and no model
    call is started. *)
Theorem silence_guard_stops_listening
  (JSON_parse : jsstring -> option json) (supported : bool) (s : state) :
  reachable JSON_parse supported s ->
  length (timers s) <= 1 /\
  (timers (st (activateMic s)) = [nextTimer s] /\
   autoListenTimerRef (st (activateMic s)) = Some (nextTimer s) /\
   In (CSetTimeout (nextTimer s) 5000) (lg (activateMic s))) /\
  (forall t, In t (timers s) ->
     let manual := step JSON_parse s StopListening in
     let fired := step JSON_parse s (TimerFired t) in
     fired = (set_timers [] (fst manual), snd manual) /\
     Speech.isListening (speech (fst fired)) = false /\
     (forall r, Speech.recognitionRef (speech s) = Some r ->
        snd fired = [CRec (Speech.DoStop r)]) /\
     messages (fst fired) = messages s /\
     turns (fst fired) = turns s).
Proof.
  intros R. pose proof (reachable_timer_inv JSON_parse supported s R) as Inv.
  split; [|split].
  - unfold timer_inv in Inv.
    destruct (timers s) as [|t [|t' l]]; simpl; [lia|lia|contradiction].
  - now apply activateMic_arms.
  - intros t HIn. unfold timer_inv in Inv.
    destruct (timers s) as [|t0 [|t' l]] eqn:T; try contradiction.
    destruct HIn as [->|[]].
    unfold step, handle, onTimer, stopListening, with_speech,
      Speech.stopListening, bind, gets, modify, when.
    rewrite T. cbn. rewrite Nat.eqb_refl. cbn. rewrite T. cbn.
    rewrite Nat.eqb_refl. cbn.
    destruct (Speech.recognitionRef (speech s)) as [r|]; cbn;
      repeat split; intros r' E; now inversion E.
Qed.

(** Listening was reactivated after the greeting could not be played. *)
Definition guarded_session : state :=
  fst (run parse_subset (init true 0)
         [Begin; TtsEvent (Tts.FetchSettled 0 Tts.RespNotOk);
          SpeechEvent Speech.OnStart 1]).

Lemma silence_guard_stops_listening_witness :
  reachable parse_subset true guarded_session /\
  In 0 (timers guarded_session) /\
  step parse_subset guarded_session (TimerFired 0)
    = (set_timers []
         (fst (step parse_subset guarded_session StopListening)),
       snd (step parse_subset guarded_session StopListening)) /\
  snd (step parse_subset guarded_session (TimerFired 0))
    = [CRec (Speech.DoStop 0)].
Proof.
  assert (R : reachable parse_subset true guarded_session)
    by (exists 0%N; eexists; reflexivity).
  assert (T : In 0 (timers guarded_session))
    by (vm_compute; left; reflexivity).
  assert (E : Speech.recognitionRef (speech guarded_session) = Some 0)
    by (vm_compute; reflexivity).
  pose proof (silence_guard_stops_listening parse_subset true
                guarded_session R) as (_ & _ & H).
  destruct (H 0 T) as (H1 & _ & H3 & _).
  exact (conj R (conj T (conj H1 (H3 0 E)))).
Defined.

(** The ref and the recognizer.  [recognitionRef] is shared by all the
    recognizers the hook creates, and [onend] clears it whichever of them
    ended.  When listening is reactivated a second time while the first
    recognizer is still there, the first is aborted and a second one is
    started; the [onend] of the aborted one then clears the ref, and when
    the second one starts the mic is open with nothing in the ref.  The
    silence guard (and the manual stop control alike) then clears
    [isListening] and calls [stop()] on nothing. *)
Definition stale_onend_session : state :=
  fst (run parse_subset (init true 0)
         [Begin; TtsEvent (Tts.FetchSettled 0 Tts.RespNotOk);
          SpeechEvent Speech.OnStart 1; Replay Greeting;
          TtsEvent (Tts.FetchSettled 1 Tts.RespNotOk);
          SpeechEvent Speech.OnEnd 2; SpeechEvent Speech.OnStart 3]).

Lemma silence_guard_with_empty_ref :
  reachable parse_subset true stale_onend_session /\
  timers stale_onend_session = [1] /\
  Speech.isListening (speech stale_onend_session) = true /\
  Speech.recognitionRef (speech stale_onend_session) = None /\
  snd (step parse_subset stale_onend_session (TimerFired 1)) = [] /\
  snd (step parse_subset stale_onend_session StopListening) = [].
Proof.
  split; [exists 0%N; eexists; reflexivity|].
  repeat split; vm_compute; reflexivity.
Qed.

(** What the component makes of an [error] event after [stop()].  The
    greeting is playing and the customer presses the mic: [stopSpeaking]
    stops the playback and the recognizer is started.  The [error] event of
    the stopped audio element then runs [onEnd], and [activateMic] aborts
    the recognizer the customer has just started and starts another. *)
Definition greeting_interrupted : state :=
  fst (run parse_subset (init true 0)
         [Begin; TtsEvent (Tts.FetchSettled 0 Tts.RespOk);
          TtsEvent (Tts.BlobSettled 0 Tts.BlobOk); StartListening]).

Lemma interrupted_playback_reactivates_mic :
  Tts.is_aborted (tts greeting_interrupted) 0 = true /\
  Speech.recognitionRef (speech greeting_interrupted) = Some 0 /\
  snd (step parse_subset greeting_interrupted (TtsEvent (Tts.AudioError 0)))
    = [CTts Tts.DoWarn; CTts Tts.CallOnEnd; CActivateMic;
       CRec (Speech.DoAbort 0); CRec (Speech.DoStart 1);
       CSetTimeout 0 5000; CTts (Tts.Resolved 0)].
Proof. repeat split; vm_compute; reflexivity. Qed.

(** C10: a final transcript that arrives while [isResponding] is true, or
    whose text is empty after trimming, changes nothing and calls nothing;
    and when the capture hook ends a session while [isResponding] is true,
    the messages and the turns in flight are as before and no model call is
    started. *)
Theorem final_transcript_discarded
  (s : state) (text : jsstring) (now : N) :
  isResponding s = true \/ trim text = [] ->
  onFinalSpeech text now s = (tt, s, []) /\
  (isResponding s = true ->
   forall JSON_parse,
     let r := step JSON_parse s (SpeechEvent Speech.OnEnd now) in
     messages (fst r) = messages s /\
     turns (fst r) = turns s /\
     forallb (fun c => match c with CRec _ => true | _ => false end) (snd r)
       = true).
Proof.
  intros H. split.
  - unfold onFinalSpeech, bind, gets.
    destruct H as [-> | ->]; cbn; [reflexivity|].
    now rewrite andb_false_r.
  - intros R JSON_parse.
    unfold step, handle, with_speech, Speech.step, bind.
    destruct (truthy (trim (Speech.finalTranscriptRef (speech s))));
      cbn; [|now repeat split].
    unfold onFinalSpeech, bind, gets. cbn. rewrite R. cbn. now repeat split.
Qed.

(** The first answer is awaited. *)
Definition responding : state :=
  fst (run parse_subset (init true 0) [Send (lit "A latte") 1]).

Lemma final_transcript_discarded_witness :
  (isResponding responding = true \/ trim (lit "and a mocha") = []) /\
  onFinalSpeech (lit "and a mocha") 2 responding = (tt, responding, []).
Proof.
  assert (H : isResponding responding = true
              \/ trim (lit "and a mocha") = [])
    by (left; vm_compute; reflexivity).
  exact (conj H (proj1 (final_transcript_discarded responding
                          (lit "and a mocha") 2 H))).
Defined.

End ChatProps.

(* ------------------------------------------------------------------ *)
(** * Starting a turn *)

Module TurnProps.
Import Js Json Receipt Chat ChatFacts.

(** The calls by which [handleSend] cancels what the previous turn left. *)
Definition is_cancel (c : call) : bool :=
  match c with
  | CClearTimeout _ | CTts (Tts.DoAbort _) | CTts (Tts.DoPause _) => true
  | _ => false
  end.

(** The user picks a menu item while the answer to "A latte" is still being
    read. *)
Definition overlapping_turns : list event :=
  [Send (lit "A latte") 1;
   ChatResponse 0 ROk 2;
   ReadChunk 0 (lit "Sure") 3;
   SelectItem (lit "Mocha") 4].

Definition overlapped : state :=
  fst (run parse_subset (init true 0) overlapping_turns).

(** C3, as stated, fails: [handleSend] never aborts the request to
    [/api/chat] of an earlier turn.  After a newer turn has started, the
    older invocation is still reading its stream, and the next chunk of the
    older response is written into the conversation. *)
Lemma stale_response_applied :
  map fst (turns overlapped) = [0; 1] /\
  option_map phase (lookup_turn (turns overlapped) 0) = Some Reading /\
  map m_content (messages overlapped)
    = [GREETING_TEXT; lit "A latte"; lit "Sure"; lit "I'd like a Mocha"] /\
  map m_content
      (messages (fst (step parse_subset overlapped
                        (ReadChunk 0 (lit " thing!") 5))))
    = [GREETING_TEXT; lit "A latte"; lit "Sure thing!";
       lit "I'd like a Mocha"].
Proof. repeat split; vm_compute; reflexivity. Qed.

(** C3, amended: when [handleSend] is entered, from any state, the pending
    silence-guard timeout is cleared, the playback in flight is aborted
    (its controller is aborted, its audio paused, both refs and
    [isSpeaking] cleared) and the deferred-reactivation flag is reset, and
    all of this is done before the request of the new turn, which is the
    last call of the step.  The invocations of [handleSend] already in
    flight stay as they are: their streams are not aborted. *)
Theorem new_turn_cancels_timer_and_playback
  (JSON_parse : jsstring -> option json) (s : state) (text : jsstring)
  (now : N) :
  let s' := fst (step JSON_parse s (Send text now)) in
  let l := snd (step JSON_parse s (Send text now)) in
  let userMsg := mkMsg (UserMsg now) customer text None None None None now in
  (autoListenTimerRef s' = None /\
   forall t, autoListenTimerRef s = Some t ->
     ~ In t (timers s') /\ In (CClearTimeout t) l) /\
  (Tts.abortControllerRef (tts s') = None /\
   Tts.audioRef (tts s') = None /\
   Tts.isSpeaking (tts s') = false /\
   (forall c, Tts.abortControllerRef (tts s) = Some c ->
      Tts.is_aborted (tts s') c = true /\ In (CTts (Tts.DoAbort c)) l) /\
   (forall a, Tts.audioRef (tts s) = Some a ->
      In (CTts (Tts.DoPause a)) l)) /\
  ttsEndedWhileRespondingRef s' = false /\
  (exists l0,
     l = l0 ++ [CFetchChat (nextTurn s)
                           (toApiMessages (messages s ++ [userMsg]))] /\
     forallb is_cancel l0 = true) /\
  turns s' = turns s ++ [(nextTurn s, mkTurn [] None 0 false AwaitResponse)].
Proof.
  unfold step, handle, handleSend, clearAutoListenTimer, stop, with_tts,
    Tts.stop, setMessages, bind, gets, modify, emit.
  destruct (autoListenTimerRef s) as [t|] eqn:R;
    destruct (Tts.abortControllerRef (tts s)) as [c|] eqn:C;
    destruct (Tts.audioRef (tts s)) as [a|] eqn:A; cbn;
    rewrite ?C, ?A; cbn.
  all: repeat match goal with
       | |- _ /\ _ => split
       | |- forall _, _ => intro
       | H : Some _ = Some _ |- _ => injection H as <-
       | H : None = Some _ |- _ => discriminate H
       end; try reflexivity.
  all: try (unfold Tts.is_aborted; cbn; now rewrite Nat.eqb_refl).
  all: try (unfold remove_timer; rewrite filter_In, Nat.eqb_refl;
            now intros [_ ?]).
  all: try (cbn; tauto).
  all: match goal with
       | |- exists l0, [?x; ?y; ?z; _] = _ /\ _ => exists [x; y; z]
       | |- exists l0, [?x; ?y; _] = _ /\ _ => exists [x; y]
       | |- exists l0, [?x; _] = _ /\ _ => exists [x]
       | |- exists l0, [_] = _ /\ _ => exists []
       end; split; reflexivity.
Qed.

End TurnProps.

(* ------------------------------------------------------------------ *)
(** * Early speech and persistence of a turn *)

Module StreamProps.
Import Js Json Receipt Chat ChatFacts SpeakFacts.

(** A response that is nothing but a receipt block. *)
Definition receipt_only : jsstring :=
  qlit "```json
{'type':'order_complete','customer_name':'Sam','items':[],'total_price':6.50,'note':'no spoken line'}
```".

Definition receipt_only_turn : list event :=
  [Send (lit "A latte") 1;
   ChatResponse 0 ROk 2;
   ReadChunk 0 receipt_only 3;
   ReadDone 0 4;
   SaveSettled 0 (Some (42%Z, 8%N))].

(** A confirmation line followed by the start of a receipt block: the
    stream has passed 100 characters and the closing fence has not come. *)
Definition open_fence : jsstring :=
  qlit "Perfect, Sam! ```json
{'type':'order_complete','customer_name':'Sam','items':[{'item_name':'Latte','size':'large'".

Definition open_fence_turn : list event :=
  [Send (lit "A latte") 1;
   ChatResponse 0 ROk 2;
   ReadChunk 0 open_fence 3].



(** The stream has delivered 40 characters; the next chunk brings a
    sentence and a closed receipt block. *)
Definition first_40 : jsstring :=
  lit "Great choice! One large oat latte it is. ".

Definition next_80 : jsstring :=
  qlit "It will be ready in a few minutes. ```json{'type':'order_complete','items':[],'total_price':6.5}```".

Definition after_40 : state :=
  fst (run parse_subset (init true 0)
         [Send (lit "A large oat latte") 1; ChatResponse 0 ROk 2;
          ReadChunk 0 first_40 3]).

Definition rest_of_turn : list event :=
  [ReadChunk 0 next_80 4; ReadDone 0 5; SaveSettled 0 (Some (42%Z, 8%N))].


End StreamProps.

(* ------------------------------------------------------------------ *)
(** * The stored total *)

Module TotalProps.
Import Js Json Receipt Chat ChatFacts OrderServiceJs OrderJsFacts.
Import OrderService (faults, fail_1, fail_2, fail_3, no_faults).

Lemma type_is_object (data : json) (s : jsstring) :
  type_is data s = true -> exists ms, data = JObj ms.
Proof.
  unfold type_is. destruct data as [| | | | |ms]; cbn; try discriminate.
  intros _. now exists ms.
Qed.

(** The sum of [items[].item_price], when every item states a price that
    is a number. *)
Fixpoint price_sum (items : list json) : option Q :=
  match items with
  | [] => Some 0%Q
  | item :: rest =>
      match field item (lit "item_price"), price_sum rest with
      | Some (JNum p), Some acc => Some (Qplus p acc)
      | _, _ => None
      end
  end.

Definition item_price_sum (data : json) : option Q :=
  match field data (lit "items") with
  | Some (JArr items) => price_sum items
  | _ => None
  end.

(** The value is a number that equals [sum]. *)
Definition equals_sum (v : value) (sum : Q) : Prop :=
  exists q, v = Some (JNum q) /\ Qeq q sum.

(** C8: when the stream of a turn ends with a receipt that [parseReceipt]
    accepts, whatever else the receipt holds, the total handed to the
    store is the [total_price] the model stated, and the store keeps it as
    it is; the sum of the item prices is never computed.  For
    [order_complete], [handleSend] calls [saveOrder] with the parsed
    receipt itself, and whenever the request that inserts the order row
    succeeds, that row is in the store with the stated total, also when
    the items cannot be saved: when the stated total is a number that
    equals the sum of the item prices the stored total equals that sum,
    and when it differs the stored total is the stated one and differs
    too.  For [order_update] during a modification, [handleSend] calls
    [updateOrder] with the [items] and the [total_price] of the receipt,
    and whenever the request that updates the order row succeeds the row
    has the stated total; when the receipt states none, none is sent and
    the row keeps the total it had. *)
Theorem stated_total_is_persisted
  (JSON_parse : jsstring -> option json) (s : state) (n : turn_id)
  (t : turn) (sid : msgid) (data : json) (now : N) :
  lookup_turn (turns s) n = Some t ->
  phase t = Reading ->
  streamingId t = Some sid ->
  parseReceipt JSON_parse (fullContent t) = Some data ->
  let stated := field data (lit "total_price") in
  let calls := snd (step JSON_parse s (ReadDone n now)) in
  (type_is data (lit "order_complete") = true ->
   calls = [CSaveOrder n data] /\
   forall f d, fail_2 f = false ->
     exists d' res order,
       saveOrder f data d = (d', res) /\
       orders d' = orders d ++ [order] /\
       j_total_price order = stated /\
       forall sum, item_price_sum data = Some sum ->
         (equals_sum stated sum -> equals_sum (j_total_price order) sum) /\
         (~ equals_sum stated sum ->
          ~ equals_sum (j_total_price order) sum)) /\
  (type_is data (lit "order_update") = true ->
   forall oid mid,
     modifyingOrderIdRef s = Some oid ->
     modifyingReceiptMsgIdRef s = Some mid ->
     calls = [CUpdateOrder n oid (field data (lit "items")) stated] /\
     forall f d o, fail_1 f = false -> find_order d oid = Some o ->
       exists d' res o',
         updateOrder f oid (field data (lit "items")) stated d = (d', res) /\
         find_order d' oid = Some o' /\
         j_id o' = j_id o /\
         j_order_number o' = j_order_number o /\
         match stated with
         | Some _ =>
             j_total_price o' = stated /\
             forall sum, item_price_sum data = Some sum ->
               (equals_sum stated sum -> equals_sum (j_total_price o') sum) /\
               (~ equals_sum stated sum ->
                ~ equals_sum (j_total_price o') sum)
         | None => j_total_price o' = j_total_price o
         end).
Proof.
  intros L Ph Sid PR. cbv zeta.
  assert (Calls : snd (step JSON_parse s (ReadDone n now))
                  = lg (onDone JSON_parse n t now s)).
  { rewrite step_eq. cbn [snd handle]. unfold on_turn.
    rewrite bind_lg. cbn [gets st lg val fst snd app]. now rewrite L, Ph. }
  rewrite Calls. unfold onDone. rewrite Sid, PR.
  rewrite !bind_lg. cbn [gets st lg val fst snd app].
  split.
  - intros Ty. split.
    + assert (U : type_is data (lit "order_update") = false).
      { destruct (type_is data (lit "order_update")) eqn:U; [|reflexivity].
        unfold type_is in *.
        destruct (get data (lit "type")) as [[[| | |x| |]|]|];
          try discriminate.
        cbn [is_string] in *.
        destruct (JsFacts.eqb_spec x (lit "order_update")) as [E|];
          [|discriminate]. subst x. discriminate Ty. }
      rewrite U, Ty. reflexivity.
    + intros f d F2. destruct (type_is_object _ _ Ty) as (ms & ->).
      destruct (saveOrder_inserts f ms d F2)
        as (d' & res & order & S & O & _ & T & _).
      exists d', res, order. split; [exact S|]. split; [exact O|].
      unfold field. cbn [get]. rewrite T. split; [reflexivity|].
      intros sum _. split; auto.
  - intros Ty oid mid Ho Hm. split.
    + rewrite Ty, Ho, Hm. reflexivity.
    + intros f d o F1 Fo.
      destruct (updateOrder_total f oid (field data (lit "items"))
                  (field data (lit "total_price")) d o F1 Fo)
        as (d' & res & U & Fo').
      eexists d', res, _. split; [exact U|]. split; [exact Fo'|].
      destruct (field data (lit "total_price")) as [v|];
        cbn [with_sent_total j_id j_order_number j_total_price];
        repeat split; auto.
Qed.

(** A store that holds one earlier order. *)
Definition store1 : store :=
  mkStore [mkOrderRow 7%N 41%Z (JStr (lit "Ana")) OrderService.status_completed
                      (Some (JNum (4 # 1)%Q)) 100%N]
          [] 20%N 300%N.

(** The model states 6.50 for one item of 5.00, and the item has no
    [milk] and no [special_instructions]. *)
Definition diverging_receipt : jsstring :=
  qlit "That is a small iced mocha for Sam. ```json
{'type':'order_complete','customer_name':'Sam','items':[{'item_name':'Mocha','size':'small','temp':'iced','sweetness':'less','ice_level':'light','add_ons':[],'item_price':5.00}],'total_price':6.50}
```".

Definition stream_read : state :=
  fst (run parse_subset (init false 0)
         [Send (lit "A small iced mocha, for Sam") 1; ChatResponse 0 ROk 2;
          ReadChunk 0 diverging_receipt 3]).

(** The receipt that [parseReceipt] finds in it. *)
Definition diverging_data : json :=
  Eval vm_compute in
    match parseReceipt parse_subset diverging_receipt with
    | Some data => data
    | None => JNull
    end.

Lemma stated_total_is_persisted_witness :
  parseReceipt parse_subset diverging_receipt = Some diverging_data /\
  type_is diverging_data (lit "order_complete") = true /\
  item_price_sum diverging_data = Some (5 # 1)%Q /\
  snd (step parse_subset stream_read (ReadDone 0 4))
    = [CSaveOrder 0 diverging_data] /\
  exists d' res order,
    saveOrder no_faults diverging_data store1 = (d', res) /\
    orders d' = orders store1 ++ [order] /\
    j_order_number order = 42%Z /\
    j_total_price order = Some (JNum (13 # 2)%Q) /\
    ~ equals_sum (j_total_price order) (5 # 1)%Q /\
    exists items,
      res = Returned (order, items) /\
      map (fun i => ji_milk (snd i)) items = [None].
Proof.
  assert (PR : parseReceipt parse_subset diverging_receipt
               = Some diverging_data) by (vm_compute; reflexivity).
  assert (Ty : type_is diverging_data (lit "order_complete") = true)
    by (vm_compute; reflexivity).
  assert (Sum : item_price_sum diverging_data = Some (5 # 1)%Q)
    by (vm_compute; reflexivity).
  assert (Tot : field diverging_data (lit "total_price")
                = Some (JNum (13 # 2)%Q)) by (vm_compute; reflexivity).
  split; [exact PR|]. split; [exact Ty|]. split; [exact Sum|].
  assert (L : lookup_turn (turns stream_read) 0
              = Some (mkTurn diverging_receipt (Some (CashierMsg 3)) 2 false
                             Reading))
    by (vm_compute; reflexivity).
  destruct (stated_total_is_persisted parse_subset stream_read 0 _
              (CashierMsg 3) diverging_data 4 L eq_refl eq_refl PR)
    as (H & _).
  destruct (H Ty) as (Hs & Hd).
  split; [exact Hs|].
  destruct (Hd no_faults store1 eq_refl)
    as (d' & res & order & S & O & E & D).
  exists d', res, order. split; [exact S|]. split; [exact O|].
  assert (N : ~ equals_sum (j_total_price order) (5 # 1)%Q).
  { apply (D _ Sum). rewrite Tot. intros (q & [= <-] & Hq).
    vm_compute in Hq. discriminate Hq. }
  vm_compute in S. injection S as <- <-.
  vm_compute in O. injection O as <-.
  split; [reflexivity|]. split; [reflexivity|]. split; [exact N|].
  eexists. split; reflexivity.
Defined.

End TotalProps.

(* ------------------------------------------------------------------ *)
(** * More on the receipt extractor and the history sent to the model *)

Module ReceiptMore.
Import Js Json Receipt JsFacts ReceiptFacts Chat.

Lemma strip_prefix_app (p s r : jsstring) :
  strip_prefix p s = Some r -> s = p ++ r.
Proof.
  revert s; induction p as [|a p IH]; intros [|b s]; simpl; intros H;
    try discriminate; try (injection H as <-; reflexivity).
  destruct (N.eqb_spec a b) as [->|]; [|discriminate].
  now rewrite (IH _ H).
Qed.

Lemma trimStart_split (s : jsstring) :
  exists ws, s = ws ++ trimStart s /\ forallb is_space ws = true.
Proof.
  induction s as [|c s (ws & E & W)]; simpl.
  - now exists [].
  - destruct (is_space c) eqn:C.
    + exists (c :: ws). simpl. rewrite C, W. now rewrite <- E.
    + now exists [].
Qed.

Lemma find_close_split (s g post : jsstring) :
  find_close s = Some (g, post) ->
  exists body ws,
    g = body ++ [rbrace] /\
    s = g ++ ws ++ fence_close ++ post /\
    forallb is_space ws = true.
Proof.
  revert g post; induction s as [|c s IH]; intros g post H;
    [discriminate|].
  cbn [find_close] in H.
  destruct (if (c =? rbrace)%N then strip_prefix fence_close (skip_ws s)
            else None) as [p|] eqn:E.
  - injection H as <- <-.
    destruct (N.eqb_spec c rbrace) as [->|]; [|discriminate].
    apply strip_prefix_app in E.
    destruct (trimStart_split s) as (ws & Es & W).
    exists [], ws. unfold skip_ws in E. rewrite E in Es.
    repeat split; [|exact W]. simpl. now rewrite Es at 1.
  - destruct (find_close s) as [[g' post']|]; [|discriminate].
    injection H as <- <-.
    destruct (IH _ _ eq_refl) as (body & ws & -> & Es & W).
    exists (c :: body), ws. repeat split; [|exact W].
    simpl. now rewrite Es at 1.
Qed.

Lemma match_at_split (s g post : jsstring) :
  match_at s = Some (g, post) ->
  exists ws1 body ws2,
    g = lbrace :: body ++ [rbrace] /\
    s = fence_open ++ ws1 ++ g ++ ws2 ++ fence_close ++ post /\
    forallb is_space ws1 = true /\ forallb is_space ws2 = true.
Proof.
  unfold match_at. intros H.
  destruct (strip_prefix fence_open s) as [r1|] eqn:E1; [|discriminate].
  apply strip_prefix_app in E1.
  destruct (trimStart_split r1) as (ws1 & Er & W1). unfold skip_ws in H.
  destruct (trimStart r1) as [|c r2]; [discriminate|].
  destruct (N.eqb_spec c lbrace) as [->|]; [|discriminate].
  destruct (find_close r2) as [[g' post']|] eqn:E3; [|discriminate].
  injection H as <- <-.
  destruct (find_close_split _ _ _ E3) as (body & ws2 & -> & E2 & W2).
  exists ws1, body, ws2. repeat split; try assumption.
  rewrite E1, Er, E2. simpl. now rewrite <- !app_assoc.
Qed.

(** X1: a match of [RECEIPT_REGEX] splits the text into what precedes it,
    the opening fence, white space, the group from an opening to a closing
    brace, white space, the closing fence and the rest; and the pattern
    matches at no earlier position. *)
Theorem RECEIPT_REGEX_exec_split (text pre g post : jsstring) :
  RECEIPT_REGEX_exec text = Some (pre, g, post) ->
  (exists ws1 body ws2,
     g = lbrace :: body ++ [rbrace] /\
     text = pre ++ fence_open ++ ws1 ++ g ++ ws2 ++ fence_close ++ post /\
     forallb is_space ws1 = true /\ forallb is_space ws2 = true) /\
  (forall k, k < length pre -> match_at (skipn k text) = None).
Proof.
  revert pre g post; induction text as [|c text IH]; intros pre g post H.
  - simpl in H. discriminate.
  - cbn [RECEIPT_REGEX_exec] in H.
    destruct (match_at (c :: text)) as [[g' post']|] eqn:E.
    + injection H as <- <- <-. split; [|simpl; intros k Hk; lia].
      exact (match_at_split _ _ _ E).
    + destruct (RECEIPT_REGEX_exec text) as [[[pre' g'] post']|];
        [|discriminate].
      injection H as <- <- <-.
      destruct (IH _ _ _ eq_refl) as [(ws1 & body & ws2 & Eg & Et & W) L].
      split.
      * exists ws1, body, ws2. repeat split; try apply W; [exact Eg|].
        rewrite <- app_comm_cons. f_equal. exact Et.
      * intros [|k] Hk; [exact E|]. simpl in *. apply L. lia.
Qed.

Definition block_example : jsstring :=
  qlit "Done. ```json  {'a': {'b': 1} }
``` bye".

Lemma RECEIPT_REGEX_exec_split_witness :
  RECEIPT_REGEX_exec block_example
    = Some (lit "Done. ", qlit "{'a': {'b': 1} }", lit " bye") /\
  forall k, k < 6 -> match_at (skipn k block_example) = None.
Proof.
  assert (H : RECEIPT_REGEX_exec block_example
              = Some (lit "Done. ", qlit "{'a': {'b': 1} }", lit " bye"))
    by (vm_compute; reflexivity).
  exact (conj H (proj2 (RECEIPT_REGEX_exec_split _ _ _ _ H))).
Defined.

(** X2: a receipt that [parseReceipt] returns is what [JSON.parse] made of
    the first fenced block of the text: an object whose [type] is
    ["order_complete"] or ["order_update"] and whose [items] is an array. *)
Theorem parseReceipt_sound (JSON_parse : jsstring -> option json)
  (text : jsstring) (data : json) :
  parseReceipt JSON_parse text = Some data ->
  exists pre g post ms items,
    RECEIPT_REGEX_exec text = Some (pre, g, post) /\
    JSON_parse g = Some data /\
    data = JObj ms /\
    (Json.lookup (lit "type") ms = Some (JStr (lit "order_complete")) \/
     Json.lookup (lit "type") ms = Some (JStr (lit "order_update"))) /\
    Json.lookup (lit "items") ms = Some (JArr items).
Proof.
  unfold parseReceipt, parseReceipt_run.
  destruct (RECEIPT_REGEX_exec text) as [[[pre g] post]|]; [|discriminate].
  unfold parseReceipt_try.
  destruct (JSON_parse g) as [d|] eqn:PJ; [|discriminate].
  destruct d as [| | | | |ms]; try (cbn; discriminate).
  cbn [get Json.bind try_catch].
  destruct (Json.lookup (lit "type") ms) as [ty|] eqn:T;
    [|cbn; discriminate].
  assert (Ty : is_string (Some ty) (lit "order_complete")
               || is_string (Some ty) (lit "order_update") = true ->
               ty = JStr (lit "order_complete")
               \/ ty = JStr (lit "order_update")).
  { destruct ty as [| | |s| |]; cbn [is_string orb]; try discriminate.
    destruct (JsFacts.eqb_spec s (lit "order_complete")) as [->|_];
      [now left|].
    destruct (JsFacts.eqb_spec s (lit "order_update")) as [->|_];
      [now right|discriminate]. }
  destruct (is_string (Some ty) (lit "order_complete")
            || is_string (Some ty) (lit "order_update"));
    [|cbn; discriminate].
  destruct (Json.lookup (lit "items") ms) as [[| | | |items|]|] eqn:It;
    cbn [isArray]; try discriminate.
  intros [= <-]. exists pre, g, post, ms, items.
  repeat split; try assumption.
  destruct (Ty eq_refl) as [-> | ->]; auto.
Qed.

Definition one_receipt : jsstring :=
  qlit "Thanks! ```json {'type':'order_update','items':[]} ```".

Lemma parseReceipt_sound_witness :
  exists data pre g post ms items,
    parseReceipt parse_subset one_receipt = Some data /\
    RECEIPT_REGEX_exec one_receipt = Some (pre, g, post) /\
    parse_subset g = Some data /\
    data = JObj ms /\
    (Json.lookup (lit "type") ms = Some (JStr (lit "order_complete")) \/
     Json.lookup (lit "type") ms = Some (JStr (lit "order_update"))) /\
    Json.lookup (lit "items") ms = Some (JArr items).
Proof.
  assert (H : exists data, parseReceipt parse_subset one_receipt = Some data)
    by (eexists; vm_compute; reflexivity).
  destruct H as (data & H).
  destruct (parseReceipt_sound parse_subset one_receipt data H)
    as (pre & g & post & ms & items & R).
  exists data, pre, g, post, ms, items. exact (conj H R).
Defined.

(** X3: the text that [stripReceiptBlock] returns has no white space at
    either end and is never longer than its argument; it is at least twelve
    characters shorter when the text holds a fenced block, and it is the
    trimmed text when it holds none. *)
Theorem stripReceiptBlock_shape (text : jsstring) :
  trim (stripReceiptBlock text) = stripReceiptBlock text /\
  length (stripReceiptBlock text) <= length text /\
  (RECEIPT_REGEX_exec text = None -> stripReceiptBlock text = trim text) /\
  (RECEIPT_REGEX_exec text <> None ->
   length (stripReceiptBlock text) + 12 <= length text).
Proof.
  split; [apply stripReceiptBlock_trimmed|].
  assert (L : length (replace_first text) <= length text).
  { unfold replace_first.
    destruct (RECEIPT_REGEX_exec text) as [[[pre g] post]|] eqn:E; [|lia].
    apply regex_exec_length in E. rewrite length_app. lia. }
  pose proof (trim_length (replace_first text)) as T.
  unfold stripReceiptBlock. split; [lia|]. split.
  - intros E. now rewrite replace_first_no_match.
  - intros E. unfold replace_first in *.
    destruct (RECEIPT_REGEX_exec text) as [[[pre g] post]|] eqn:M;
      [|congruence].
    apply regex_exec_length in M. rewrite length_app in T. lia.
Qed.

(** ** [toApiMessages] *)

Definition api_of (m : ChatMessage) : ApiMessage :=
  (match m_role m with cashier => assistant | customer => user end,
   match m_rawContent m with Some raw => raw | None => m_content m end).

Lemma drop_leading_assistant_head (l : list ApiMessage) :
  match drop_leading_assistant l with
  | (assistant, _) :: _ => False
  | _ => True
  end.
Proof.
  induction l as [|[[] c] l IH]; simpl; auto.
Qed.

Lemma drop_leading_assistant_suffix (l : list ApiMessage) :
  exists k, drop_leading_assistant l = skipn k l.
Proof.
  induction l as [|[[] c] l (k & E)]; simpl.
  - now exists 0.
  - now exists 0.
  - exists (S k). exact E.
Qed.

Lemma drop_leading_assistant_snoc (l : list ApiMessage) (c : jsstring) :
  drop_leading_assistant (l ++ [(user, c)])
  = drop_leading_assistant l ++ [(user, c)].
Proof.
  induction l as [|[[] c'] l IH]; simpl; auto.
Qed.

Lemma toApiMessages_eq (messages : list ChatMessage) :
  toApiMessages messages
  = drop_leading_assistant
      (map api_of
         (filter (fun m => negb (msgid_eqb (m_id m) Greeting)) messages)).
Proof. reflexivity. Qed.

(** X4: the history that [toApiMessages] builds never begins with an
    assistant turn and is a suffix of the non-greeting messages in order
    (with the raw text of a message where it has one); with the customer's
    new message at the end, as [handleSend] calls it, it is the history of
    the earlier messages followed by that message as a user turn, so it is
    never empty. *)
Theorem toApiMessages_starts_with_user (messages : list ChatMessage)
  (text : jsstring) (now : N) :
  let userMsg := mkMsg (UserMsg now) customer text None None None None now in
  match toApiMessages messages with
  | (assistant, _) :: _ => False
  | _ => True
  end /\
  (exists k,
     toApiMessages messages
     = skipn k (map api_of
                  (filter (fun m => negb (msgid_eqb (m_id m) Greeting))
                          messages))) /\
  toApiMessages (messages ++ [userMsg])
    = toApiMessages messages ++ [(user, text)] /\
  exists c rest, toApiMessages (messages ++ [userMsg]) = (user, c) :: rest.
Proof.
  intros userMsg. rewrite !toApiMessages_eq.
  split; [apply drop_leading_assistant_head|].
  split; [apply drop_leading_assistant_suffix|].
  assert (E : drop_leading_assistant
                (map api_of
                   (filter (fun m => negb (msgid_eqb (m_id m) Greeting))
                           (messages ++ [userMsg])))
              = drop_leading_assistant
                  (map api_of
                     (filter (fun m => negb (msgid_eqb (m_id m) Greeting))
                             messages)) ++ [(user, text)]).
  { rewrite filter_app, map_app. cbn. apply drop_leading_assistant_snoc. }
  split; [exact E|]. rewrite E. clear E.
  pose proof (drop_leading_assistant_head
                (map api_of
                   (filter (fun m => negb (msgid_eqb (m_id m) Greeting))
                           messages))) as H.
  destruct (drop_leading_assistant _) as [|[[] c] rest]; simpl in *;
    [eauto|eauto|contradiction].
Qed.

End ReceiptMore.

(* ------------------------------------------------------------------ *)
(** * More on the playback adapter *)

Module TtsMore.
Import Js Tts TtsFacts.

(** An invocation of [speak] that has not settled its promise. *)
Definition in_flight (p : phase) : bool :=
  match p with Settled => false | _ => true end.

Definition keys (l : list (call_id * phase)) : list call_id := map fst l.

Definition reachable (s : state) : Prop :=
  exists es, s = fst (run init es).

(** Ids are handed out in order, and an invocation in flight is the one in
    [abortControllerRef] or has been aborted. *)
Definition wf (s : state) : Prop :=
  NoDup (keys (sessions s)) /\
  (forall c, In c (keys (sessions s)) -> c < next s) /\
  (forall c, In c (aborted s) -> c < next s) /\
  (forall c, abortControllerRef s = Some c -> c < next s) /\
  (forall c p, phase_of (sessions s) c = Some p -> in_flight p = true ->
     abortControllerRef s = Some c \/ is_aborted s c = true).

Lemma phase_of_in (l : list (call_id * phase)) (c : call_id) (p : phase) :
  phase_of l c = Some p -> In c (keys l).
Proof.
  induction l as [|[c' q] l IH]; simpl; [discriminate|].
  destruct (Nat.eqb_spec c c') as [->|]; [now left|].
  intros H. right. now apply IH.
Qed.

Lemma phase_of_none (l : list (call_id * phase)) (c : call_id) :
  ~ In c (keys l) -> phase_of l c = None.
Proof.
  intros H. destruct (phase_of l c) eqn:E; [|reflexivity].
  now apply phase_of_in in E.
Qed.

Lemma keys_set_phase (l : list (call_id * phase)) (c : call_id) (p : phase) :
  keys (set_phase l c p) = keys l.
Proof.
  induction l as [|[c' q] l IH]; simpl; [reflexivity|].
  destruct (Nat.eqb c c'); simpl; [reflexivity|now rewrite IH].
Qed.

Lemma phase_of_set_phase (l : list (call_id * phase)) (c c' : call_id)
  (p : phase) :
  phase_of (set_phase l c p) c' =
  if Nat.eqb c' c then option_map (fun _ => p) (phase_of l c)
  else phase_of l c'.
Proof.
  induction l as [|[k q] l IH]; simpl.
  - now destruct (Nat.eqb c' c).
  - destruct (Nat.eqb_spec c k) as [->|N]; simpl.
    + destruct (Nat.eqb_spec c' k) as [->|]; simpl; [|reflexivity].
      reflexivity.
    + destruct (Nat.eqb_spec c' k) as [->|N'].
      * destruct (Nat.eqb_spec k c); [congruence|reflexivity].
      * exact IH.
Qed.

Lemma keys_drop_session (l : list (call_id * phase)) (c k : call_id) :
  In k (keys (drop_session l c)) -> In k (keys l).
Proof.
  induction l as [|[c' q] l IH]; simpl; [tauto|].
  destruct (Nat.eqb c c'); simpl; intuition.
Qed.

Lemma NoDup_drop_session (l : list (call_id * phase)) (c : call_id) :
  NoDup (keys l) -> NoDup (keys (drop_session l c)).
Proof.
  induction l as [|[c' q] l IH]; simpl; intros H; [constructor|].
  inversion H as [|? ? Hn Hl]; subst.
  destruct (Nat.eqb c c'); simpl; [exact Hl|].
  constructor; [|now apply IH].
  intros HIn. apply Hn. now apply keys_drop_session in HIn.
Qed.

Lemma phase_of_drop_session (l : list (call_id * phase)) (c c' : call_id)
  (p : phase) :
  phase_of (drop_session l c) c' = Some p -> phase_of l c' = Some p \/
  (c' = c /\ In c (keys (drop_session l c))).
Proof.
  induction l as [|[k q] l IH]; simpl; [discriminate|].
  destruct (Nat.eqb_spec c k) as [->|N]; simpl.
  - intros H. destruct (Nat.eqb_spec c' k) as [->|]; [|now left].
    right. split; [reflexivity|]. now apply phase_of_in in H.
  - destruct (Nat.eqb_spec c' k) as [->|N']; [now left|].
    intros H. destruct (IH H) as [|[-> HIn]]; [now left|].
    right. split; [reflexivity|now right].
Qed.

Lemma drop_session_removes (l : list (call_id * phase)) (c : call_id) :
  NoDup (keys l) -> ~ In c (keys (drop_session l c)).
Proof.
  induction l as [|[k q] l IH]; simpl; intros H; [tauto|].
  inversion H as [|? ? Hn Hl]; subst.
  destruct (Nat.eqb_spec c k) as [->|N]; simpl; [exact Hn|].
  intros [E|HIn]; [congruence|]. now apply IH.
Qed.

Lemma phase_of_app (l : list (call_id * phase)) (c c' : call_id)
  (p : phase) :
  phase_of (l ++ [(c, p)]) c' =
  match phase_of l c' with
  | Some q => Some q
  | None => if Nat.eqb c' c then Some p else None
  end.
Proof.
  induction l as [|[k q] l IH]; simpl; [reflexivity|].
  now destruct (Nat.eqb c' k).
Qed.

Lemma is_aborted_cons (s : state) (c k : call_id) :
  existsb (Nat.eqb c) (k :: aborted s) = Nat.eqb c k || is_aborted s c.
Proof. reflexivity. Qed.

Lemma wf_init : wf init.
Proof.
  unfold wf, init, keys; simpl. repeat split; try constructor;
    try tauto; discriminate.
Qed.

Lemma wf_stop (s : state) : wf s -> wf (fst (stop s)).
Proof.
  intros (N & K & A & R & L). rewrite stop_state. unfold wf. cbn.
  repeat split; try assumption.
  - destruct (abortControllerRef s) as [c0|] eqn:E; [|exact A].
    intros c [<-|H]; [now apply R|now apply A].
  - discriminate.
  - intros c p H F. right. unfold is_aborted. cbn.
    destruct (L c p H F) as [E|E].
    + rewrite E. cbn. now rewrite Nat.eqb_refl.
    + destruct (abortControllerRef s); [|exact E].
      cbn. unfold is_aborted in E. rewrite E. apply orb_true_r.
Qed.

Lemma stop_next (s : state) : next (fst (stop s)) = next s.
Proof. now rewrite stop_state. Qed.

Lemma stop_ref (s : state) : abortControllerRef (fst (stop s)) = None.
Proof. now rewrite stop_state. Qed.

Lemma stop_sessions (s : state) : sessions (fst (stop s)) = sessions s.
Proof. now rewrite stop_state. Qed.

Lemma speak_eq (text : jsstring) (s : state) :
  speak text s =
  let s1 := fst (stop s) in
  let c := next s1 in
  if truthy (trim text) then
    (c,
     mkState true (audioRef s1) (Some c) (aborted s1)
             (sessions s1 ++ [(c, Fetching)]) (endTimers s1) (S c),
     snd (stop s) ++ [DoFetch c text])
  else
    (c,
     mkState (isSpeaking s1) (audioRef s1) (abortControllerRef s1)
             (aborted s1) (sessions s1) (endTimers s1) (S c),
     snd (stop s) ++ [Resolved c]).
Proof. unfold speak. now destruct (stop s). Qed.

Lemma wf_speak (text : jsstring) (s : state) :
  wf s -> wf (snd (fst (speak text s))).
Proof.
  intros W. apply wf_stop in W. rewrite speak_eq. cbv zeta.
  pose proof (stop_ref s) as Ref.
  set (s1 := fst (stop s)) in *.
  destruct W as (N & K & A & R & L).
  destruct (truthy (trim text)); cbn [fst snd]; unfold wf; cbn.
  - repeat split.
    + unfold keys. rewrite map_app. cbn.
      apply NoDup_app; [exact N|repeat constructor; simpl; tauto|].
      intros c Hc [<-|[]]. apply K in Hc. lia.
    + intros c. unfold keys. rewrite map_app, in_app_iff. cbn.
      intros [H|[<-|[]]]; [apply K in H|]; lia.
    + intros c H. apply A in H. lia.
    + intros c [= <-]. lia.
    + intros c p. rewrite phase_of_app.
      destruct (phase_of (sessions s1) c) as [q|] eqn:E.
      * intros [= <-] F. destruct (L c q E F) as [E'|E'];
          [congruence|now right].
      * destruct (Nat.eqb_spec c (next s1)) as [->|]; [|discriminate].
        now left.
  - repeat split; try assumption.
    + intros c H. apply K in H. lia.
    + intros c H. apply A in H. lia.
    + intros c H. apply R in H. lia.
Qed.

Lemma wf_finish (c : call_id) (s : state) : wf s -> wf (finish c s).
Proof.
  intros (N & K & A & R & L). unfold wf, finish. cbn.
  repeat split; try assumption.
  - now apply NoDup_drop_session.
  - intros k H. apply K. now apply keys_drop_session in H.
  - intros k p H F.
    destruct (phase_of_drop_session _ _ _ _ H) as [H'|[-> HIn]].
    + exact (L k p H' F).
    + exfalso. now apply (drop_session_removes (sessions s) c N).
Qed.

(** Changing the phase of an invocation in flight, or settling it. *)
Lemma wf_set_phase (c : call_id) (p : phase) (sp : bool)
  (au : option call_id) (tm : list call_id) (s : state) :
  wf s ->
  (forall q, phase_of (sessions s) c = Some q -> in_flight p = true ->
     in_flight q = true) ->
  wf (mkState sp au (abortControllerRef s) (aborted s)
              (set_phase (sessions s) c p) tm (next s)).
Proof.
  intros (N & K & A & R & L) Q. unfold wf. cbn.
  rewrite keys_set_phase. repeat split; try assumption.
  intros k q. rewrite phase_of_set_phase.
  destruct (Nat.eqb_spec k c) as [->|].
  - destruct (phase_of (sessions s) c) as [q0|] eqn:E; [|discriminate].
    cbn. intros [= <-] F. exact (L c q0 E (Q q0 eq_refl F)).
  - apply L.
Qed.

(** A change of [isSpeaking], [audioRef] or the pending timers. *)
Lemma wf_frame (sp : bool) (au : option call_id) (tm : list call_id)
  (s : state) :
  wf s ->
  wf (mkState sp au (abortControllerRef s) (aborted s) (sessions s) tm
              (next s)).
Proof. intros W. exact W. Qed.

Lemma wf_resolve_playback (c : call_id) (s : state) :
  wf s -> wf (fst (resolve_playback c s)).
Proof.
  intros W. unfold resolve_playback.
  destruct (phase_of (sessions s) c) as [[]|] eqn:E; cbn [fst];
    try exact (wf_frame _ _ _ s W).
  apply wf_set_phase; [exact W|]. discriminate.
Qed.

Lemma wf_step (s : state) (e : event) : wf s -> wf (fst (step s e)).
Proof.
  intros W. destruct e as [|text|c r|c r|c|c|c|c]; cbn [step].
  - now apply wf_stop.
  - pose proof (wf_speak text s W) as H.
    now destruct (speak text s) as [[k s'] o].
  - destruct (phase_of (sessions s) c) as [[]|] eqn:E; cbn [fst];
      try exact W.
    destruct (is_aborted s c); cbn [fst]; [now apply wf_finish|].
    destruct r; cbn [fst].
    + apply wf_set_phase; [exact W|]. intros q. rewrite E. now intros [= <-].
    + apply wf_finish. exact (wf_frame _ _ _ s W).
    + apply wf_finish. exact (wf_frame _ _ _ s W).
  - destruct (phase_of (sessions s) c) as [[]|] eqn:E; cbn [fst];
      try exact W.
    destruct (is_aborted s c); cbn [fst]; [now apply wf_finish|].
    destruct r; cbn [fst].
    + apply wf_set_phase; [exact W|]. intros q. rewrite E. now intros [= <-].
    + apply wf_finish. exact (wf_frame _ _ _ s W).
  - destruct (phase_of (sessions s) c) as [[]|]; cbn [fst];
      first [exact W | exact (wf_frame _ _ _ s W)].
  - destruct (existsb (Nat.eqb c) (endTimers s)); cbn [fst]; [|exact W].
    destruct (is_aborted s c); cbn [fst];
      [exact (wf_frame _ _ _ s W)|].
    apply wf_resolve_playback. exact (wf_frame _ _ _ s W).
  - destruct (phase_of (sessions s) c) as [[]|] eqn:E; cbn [fst];
      try exact W;
      pose proof (wf_resolve_playback c s W) as H;
      now destruct (resolve_playback c s).
  - destruct (phase_of (sessions s) c) as [[]|] eqn:E; cbn [fst];
      try exact W;
      pose proof (wf_resolve_playback c s W) as H;
      now destruct (resolve_playback c s).
Qed.

Lemma tts_run_cons (s : state) (e : event) (es : list event) :
  run s (e :: es) =
  (fst (run (fst (step s e)) es),
   snd (step s e) ++ snd (run (fst (step s e)) es)).
Proof.
  cbn [run]. destruct (step s e) as [s1 o1]. cbn.
  now destruct (run s1 es).
Qed.

Lemma wf_run (es : list event) (s : state) :
  wf s -> wf (fst (run s es)).
Proof.
  revert s; induction es as [|e es IH]; intros s W; [exact W|].
  rewrite tts_run_cons. cbn [fst]. apply IH. now apply wf_step.
Qed.

Lemma reachable_wf (s : state) : reachable s -> wf s.
Proof. intros (es & ->). apply wf_run, wf_init. Qed.

(** ** How often [onEnd] is called *)

Definition is_onEnd (o : out) : bool :=
  match o with CallOnEnd => true | _ => false end.

Definition count_onEnd (o : list out) : nat := length (filter is_onEnd o).

Definition is_speak_event (e : event) : bool :=
  match e with Speak _ => true | _ => false end.

Definition b2n (b : bool) : nat := if b then 1 else 0.

(** The invocations of [speak] in flight. *)
Definition live_in (l : list (call_id * phase)) : nat :=
  length (filter (fun x => in_flight (snd x)) l).

Definition live (s : state) : nat := live_in (sessions s).

Lemma live_set_phase (l : list (call_id * phase)) (c : call_id)
  (p q : phase) :
  phase_of l c = Some q ->
  live_in (set_phase l c p) + b2n (in_flight q)
  = live_in l + b2n (in_flight p).
Proof.
  unfold live_in. induction l as [|[k r] l IH]; simpl; [discriminate|].
  destruct (Nat.eqb c k); simpl.
  - intros [= ->]. destruct (in_flight q), (in_flight p); simpl; lia.
  - intros H. specialize (IH H). destruct (in_flight r); simpl; lia.
Qed.

Lemma live_drop_session (l : list (call_id * phase)) (c : call_id)
  (q : phase) :
  phase_of l c = Some q ->
  live_in (drop_session l c) + b2n (in_flight q) = live_in l.
Proof.
  unfold live_in. induction l as [|[k r] l IH]; simpl; [discriminate|].
  destruct (Nat.eqb c k); simpl.
  - intros [= ->]. destruct (in_flight q); simpl; lia.
  - intros H. specialize (IH H). destruct (in_flight r); simpl; lia.
Qed.

Lemma count_onEnd_stop (s : state) : count_onEnd (snd (stop s)) = 0.
Proof.
  rewrite stop_out. unfold count_onEnd.
  now destruct (abortControllerRef s), (audioRef s).
Qed.

Lemma count_onEnd_app (o o' : list out) :
  count_onEnd (o ++ o') = count_onEnd o + count_onEnd o'.
Proof. unfold count_onEnd. now rewrite filter_app, length_app. Qed.

Ltac budget_simpl :=
  unfold live, end_with_onEnd, finish;
  cbn [fst snd sessions];
  unfold count_onEnd;
  cbn [filter is_onEnd length app b2n in_flight Nat.add].

Ltac budget_by H := pose proof H as B; cbn [b2n in_flight] in B; lia.

Lemma resolve_playback_budget (c : call_id) (s : state) :
  count_onEnd (snd (resolve_playback c s))
  + live (fst (resolve_playback c s)) <= live s.
Proof.
  unfold resolve_playback.
  destruct (phase_of (sessions s) c) as [[]|] eqn:E; budget_simpl; try lia.
  budget_by (live_set_phase _ _ Settled _ E).
Qed.

(** Every call of [onEnd] ends an invocation that was in flight, and only
    [speak] starts one. *)
Lemma step_onEnd_budget (s : state) (e : event) :
  count_onEnd (snd (step s e)) + live (fst (step s e))
  <= live s + b2n (is_speak_event e).
Proof.
  destruct e as [|text|c r|c r|c|c|c|c]; cbn [step is_speak_event b2n].
  - rewrite count_onEnd_stop. unfold live. rewrite stop_sessions. lia.
  - pose proof (speak_eq text s) as E. cbv zeta in E.
    destruct (speak text s) as [[k s'] o]. cbn [fst snd].
    destruct (truthy (trim text)); injection E as -> -> ->;
      rewrite count_onEnd_app, count_onEnd_stop; unfold live;
      cbn [sessions]; rewrite ?stop_sessions; unfold live_in;
      rewrite ?filter_app, ?length_app; budget_simpl.
    all: simpl; lia.
  - destruct (phase_of (sessions s) c) as [[]|] eqn:E; budget_simpl;
      try lia.
    destruct (is_aborted s c); budget_simpl;
      [budget_by (live_drop_session _ _ _ E)|].
    destruct r; budget_simpl.
    + budget_by (live_set_phase _ _ ReadingBlob _ E).
    + budget_by (live_drop_session _ _ _ E).
    + budget_by (live_drop_session _ _ _ E).
  - destruct (phase_of (sessions s) c) as [[]|] eqn:E; budget_simpl;
      try lia.
    destruct (is_aborted s c); budget_simpl;
      [budget_by (live_drop_session _ _ _ E)|].
    destruct r; budget_simpl.
    + budget_by (live_set_phase _ _ Playing _ E).
    + budget_by (live_drop_session _ _ _ E).
  - destruct (phase_of (sessions s) c) as [[]|]; budget_simpl; lia.
  - destruct (existsb (Nat.eqb c) (endTimers s)); [|budget_simpl; lia].
    destruct (is_aborted s c); [budget_simpl; lia|].
    match goal with
    | |- context [resolve_playback c ?s1] =>
        pose proof (resolve_playback_budget c s1) as H
    end.
    unfold live in *. cbn [sessions] in H. lia.
  - pose proof (resolve_playback_budget c s) as H.
    destruct (phase_of (sessions s) c) as [[]|] eqn:E;
      try (budget_simpl; lia);
      destruct (resolve_playback c s) as [s' o]; cbn [fst snd] in *;
      unfold count_onEnd in *; cbn [filter is_onEnd]; lia.
  - pose proof (resolve_playback_budget c s) as H.
    destruct (phase_of (sessions s) c) as [[]|] eqn:E;
      try (budget_simpl; lia);
      destruct (resolve_playback c s) as [s' o]; cbn [fst snd] in *;
      unfold count_onEnd in *; cbn [filter is_onEnd]; lia.
Qed.

(** X8: in any sequence of events, [onEnd] is called at most once for each
    invocation of [speak]: at most as often as there were invocations in
    flight at the start plus calls of [speak] in the sequence. *)
Theorem onEnd_at_most_once_per_speak (s : state) (es : list event) :
  count_onEnd (snd (run s es))
  <= live s + length (filter is_speak_event es).
Proof.
  assert (H : count_onEnd (snd (run s es)) + live (fst (run s es))
              <= live s + length (filter is_speak_event es));
    [|lia].
  revert s; induction es as [|e es IH]; intros s; [cbn; lia|].
  rewrite tts_run_cons. cbn [fst snd]. rewrite count_onEnd_app.
  pose proof (step_onEnd_budget s e) as B.
  specialize (IH (fst (step s e))).
  cbn [filter]. destruct (is_speak_event e); cbn in *; lia.
Qed.

(** X5: [speak] of a text that is blank stops what is playing like
    [stop()], requests nothing and returns at once: no invocation is added,
    [isSpeaking] and both refs are cleared, and [onEnd] is not called. *)
Theorem speak_blank (text : jsstring) (s : state) :
  trim text = [] ->
  speak text s
  = (next s,
     mkState false None None (aborted (fst (stop s))) (sessions s)
             (endTimers s) (S (next s)),
     snd (stop s) ++ [Resolved (next s)]) /\
  count_onEnd (snd (speak text s)) = 0.
Proof.
  intros E. assert (Sp := speak_eq text s). cbv zeta in Sp.
  rewrite E in Sp. cbn [truthy] in Sp. rewrite Sp. split.
  - rewrite !stop_state. reflexivity.
  - cbn [snd]. rewrite count_onEnd_app, count_onEnd_stop. reflexivity.
Qed.

Lemma speak_blank_witness :
  trim (lit "  ") = [] /\
  count_onEnd (snd (speak (lit "  ") (fst (run init [Speak (lit "Hi")]))))
    = 0.
Proof.
  assert (H : trim (lit "  ") = []) by reflexivity.
  exact (conj H (proj2 (speak_blank (lit "  ")
                          (fst (run init [Speak (lit "Hi")])) H))).
Defined.

(** X7: in every state reached from the initial one, an invocation of
    [speak] that is in flight and not aborted is the one whose controller
    [abortControllerRef] holds; so at most one such invocation exists. *)
Theorem one_playback_in_flight (s : state) (c c' : call_id)
  (p p' : phase) :
  reachable s ->
  phase_of (sessions s) c = Some p -> in_flight p = true ->
  is_aborted s c = false ->
  phase_of (sessions s) c' = Some p' -> in_flight p' = true ->
  is_aborted s c' = false ->
  abortControllerRef s = Some c /\ c = c'.
Proof.
  intros R H F A H' F' A'.
  destruct (reachable_wf s R) as (_ & _ & _ & _ & L).
  destruct (L c p H F) as [E|E]; [|congruence].
  destruct (L c' p' H' F') as [E'|E']; [|congruence].
  split; [exact E|congruence].
Qed.

Definition second_speak : state :=
  fst (run init [Speak (lit "Hello"); FetchSettled 0 RespOk;
                 Speak (lit "Goodbye")]).

Lemma one_playback_in_flight_witness :
  reachable second_speak /\
  phase_of (sessions second_speak) 0 = Some ReadingBlob /\
  is_aborted second_speak 0 = true /\
  phase_of (sessions second_speak) 1 = Some Fetching /\
  abortControllerRef second_speak = Some 1.
Proof.
  assert (R : reachable second_speak) by (eexists; reflexivity).
  assert (H : phase_of (sessions second_speak) 1 = Some Fetching)
    by reflexivity.
  assert (A : is_aborted second_speak 1 = false) by reflexivity.
  split; [exact R|]. split; [reflexivity|]. split; [reflexivity|].
  split; [exact H|].
  exact (proj1 (one_playback_in_flight second_speak 1 1 Fetching Fetching
                  R H eq_refl A H eq_refl A)).
Defined.

Lemma phase_of_set_same (l : list (call_id * phase)) (c : call_id)
  (p q : phase) :
  phase_of l c = Some q -> phase_of (set_phase l c p) c = Some p.
Proof. intros H. now rewrite phase_of_set_phase, Nat.eqb_refl, H. Qed.

Lemma natural_path (s : state) (c : call_id) :
  phase_of (sessions s) c = Some Fetching ->
  is_aborted s c = false ->
  let played :=
    run s [FetchSettled c RespOk; BlobSettled c BlobOk; AudioEnded c] in
  snd played = [DoPlay c; DoSetTimeout c 400] /\
  isSpeaking (fst played) = isSpeaking s /\
  audioRef (fst played) = Some c /\
  snd (step (fst played) (EndTimer c)) = [CallOnEnd; Resolved c] /\
  isSpeaking (fst (step (fst played) (EndTimer c))) = false /\
  audioRef (fst (step (fst played) (EndTimer c))) = None.
Proof.
  intros Ph Ab. unfold is_aborted in Ab. cbv zeta.
  pose proof (phase_of_set_same _ c ReadingBlob _ Ph) as Ph1.
  pose proof (phase_of_set_same _ c Playing _ Ph1) as Ph2.
  pose proof (phase_of_set_same _ c Settled _ Ph2) as Ph3.
  cbn [run step]. rewrite Ph. unfold is_aborted. rewrite Ab.
  cbn [fst snd sessions aborted]. rewrite Ph1, Ab.
  cbn [fst snd sessions aborted]. rewrite Ph2.
  cbn [fst snd sessions aborted endTimers app isSpeaking audioRef existsb].
  rewrite Nat.eqb_refl. cbn [orb]. rewrite Ab.
  unfold resolve_playback. cbn [sessions]. rewrite Ph2.
  cbn. repeat split.
Qed.

(** X6: from every reachable state, [speak] of a text that is not blank,
    followed by the response, the audio data and the end of the audio,
    fetches, plays and sets the 400 ms timeout without calling [onEnd],
    with [isSpeaking] true; [onEnd] is called, once, when that timeout
    fires, and [isSpeaking] and [audioRef] are cleared then. *)
Theorem onEnd_after_trailing_buffer (s : state) (text : jsstring) :
  reachable s ->
  truthy (trim text) = true ->
  let c := next s in
  let played :=
    run s [Speak text; FetchSettled c RespOk; BlobSettled c BlobOk;
           AudioEnded c] in
  snd played
    = snd (stop s) ++ [DoFetch c text; DoPlay c; DoSetTimeout c 400] /\
  isSpeaking (fst played) = true /\
  audioRef (fst played) = Some c /\
  snd (step (fst played) (EndTimer c)) = [CallOnEnd; Resolved c] /\
  isSpeaking (fst (step (fst played) (EndTimer c))) = false /\
  audioRef (fst (step (fst played) (EndTimer c))) = None.
Proof.
  intros R T. destruct (wf_stop s (reachable_wf s R)) as (N & K & A & _).
  rewrite stop_next in *. rewrite stop_sessions in *.
  assert (Sp := speak_eq text s). cbv zeta in Sp. rewrite T in Sp.
  rewrite stop_next, stop_sessions in Sp.
  set (s1 := mkState true (audioRef (fst (stop s))) (Some (next s))
                     (aborted (fst (stop s)))
                     (sessions s ++ [(next s, Fetching)])
                     (endTimers (fst (stop s))) (S (next s))) in *.
  assert (Ab : is_aborted s1 (next s) = false).
  { unfold is_aborted, s1. cbn [aborted].
    destruct (existsb (Nat.eqb (next s)) (aborted (fst (stop s)))) eqn:E;
      [|reflexivity].
    apply existsb_exists in E. destruct E as (k & HIn & E).
    apply Nat.eqb_eq in E. subst k. apply A in HIn. lia. }
  assert (Ph : phase_of (sessions s1) (next s) = Some Fetching).
  { unfold s1. cbn [sessions]. rewrite phase_of_app, Nat.eqb_refl.
    rewrite phase_of_none; [reflexivity|]. intros H. apply K in H. lia. }
  destruct (natural_path s1 (next s) Ph Ab) as (H1 & H2 & H3 & H4 & H5 & H6).
  cbv zeta. rewrite tts_run_cons. cbn [step]. rewrite Sp. cbn [fst snd].
  rewrite H1, <- app_assoc. repeat split; assumption.
Qed.

Lemma onEnd_after_trailing_buffer_witness :
  reachable init /\
  truthy (trim (lit "Hello")) = true /\
  snd (step (fst (run init [Speak (lit "Hello"); FetchSettled 0 RespOk;
                            BlobSettled 0 BlobOk; AudioEnded 0]))
            (EndTimer 0))
    = [CallOnEnd; Resolved 0].
Proof.
  assert (R : reachable init) by (exists []; reflexivity).
  assert (T : truthy (trim (lit "Hello")) = true) by (vm_compute; reflexivity).
  split; [exact R|]. split; [exact T|].
  exact (proj1 (proj2 (proj2 (proj2
           (onEnd_after_trailing_buffer init (lit "Hello") R T))))).
Defined.

End TtsMore.

(* ------------------------------------------------------------------ *)
(** * The capture hook over a whole session *)

Module SpeechMore.
Import Js Speech JsFacts.

(** The events of the recognition instances, handled in order. *)
Fixpoint run (s : state) (es : list event) : state * list out :=
  match es with
  | [] => (s, [])
  | e :: es' =>
      let '(s1, o1) := step s e in
      let '(s2, o2) := run s1 es' in
      (s2, o1 ++ o2)
  end.

(** The text of the final, and of the interim, results of one [onresult]
    event, in order. *)
Definition finals (results : list result) : jsstring :=
  concat (map snd (filter fst results)).

Definition interims (results : list result) : jsstring :=
  concat (map snd (filter (fun r => negb (fst r)) results)).

(** What a session has heard for good: the final results of all its
    [onresult] events. *)
Definition heard (es : list event) : jsstring :=
  concat (map (fun e => match e with
                        | OnResult results => finals results
                        | _ => []
                        end) es).

Definition is_end (e : event) : bool :=
  match e with OnEnd => true | _ => false end.

Definition is_final (o : out) : bool :=
  match o with FinalTranscript _ => true | _ => false end.

Lemma collect_eq (results : list result) :
  collect results = (finals results, interims results).
Proof.
  unfold finals, interims.
  induction results as [|[b t] l IH]; cbn; [reflexivity|].
  rewrite IH. now destruct b.
Qed.

Lemma append_if_truthy (a f : jsstring) :
  (if truthy f then a ++ f else a) = a ++ f.
Proof. destruct f; cbn; [now rewrite app_nil_r|reflexivity]. Qed.

Lemma speech_run_cons (s : state) (e : event) (es : list event) :
  run s (e :: es)
  = (fst (run (fst (step s e)) es),
     snd (step s e) ++ snd (run (fst (step s e)) es)).
Proof.
  cbn [run]. destruct (step s e) as [s1 o1]. cbn [fst snd].
  now destruct (run s1 es).
Qed.

(** Until [onend], a session accumulates the final results and delivers
    nothing. *)
Lemma run_accumulates (es : list event) (s : state) :
  forallb (fun e => negb (is_end e)) es = true ->
  finalTranscriptRef (fst (run s es)) = finalTranscriptRef s ++ heard es /\
  isSupported (fst (run s es)) = isSupported s /\
  filter is_final (snd (run s es)) = [].
Proof.
  revert s. induction es as [|e es IH]; intros s F.
  - cbn. now rewrite app_nil_r.
  - cbn [forallb] in F. apply andb_prop in F. destruct F as [E F].
    rewrite speech_run_cons. cbn [fst snd]. rewrite filter_app.
    destruct (IH (fst (step s e)) F) as (H1 & H2 & H3).
    rewrite H1, H2, H3. unfold heard. cbn [map concat]. fold (heard es).
    destruct e; try discriminate E; cbn [step].
    + now cbn.
    + rewrite collect_eq, append_if_truthy. cbn. now rewrite app_assoc.
    + now cbn.
Qed.

(** X9: a capture session, from [startListening] to its [onend], delivers
    nothing before [onend]; at [onend] it delivers the final results of its
    own [onresult] events, concatenated in order and trimmed, when that
    text is not blank, and nothing otherwise.  Interim results, the text
    of an earlier session and an [onerror] in between change nothing in
    what is delivered. *)
Theorem session_delivers_finals (s : state) (es : list event) :
  isSupported s = true ->
  forallb (fun e => negb (is_end e)) es = true ->
  let started := fst (startListening s) in
  let ended := step (fst (run started es)) OnEnd in
  filter is_final (snd (run started es)) = [] /\
  snd ended
    = (if truthy (trim (heard es)) then [FinalTranscript (trim (heard es))]
       else []) /\
  isListening (fst ended) = false /\
  recognitionRef (fst ended) = None /\
  transcript (fst ended) = [].
Proof.
  intros S F. cbv zeta. unfold startListening. rewrite S. cbn [fst].
  match goal with
  | |- context [run ?s1 es] =>
      destruct (run_accumulates es s1 F) as (H1 & _ & H3)
  end.
  cbn [finalTranscriptRef] in H1. cbn [app] in H1.
  split; [exact H3|]. cbn [step fst snd]. rewrite H1. now repeat split.
Qed.

Definition latte_session : list event :=
  [OnStart;
   OnResult [(false, lit "a lar")];
   OnResult [(true, lit " a large "); (false, lit "lat")];
   OnError;
   OnResult [(true, lit "latte ")]].

Lemma session_delivers_finals_witness :
  isSupported (init true) = true /\
  forallb (fun e => negb (is_end e)) latte_session = true /\
  snd (step (fst (run (fst (startListening (init true))) latte_session))
            OnEnd)
    = [FinalTranscript (lit "a large latte")].
Proof.
  assert (S : isSupported (init true) = true) by reflexivity.
  assert (F : forallb (fun e => negb (is_end e)) latte_session = true)
    by reflexivity.
  split; [exact S|]. split; [exact F|].
  exact (proj1 (proj2 (session_delivers_finals (init true) latte_session
                         S F))).
Defined.

(** X10: what the hook passes to [onFinalTranscript] is never blank and
    has no white space at either end, in whatever state and at whatever
    event: the check [text.trim()] of the receiver never fails on it. *)
Theorem final_transcript_trimmed (s : state) (e : event) (t : jsstring) :
  In (FinalTranscript t) (snd (step s e)) ->
  truthy t = true /\ trim t = t.
Proof.
  destruct e; cbn [step snd]; try (intros []; fail).
  - destruct (collect results). cbn. intros [].
  - destruct (truthy (trim (finalTranscriptRef s))) eqn:T; cbn.
    + intros [[= <-]|[]]. split; [exact T|apply trim_idem].
    + intros [].
  - cbn. intros [H|[]]. discriminate H.
Qed.

Definition padded_state : state :=
  mkState true true (lit " oat milk ") (Some 0) (lit " oat milk ") 1.

Lemma final_transcript_trimmed_witness :
  In (FinalTranscript (lit "oat milk")) (snd (step padded_state OnEnd)) /\
  truthy (lit "oat milk") = true /\
  trim (lit "oat milk") = lit "oat milk".
Proof.
  assert (H : In (FinalTranscript (lit "oat milk"))
                 (snd (step padded_state OnEnd)))
    by (vm_compute; left; reflexivity).
  split; [exact H|].
  exact (final_transcript_trimmed padded_state OnEnd (lit "oat milk") H).
Defined.

(** X11: while a session runs, the transcript on display after an
    [onresult] event is the final text accumulated so far followed by the
    interim text of that event alone: interim text of earlier events is
    replaced, final text is kept. *)
Theorem transcript_shows_finals_then_interim (s : state)
  (es : list event) (results : list result) :
  forallb (fun e => negb (is_end e)) es = true ->
  transcript (fst (run s (es ++ [OnResult results])))
  = finalTranscriptRef s ++ heard es ++ finals results ++ interims results.
Proof.
  intros F. revert s. induction es as [|e es IH]; intros s.
  - cbn [app run step]. rewrite collect_eq, append_if_truthy. cbn.
    now rewrite app_assoc.
  - cbn [forallb] in F. apply andb_prop in F. destruct F as [E F].
    rewrite <- app_comm_cons, speech_run_cons. cbn [fst].
    rewrite (IH F). unfold heard. cbn [map concat]. fold (heard es).
    destruct e; try discriminate E; cbn [step fst finalTranscriptRef].
    + reflexivity.
    + rewrite collect_eq, append_if_truthy. cbn [fst finalTranscriptRef].
      now rewrite <- !app_assoc.
    + reflexivity.
Qed.

Lemma transcript_shows_finals_then_interim_witness :
  forallb (fun e => negb (is_end e))
          [OnStart; OnResult [(false, lit "a lar")];
           OnResult [(true, lit "a large ")]] = true /\
  transcript (fst (run (fst (startListening (init true)))
                       ([OnStart; OnResult [(false, lit "a lar")];
                         OnResult [(true, lit "a large ")]]
                        ++ [OnResult [(false, lit "lat")]])))
  = lit "a large lat".
Proof.
  assert (F : forallb (fun e => negb (is_end e))
                [OnStart; OnResult [(false, lit "a lar")];
                 OnResult [(true, lit "a large ")]] = true) by reflexivity.
  split; [exact F|].
  exact (transcript_shows_finals_then_interim
           (fst (startListening (init true))) _
           [(false, lit "lat")] F).
Defined.

End SpeechMore.

(* ------------------------------------------------------------------ *)
(** * Order numbers, read-back and partial failure of the gateway *)

Module OrderMore.
Import Js Json OrderService OrderFacts BaristaService.

(** Only the read of the latest order number fails. *)
Definition number_read_fails : faults := mkFaults true false false.

(** The order [o] with another status. *)
Definition with_status (o : Order) (status : OrderStatus) : Order :=
  mkOrder (o_id o) (o_order_number o) (o_customer_name o) status
          (o_total_price o) (o_created_at o) (o_started_at o)
          (o_completed_at o).

Lemma latest_order_number_bound (l : list Order) :
  match latest_order_number l with
  | Some m => Forall (fun o => (o_order_number o <= m)%Z) l
  | None => l = []
  end.
Proof.
  induction l as [|o l IH]; cbn; [reflexivity|].
  destruct (latest_order_number l) as [m|].
  - constructor; [lia|].
    eapply Forall_impl; [|exact IH]. cbn. intros a H. lia.
  - subst l. constructor; [lia|constructor].
Qed.

Lemma latest_order_number_snoc (l : list Order) (o : Order) :
  latest_order_number (l ++ [o])
  = Some (match latest_order_number l with
          | Some m => Z.max m (o_order_number o)
          | None => o_order_number o
          end).
Proof.
  induction l as [|a l IH]; cbn; [reflexivity|].
  rewrite IH. destruct (latest_order_number l) as [m|]; f_equal; lia.
Qed.

Lemma find_snoc_fresh (l : list Order) (o : Order) (k : uuid) :
  find (fun a => (o_id a =? k)%N) l = None ->
  find (fun a => (o_id a =? k)%N) (l ++ [o])
  = if (o_id o =? k)%N then Some o else None.
Proof.
  induction l as [|a l IH]; cbn; [reflexivity|].
  destruct (o_id a =? k)%N; [discriminate|exact IH].
Qed.

Lemma find_snoc_other (l : list Order) (o : Order) (k : uuid) :
  o_id o <> k ->
  find (fun a => (o_id a =? k)%N) (l ++ [o])
  = find (fun a => (o_id a =? k)%N) l.
Proof.
  intros H. induction l as [|a l IH]; cbn.
  - now destruct (N.eqb_spec (o_id o) k).
  - now rewrite IH.
Qed.

Lemma items_with_ids_of (first orderId other : uuid)
  (items : list ReceiptItem) :
  filter (fun i => (n_order_id (i_row i) =? other)%N)
         (with_ids first (toItemRows orderId items))
  = if (orderId =? other)%N then with_ids first (toItemRows orderId items)
    else [].
Proof.
  pose proof (with_ids_order_id first orderId _
                (toItemRows_order_id orderId items)) as H.
  destruct (N.eqb_spec orderId other) as [E|E].
  - apply filter_all. eapply Forall_impl; [|exact H]. cbn.
    intros a ->. now apply N.eqb_eq.
  - apply filter_none. eapply Forall_impl; [|exact H]. cbn.
    intros a ->. now apply N.eqb_neq.
Qed.

(** The order numbers of the store are below 2^53 in magnitude, where
    every integer is a JavaScript number and adding 1 is exact; [below b]
    bounds them by [b]. *)
Definition below (b : Z) (d : db) : Prop :=
  Forall (fun o => (- JsNumber.two53 < o_order_number o < b)%Z) (orders d).

Lemma latest_order_number_below (b : Z) (d : db) (m : Z) :
  below b d -> latest_order_number (orders d) = Some m ->
  (- JsNumber.two53 < m < b)%Z.
Proof.
  unfold below. generalize (orders d) as l. intros l. revert m.
  induction l as [|o l IH]; intros m F; cbn [latest_order_number];
    [discriminate|].
  inversion F as [|? ? Ho Hl]; subst.
  destruct (latest_order_number l) as [k|].
  - intros [= <-]. specialize (IH k Hl eq_refl). lia.
  - now intros [= <-].
Qed.

(** The number that [saveOrder] computes, in a store with numbers below
    2^53 in magnitude. *)
Lemma next_number_exact (d : db) :
  below JsNumber.two53 d ->
  JsNumber.add (match latest_order_number (orders d) with
                | Some n => JsNumber.round n
                | None => 0%Z
                end) 1
  = (match latest_order_number (orders d) with
     | Some n => n
     | None => 0
     end + 1)%Z.
Proof.
  intros B. destruct (latest_order_number (orders d)) as [m|] eqn:E.
  - apply JsNumberFacts.add_one_exact.
    pose proof (latest_order_number_below _ d m B E). lia.
  - reflexivity.
Qed.

(** X12: in a store whose order numbers are below 2^53 in magnitude, the
    number [saveOrder] gives a new order is above the number of every
    order in the store, and is 1 in an empty store.  The error of the read
    of the latest number is not looked at: when only that read fails the
    order is saved all the same, with number 1, whatever the store
    holds. *)
Theorem saveOrder_order_number (receipt : OrderReceipt) (d : db) :
  below JsNumber.two53 d ->
  (exists d' order items,
     saveOrder no_faults receipt d = (d', Ok (order, items)) /\
     Forall (fun o => (o_order_number o < o_order_number order)%Z)
            (orders d) /\
     (orders d = [] -> o_order_number order = 1%Z)) /\
  (exists d' order items,
     saveOrder number_read_fails receipt d = (d', Ok (order, items)) /\
     orders d' = orders d ++ [order] /\
     o_order_number order = 1%Z).
Proof.
  intros B. split.
  - eexists _, _, _. split; [apply saveOrder_no_faults|].
    cbn [o_order_number]. rewrite (next_number_exact d B). split.
    + pose proof (latest_order_number_bound (orders d)) as Bd.
      destruct (latest_order_number (orders d)) as [m|].
      * eapply Forall_impl; [|exact Bd]. cbn. intros a H. lia.
      * rewrite Bd. constructor.
    + now intros ->.
  - eexists _, _, _. split; [reflexivity|]. now split.
Qed.

(** X13: two orders saved one after the other, in a store whose order
    numbers are below 2^53 - 1 in magnitude, get consecutive numbers and
    different ids. *)
Theorem saveOrder_consecutive (r1 r2 : OrderReceipt) (d : db) :
  below (JsNumber.two53 - 1) d ->
  exists d1 o1 i1 d2 o2 i2,
    saveOrder no_faults r1 d = (d1, Ok (o1, i1)) /\
    saveOrder no_faults r2 d1 = (d2, Ok (o2, i2)) /\
    o_order_number o2 = (o_order_number o1 + 1)%Z /\
    o_id o2 <> o_id o1.
Proof.
  intros B.
  assert (B0 : below JsNumber.two53 d).
  { eapply Forall_impl; [|exact B]. cbn beta. intros a H. lia. }
  eexists _, _, _, _, _, _.
  split; [apply saveOrder_no_faults|].
  split; [apply saveOrder_no_faults|].
  cbn [o_order_number o_id orders next_uuid]. split; [|lia].
  rewrite latest_order_number_snoc. cbn [o_order_number].
  rewrite (next_number_exact d B0).
  pose proof (latest_order_number_bound (orders d)) as Bd.
  destruct (latest_order_number (orders d)) as [m|] eqn:E.
  - pose proof (latest_order_number_below _ d m B E) as R.
    replace (Z.max m (m + 1)) with (m + 1)%Z by lia.
    apply JsNumberFacts.add_one_exact. lia.
  - reflexivity.
Qed.

(** X14: in a store where the id that the store gives next is not in use,
    an order saved without a failed request reads back as it was saved: the
    order found under the returned id is the returned order, it is new,
    with the customer name and the total of the receipt, its items are the
    returned items, which are the rows made from the items of the receipt,
    and every other order and its items are as before. *)
Theorem saveOrder_reads_back (receipt : OrderReceipt) (d : db) :
  find_order d (next_uuid d) = None ->
  items_of d (next_uuid d) = [] ->
  exists d' order items,
    saveOrder no_faults receipt d = (d', Ok (order, items)) /\
    find_order d' (o_id order) = Some order /\
    o_status order = status_new /\
    o_customer_name order = r_customer_name receipt /\
    o_total_price order = r_total_price receipt /\
    items_of d' (o_id order) = items /\
    map i_row items = toItemRows (o_id order) (r_items receipt) /\
    (forall other, other <> o_id order ->
       find_order d' other = find_order d other /\
       items_of d' other = items_of d other).
Proof.
  intros F I. eexists _, _, _. split; [apply saveOrder_no_faults|].
  cbn [o_id o_status o_customer_name o_total_price].
  unfold find_order, items_of in *. cbn [orders order_items].
  split; [rewrite (find_snoc_fresh _ _ _ F); cbn; now rewrite N.eqb_refl|].
  do 3 (split; [reflexivity|]).
  split; [rewrite filter_app, I, items_with_ids_of, N.eqb_refl;
          reflexivity|].
  split; [apply with_ids_rows|].
  intros other O. split.
  - apply find_snoc_other. cbn. congruence.
  - rewrite filter_app, items_with_ids_of.
    destruct (N.eqb_spec (next_uuid d) other) as [E|E]; [congruence|].
    apply app_nil_r.
Qed.

Definition flat_white : ReceiptItem :=
  mkReceiptItem (lit "Flat White") (lit "small") (lit "hot")
                (Some (lit "whole")) (lit "regular") (lit "none") []
                (9 # 2)%Q None.

Definition cold_brew : ReceiptItem :=
  mkReceiptItem (lit "Cold Brew") (lit "large") (lit "iced") None
                (lit "none") (lit "light")
                [mkReceiptAddOn (lit "Vanilla") 2%Q (1 # 2)%Q] (6 # 1)%Q
                (Some (lit "extra cold")).

(** Order 17, a flat white, placed and not started; order 16, ready. *)
Definition counter_db : db :=
  mkDb [mkOrder 3%N 16%Z None status_completed (6 # 1)%Q 50%N (Some 60%N)
                (Some 70%N);
        mkOrder 4%N 17%Z (Some (lit "Kim")) status_new (9 # 2)%Q 80%N None
                None]
       (with_ids 10%N (toItemRows 3%N [cold_brew])
        ++ with_ids 11%N (toItemRows 4%N [flat_white]))
       12%N 90%N.

Definition kim_again : OrderReceipt :=
  mkOrderReceipt order_complete (Some (lit "Kim")) [cold_brew; flat_white]
                 (21 # 2)%Q.

Lemma saveOrder_reads_back_witness :
  find_order counter_db (next_uuid counter_db) = None /\
  items_of counter_db (next_uuid counter_db) = [] /\
  exists d' order items,
    saveOrder no_faults kim_again counter_db = (d', Ok (order, items)) /\
    find_order d' (o_id order) = Some order /\
    items_of d' (o_id order) = items.
Proof.
  assert (F : find_order counter_db (next_uuid counter_db) = None)
    by (vm_compute; reflexivity).
  assert (I : items_of counter_db (next_uuid counter_db) = [])
    by (vm_compute; reflexivity).
  split; [exact F|]. split; [exact I|].
  destruct (saveOrder_reads_back kim_again counter_db F I)
    as (d' & order & items & S & Fo & _ & _ & _ & It & _).
  exists d', order, items. auto.
Defined.

Lemma counter_db_below : below (JsNumber.two53 - 1) counter_db.
Proof.
  unfold below, counter_db, JsNumber.two53. cbn [orders].
  repeat (constructor; [cbn [o_order_number]; lia|]). constructor.
Qed.

Lemma saveOrder_order_number_witness :
  below JsNumber.two53 counter_db /\
  exists d' order items,
    saveOrder no_faults kim_again counter_db = (d', Ok (order, items)) /\
    Forall (fun o => (o_order_number o < o_order_number order)%Z)
           (orders counter_db).
Proof.
  assert (B : below JsNumber.two53 counter_db).
  { eapply Forall_impl; [|exact counter_db_below]. cbn beta.
    intros a H. lia. }
  split; [exact B|].
  destruct (saveOrder_order_number kim_again counter_db B)
    as ((d' & order & items & S & F & _) & _).
  exists d', order, items. auto.
Defined.

Lemma saveOrder_consecutive_witness :
  below (JsNumber.two53 - 1) counter_db /\
  exists d1 o1 i1 d2 o2 i2,
    saveOrder no_faults kim_again counter_db = (d1, Ok (o1, i1)) /\
    saveOrder no_faults kim_again d1 = (d2, Ok (o2, i2)) /\
    o_order_number o2 = (o_order_number o1 + 1)%Z.
Proof.
  split; [exact counter_db_below|].
  destruct (saveOrder_consecutive kim_again kim_again counter_db
              counter_db_below)
    as (d1 & o1 & i1 & d2 & o2 & i2 & S1 & S2 & E & _).
  exists d1, o1, i1, d2, o2, i2. auto.
Defined.

(** Beyond that bound the number repeats: in a store whose latest order
    number is 2^53, the new order gets 2^53 again. *)
Lemma saveOrder_number_repeats (receipt : OrderReceipt) :
  let d := mkDb [mkOrder 1%N JsNumber.two53 None status_new (4 # 1)%Q 10%N
                         None None] [] 2%N 20%N in
  exists d' order items,
    saveOrder no_faults receipt d = (d', Ok (order, items)) /\
    o_order_number order = JsNumber.two53.
Proof.
  cbv zeta. eexists _, _, _. split; [apply saveOrder_no_faults|].
  cbn [o_order_number orders latest_order_number].
  apply JsNumberFacts.add_one_at_two53.
Qed.

(** X15: [updateOrder] is not atomic.  When the first request fails the
    store is as before.  When the delete fails, the order already has the
    new total and still has its old items.  When the insert fails, the
    order has the new total and no items at all.  In each case the error
    of the failed request is thrown and the items of other orders are as
    before. *)
Theorem updateOrder_partial_failure (d : db) (orderId : uuid)
  (items : list ReceiptItem) (newTotal : number) (o : Order) :
  find_order d orderId = Some o ->
  updateOrder (mkFaults true false false) orderId items newTotal d
    = (d, Err FailedToUpdateOrder) /\
  (exists d',
     updateOrder (mkFaults false true false) orderId items newTotal d
       = (d', Err FailedToDeleteOrderItems) /\
     find_order d' orderId = Some (with_total o newTotal) /\
     order_items d' = order_items d) /\
  (exists d',
     updateOrder (mkFaults false false true) orderId items newTotal d
       = (d', Err FailedToInsertUpdatedItems) /\
     find_order d' orderId = Some (with_total o newTotal) /\
     items_of d' orderId = [] /\
     forall other, other <> orderId -> items_of d' other = items_of d other).
Proof.
  intros F. split; [reflexivity|]. split.
  - eexists. split; [reflexivity|]. split; [|reflexivity].
    unfold find_order in *. cbn [orders update_total].
    exact (find_update_total _ _ newTotal _ F).
  - eexists. split; [reflexivity|]. split; [|split].
    + unfold find_order in *. cbn [orders update_total delete_items].
      exact (find_update_total _ _ newTotal _ F).
    + unfold items_of. cbn [order_items update_total delete_items].
      now rewrite filter_after_delete, N.eqb_refl.
    + intros other O. unfold items_of.
      cbn [order_items update_total delete_items].
      rewrite filter_after_delete.
      now destruct (N.eqb_spec other orderId).
Qed.

Lemma updateOrder_partial_failure_witness :
  exists o,
    find_order counter_db 4%N = Some o /\
    exists d',
      updateOrder (mkFaults false false true) 4%N [cold_brew] (6 # 1)%Q
                  counter_db
        = (d', Err FailedToInsertUpdatedItems) /\
      find_order d' 4%N = Some (with_total o (6 # 1)%Q) /\
      items_of d' 4%N = [].
Proof.
  eexists.
  assert (F : find_order counter_db 4%N
              = Some (mkOrder 4%N 17%Z (Some (lit "Kim")) status_new
                              (9 # 2)%Q 80%N None None))
    by (vm_compute; reflexivity).
  split; [exact F|].
  destruct (updateOrder_partial_failure counter_db 4%N [cold_brew]
              (6 # 1)%Q _ F) as (_ & _ & d' & U & Fo & It & _).
  exists d'. auto.
Defined.

Lemma find_update_status (l : list Order) (orderId : uuid)
  (status : OrderStatus) (o : Order) :
  find (fun o => (o_id o =? orderId)%N) l = Some o ->
  find (fun o => (o_id o =? orderId)%N)
       (map (fun o => if (o_id o =? orderId)%N then with_status o status
                      else o) l)
  = Some (with_status o status).
Proof.
  induction l as [|a l IH]; cbn; [discriminate|].
  destruct (o_id a =? orderId)%N eqn:E; cbn.
  - rewrite E. now intros [= ->].
  - rewrite E. exact IH.
Qed.

(** X16: the status update of the barista view gives the order with that
    id the new status and leaves its total, order number and customer
    name, the ids of all orders and all items as they are; a failed request
    changes nothing and is only logged.  It commutes with [updateOrder] of
    the customer side, on the same order or another: whichever of the two
    is applied first, the store ends up the same, with the new status and
    the new total and items. *)
Theorem updateOrderStatus_independent (d : db) (orderId : uuid)
  (status : OrderStatus) (o : Order) :
  find_order d orderId = Some o ->
  updateOrderStatus true orderId status d = (d, true) /\
  (let d1 := fst (updateOrderStatus false orderId status d) in
   (exists o',
      find_order d1 orderId = Some o' /\
      o_status o' = status /\
      o_total_price o' = o_total_price o /\
      o_order_number o' = o_order_number o /\
      o_customer_name o' = o_customer_name o) /\
   order_items d1 = order_items d /\
   map o_id (orders d1) = map o_id (orders d)) /\
  (forall other items newTotal,
     fst (updateOrder no_faults other items newTotal
            (fst (updateOrderStatus false orderId status d)))
     = fst (updateOrderStatus false orderId status
              (fst (updateOrder no_faults other items newTotal d)))).
Proof.
  intros F. split; [reflexivity|]. split.
  - cbv zeta. cbn [updateOrderStatus fst update_status order_items orders].
    unfold find_order in *. cbn [orders]. split.
    + exists (with_status o status).
      split; [exact (find_update_status _ _ status _ F)|]. now repeat split.
    + split; [reflexivity|].
      rewrite map_map. apply map_ext. intros a.
      now destruct (o_id a =? orderId)%N.
  - intros other items newTotal.
    rewrite !updateOrder_no_faults.
    cbn [updateOrderStatus fst]. unfold update_status.
    cbn [order_items orders next_uuid clock].
    match goal with
    | |- mkDb ?a _ _ _ = mkDb ?b _ _ _ => assert (E : a = b)
    end; [|now rewrite E].
    rewrite !map_map. apply map_ext. intros a.
    unfold with_total.
    destruct (o_id a =? orderId)%N eqn:E1, (o_id a =? other)%N eqn:E2;
      cbn; rewrite ?E1, ?E2; reflexivity.
Qed.

Lemma updateOrderStatus_independent_witness :
  exists o,
    find_order counter_db 4%N = Some o /\
    fst (updateOrder no_faults 4%N [cold_brew] (6 # 1)%Q
           (fst (updateOrderStatus false 4%N status_in_progress
                   counter_db)))
    = fst (updateOrderStatus false 4%N status_in_progress
             (fst (updateOrder no_faults 4%N [cold_brew] (6 # 1)%Q
                     counter_db))).
Proof.
  eexists.
  assert (F : find_order counter_db 4%N
              = Some (mkOrder 4%N 17%Z (Some (lit "Kim")) status_new
                              (9 # 2)%Q 80%N None None))
    by (vm_compute; reflexivity).
  split; [exact F|].
  destruct (updateOrderStatus_independent counter_db 4%N status_in_progress
              _ F) as (_ & _ & C).
  apply C.
Defined.

End OrderMore.

(* ------------------------------------------------------------------ *)
(** * More of the turn controller *)

Module ChatMore.
Import Js Json Receipt Chat ChatFacts JsFacts SpeakFacts.

(** Calls that drive the microphone, the playback hook and the silence
    guard: no speech is started, nothing is fetched or persisted, nothing
    is logged as an error. *)
Definition media_only (c : call) : bool :=
  match c with
  | CActivateMic | CSetTimeout _ _ | CClearTimeout _ | CTts _ | CRec _ =>
      true
  | _ => false
  end.

Definition media_or_speak (c : call) : bool := media_only c || is_speak c.

(** The part of the state that the microphone, the playback hook and the
    silence guard leave alone. *)
Definition core (s : state) :=
  (messages s, orderCompleteRef s,
   (voiceMode s, voiceModeRef s, isMuted s, isMutedRef s),
   (modifyingOrderIdRef s, modifyingReceiptMsgIdRef s),
   (isTyping s, isResponding s, isRespondingRef s),
   turns s).

Definition media {A} (m : M A) : Prop :=
  forall c, keeps (fun s => core s = c) media_only m.

Ltac frame_core := intros; eassumption.

Ltac media_go known := intros ?; keeps_go known ltac:(frame_core).

Lemma media_spec {A} (m : M A) (s : state) :
  media m ->
  core (st (m s)) = core s /\ forallb media_only (lg (m s)) = true.
Proof. intros H. exact (H (core s) s eq_refl). Qed.

(** Rewriting of the state and the log of the elementary handlers. *)
Lemma st_modify (f : state -> state) (s : state) : st (modify f s) = f s.
Proof. reflexivity. Qed.

Lemma lg_modify (f : state -> state) (s : state) : lg (modify f s) = [].
Proof. reflexivity. Qed.

Lemma st_setMessages (f : list ChatMessage -> list ChatMessage)
  (s : state) :
  st (setMessages f s) = set_messages (f (messages s)) s.
Proof. reflexivity. Qed.

Lemma lg_setMessages (f : list ChatMessage -> list ChatMessage)
  (s : state) :
  lg (setMessages f s) = [].
Proof. reflexivity. Qed.

Lemma st_end_turn (n : turn_id) (s : state) :
  st (end_turn n s) = set_turns (drop_turn (turns s) n) s.
Proof. reflexivity. Qed.

Lemma lg_end_turn (n : turn_id) (s : state) : lg (end_turn n s) = [].
Proof. reflexivity. Qed.

Create Rewrite HintDb monad.

#[local] Hint Rewrite @bind_st @bind_lg st_modify lg_modify st_setMessages
  lg_setMessages st_end_turn lg_end_turn app_nil_r app_nil_l : monad.

Lemma keeps_weaken {A} (I : state -> Prop) (G G' : call -> bool)
  (m : M A) :
  (forall c, G c = true -> G' c = true) ->
  keeps I G m -> keeps I G' m.
Proof.
  intros W K s H. destruct (K s H) as [H1 H2]. split; [exact H1|].
  apply forallb_forall. intros c Hc.
  apply W. revert c Hc. now apply forallb_forall.
Qed.

Lemma clearAutoListenTimer_media : media clearAutoListenTimer.
Proof. media_go ltac:(fail). Qed.

Lemma startListening_media : media startListening.
Proof. media_go ltac:(fail). Qed.

Lemma stopListening_media : media stopListening.
Proof. media_go ltac:(fail). Qed.

Lemma activateMic_media : media activateMic.
Proof. media_go ltac:(fail). Qed.

Lemma tts_outs_media (os : list Tts.out) : media (each tts_out os).
Proof. media_go ltac:(fail). Qed.

Lemma stop_media : media stop.
Proof. media_go ltac:(fail). Qed.

(** The state after the three assignments at the head of [finally]. *)
Definition idle (s : state) : state :=
  set_isTyping false (set_isRespondingRef false (set_isResponding false s)).

Lemma finally_block_core (s : state) :
  core (st (finally_block s)) = core (idle s) /\
  forallb media_only (lg (finally_block s)) = true.
Proof.
  unfold finally_block. rewrite !bind_st, !bind_lg.
  cbn [modify gets st lg val fst snd app]. fold (idle s).
  match goal with
  | |- context [when ?b ?m] =>
      assert (K : media (when b m)) by (media_go ltac:(fail))
  end.
  exact (media_spec _ (idle s) K).
Qed.

(** [speakMessage] changes nothing of the core, and its one speech start
    apart it makes media calls only. *)
Lemma speakMessage_core (id : msgid) (text : jsstring) (s : state) :
  core (st (speakMessage id text s)) = core s /\
  forallb media_or_speak (lg (speakMessage id text s)) = true.
Proof.
  assert (K : keeps (fun s' => core s' = core s) media_or_speak
                (speakMessage id text)).
  { unfold speakMessage.
    keeps_go ltac:(apply (keeps_weaken _ media_only);
                   [intros c E; unfold media_or_speak; now rewrite E
                   |apply tts_outs_media])
             ltac:(frame_core). }
  exact (K s eq_refl).
Qed.

Lemma forallb_media_weaken (l : list call) :
  forallb media_only l = true -> forallb media_or_speak l = true.
Proof.
  intros H. apply forallb_forall. intros c Hc. unfold media_or_speak.
  rewrite forallb_forall in H. now rewrite (H c Hc).
Qed.

(** The end of a turn: at most one speech start, of the trimmed display
    text; the flags of the turn are cleared and the turn leaves the
    table. *)
Lemma finish_turn_core (n : turn_id) (t : turn) (sid : msgid)
  (displayContent : jsstring) (s : state) :
  core (st (finish_turn n t sid displayContent s))
    = core (set_turns (drop_turn (turns s) n) (idle s)) /\
  forallb media_or_speak (lg (finish_turn n t sid displayContent s)) = true /\
  (filter is_speak (lg (finish_turn n t sid displayContent s)) = [] \/
   filter is_speak (lg (finish_turn n t sid displayContent s))
     = [CSpeak sid (trim displayContent)]).
Proof.
  unfold finish_turn. rewrite !bind_st, !bind_lg.
  cbn [gets st lg val fst snd app].
  set (b := negb (ttsStarted t) && voiceModeRef s && negb (isMutedRef s)
            && truthy (trim displayContent)).
  set (m := when b (speakMessage sid (trim displayContent))).
  assert (Hm : core (st (m s)) = core s /\
               forallb media_or_speak (lg (m s)) = true /\
               (filter is_speak (lg (m s)) = [] \/
                filter is_speak (lg (m s))
                  = [CSpeak sid (trim displayContent)])).
  { subst m. destruct b; cbn [when].
    - destruct (speakMessage_core sid (trim displayContent) s) as [C L].
      destruct (speakMessage_spec sid (trim displayContent) s) as [_ F].
      auto.
    - cbn. auto. }
  destruct Hm as (C1 & L1 & F1).
  destruct (finally_block_core (st (m s))) as [C2 L2].
  cbn [end_turn modify st lg val fst snd].
  rewrite !forallb_app, !filter_app, L1, (forallb_media_weaken _ L2).
  rewrite (not_speak_filter (lg (finally_block (st (m s))))).
  - cbn [forallb filter app andb]. rewrite app_nil_r.
    split; [|split; [reflexivity|exact F1]].
    set (s1 := st (m s)) in *. set (s2 := st (finally_block s1)) in *.
    clearbody s2 s1. unfold core in *. cbn in C1, C2 |- *. congruence.
  - apply forallb_forall. intros c Hc. rewrite forallb_forall in L2.
    specialize (L2 c Hc). unfold not_speak. now destruct c.
Qed.

Lemma on_turn_found (n : turn_id) (k : turn -> M unit) (s : state)
  (t : turn) :
  lookup_turn (turns s) n = Some t -> on_turn n k s = k t s.
Proof.
  intros L. unfold on_turn, bind, gets. rewrite L.
  now destruct (k t s) as [[a s1] l1].
Qed.

(** ** A turn that fails *)

Definition error_message (now : N) : ChatMessage :=
  mkMsg (ErrorMsg now) cashier
        (lit "Something went wrong on my end. Give me a second and try again.")
        None None None None now.

(** The events at which invocation [n] of [handleSend], suspended in phase
    [p], throws: the request fails or is answered with an error status or
    without a body, or reading the stream fails. *)
Definition throws (n : turn_id) (p : turn_phase) (e : event) : option N :=
  match e, p with
  | ChatResponse m (RNotOk | RNoBody | RFailed) now, AwaitResponse =>
      if Nat.eqb m n then Some now else None
  | ReadFailed m now, Reading => if Nat.eqb m n then Some now else None
  | _, _ => None
  end.

Lemma abandon_core (n : turn_id) (now : N) (s : state) :
  let m := catch_block now ;; finally_block ;; end_turn n in
  core (st (m s))
    = core (set_turns (drop_turn (turns s) n)
              (idle (set_messages (messages s ++ [error_message now]) s))) /\
  exists l, lg (m s) = CConsoleError :: l /\ forallb media_only l = true.
Proof.
  cbv zeta. rewrite !bind_st, !bind_lg. unfold catch_block.
  rewrite !bind_st, !bind_lg.
  cbn [emit modify setMessages st lg val fst snd app].
  fold (error_message now).
  match goal with
  | |- context [finally_block ?s1] =>
      destruct (finally_block_core s1) as [C L];
      set (s2 := st (finally_block s1)) in *
  end.
  split.
  - clearbody s2. unfold core in *. cbn in C |- *. congruence.
  - eexists. split; [reflexivity|]. now rewrite app_nil_r.
Qed.

(** X17: when the request of a turn fails, is answered with an error
    status or without a body, or reading its stream fails, the turn adds
    exactly one message, the apology of the [catch] block, clears
    [isTyping] and the two responding flags and ends; it logs the error,
    and besides that it starts no speech, saves and updates no order and
    sends no request; the order stays open or complete as it was. *)
Theorem failed_turn_reports_once (JSON_parse : jsstring -> option json)
  (s : state) (n : turn_id) (t : turn) (e : event) (now : N) :
  lookup_turn (turns s) n = Some t ->
  throws n (phase t) e = Some now ->
  let s' := fst (step JSON_parse s e) in
  messages s' = messages s ++ [error_message now] /\
  isTyping s' = false /\
  isResponding s' = false /\
  isRespondingRef s' = false /\
  lookup_turn (turns s') n = None /\
  orderCompleteRef s' = orderCompleteRef s /\
  exists l,
    snd (step JSON_parse s e) = CConsoleError :: l /\
    forallb media_only l = true.
Proof.
  intros L T. cbv zeta.
  assert (E : handle JSON_parse e s
              = (catch_block now ;; finally_block ;; end_turn n) s).
  { destruct e; try discriminate T; cbn [throws] in T;
      [destruct r; try discriminate T|];
      destruct (phase t) eqn:Ph; try discriminate T;
      destruct (Nat.eqb_spec n0 n) as [->|]; try discriminate T;
      injection T as <-; cbn [handle]; rewrite (on_turn_found _ _ _ _ L);
      rewrite Ph; reflexivity. }
  rewrite step_eq, E. cbn [fst snd].
  destruct (abandon_core n now s) as (C & l & Hl & M). cbv zeta in C, Hl.
  set (r := (catch_block now ;; finally_block ;; end_turn n) s) in *.
  clearbody r. unfold core in C. cbn in C.
  injection C as ? ? ? ? ? ? ? ? ? ? ? Ht.
  rewrite Ht, lookup_drop_turn.
  repeat (split; [assumption || reflexivity|]).
  now exists l.
Qed.

Definition failing_turn : state :=
  fst (run parse_subset (init true 0) [Send (lit "A latte") 1]).

Lemma failed_turn_reports_once_witness :
  lookup_turn (turns failing_turn) 0
    = Some (mkTurn [] None 0 false AwaitResponse) /\
  throws 0 AwaitResponse (ChatResponse 0 RFailed 2) = Some 2%N /\
  messages (fst (step parse_subset failing_turn (ChatResponse 0 RFailed 2)))
    = messages failing_turn ++ [error_message 2].
Proof.
  assert (L : lookup_turn (turns failing_turn) 0
              = Some (mkTurn [] None 0 false AwaitResponse))
    by (vm_compute; reflexivity).
  assert (T : throws 0 (phase (mkTurn [] None 0 false AwaitResponse))
                     (ChatResponse 0 RFailed 2) = Some 2%N)
    by reflexivity.
  split; [exact L|]. split; [exact T|].
  exact (proj1 (failed_turn_reports_once parse_subset failing_turn 0 _
                  (ChatResponse 0 RFailed 2) 2%N L T)).
Defined.

(** ** A stream that ends before its first chunk *)

Definition retry_message (now : N) : ChatMessage :=
  mkMsg (CashierMsg now) cashier
        (lit "Sorry about that " ++ em_dash
         ++ lit " could you repeat your order?")
        None None None None now.

Lemma ask_again_core (n : turn_id) (now : N) (s : state) :
  let m := modify (set_isTyping false) ;;
           setMessages (fun prev => prev ++ [retry_message now]) ;;
           finally_block ;; end_turn n in
  core (st (m s))
    = core (set_turns (drop_turn (turns s) n)
              (idle (set_messages (messages s ++ [retry_message now]) s))) /\
  forallb media_only (lg (m s)) = true.
Proof.
  cbv zeta. autorewrite with monad.
  match goal with
  | |- context [finally_block ?s1] =>
      destruct (finally_block_core s1) as [C M];
      set (s2 := st (finally_block s1)) in *
  end.
  split; [|exact M]. clearbody s2. unfold core in *.
  cbn -[retry_message drop_turn app] in C |- *. congruence.
Qed.

(** X18: when the stream of a turn ends before any chunk has arrived, the
    turn adds exactly one message, asking the customer to repeat the
    order, and ends with [isTyping] and the responding flags cleared; it
    looks for no receipt, starts no speech, saves and updates no order and
    logs no error. *)
Theorem empty_stream_asks_again (JSON_parse : jsstring -> option json)
  (s : state) (n : turn_id) (t : turn) (now : N) :
  lookup_turn (turns s) n = Some t ->
  phase t = Reading ->
  streamingId t = None ->
  let s' := fst (step JSON_parse s (ReadDone n now)) in
  messages s' = messages s ++ [retry_message now] /\
  isTyping s' = false /\
  isResponding s' = false /\
  isRespondingRef s' = false /\
  lookup_turn (turns s') n = None /\
  orderCompleteRef s' = orderCompleteRef s /\
  forallb media_only (snd (step JSON_parse s (ReadDone n now))) = true.
Proof.
  intros L Ph Sid. cbv zeta.
  assert (E : handle JSON_parse (ReadDone n now) s
              = (modify (set_isTyping false) ;;
                 setMessages (fun prev => prev ++ [retry_message now]) ;;
                 finally_block ;; end_turn n) s).
  { cbn [handle]. rewrite (on_turn_found _ _ _ _ L), Ph. unfold onDone.
    now rewrite Sid. }
  rewrite step_eq, E. cbn [fst snd].
  destruct (ask_again_core n now s) as (C & M). cbv zeta in C, M.
  match type of M with forallb _ (lg ?x) = _ => set (r := x) in * end.
  clearbody r. unfold core in C.
  cbn -[retry_message drop_turn app] in C.
  injection C as ? ? ? ? ? ? ? ? ? ? ? Ht.
  rewrite Ht, lookup_drop_turn.
  repeat (split; [assumption || reflexivity|]). exact M.
Qed.

Definition empty_answer : state :=
  fst (run parse_subset (init true 0)
         [Send (lit "A latte") 1; ChatResponse 0 ROk 2]).

Lemma empty_stream_asks_again_witness :
  lookup_turn (turns empty_answer) 0 = Some (mkTurn [] None 2 false Reading) /\
  messages (fst (step parse_subset empty_answer (ReadDone 0 3)))
    = messages empty_answer ++ [retry_message 3].
Proof.
  assert (L : lookup_turn (turns empty_answer) 0
              = Some (mkTurn [] None 2 false Reading))
    by (vm_compute; reflexivity).
  split; [exact L|].
  exact (proj1 (empty_stream_asks_again parse_subset empty_answer 0 _ 3%N
                  L eq_refl eq_refl)).
Defined.

(** ** Receipts at the end of a stream *)

Lemma msgid_eqb_eq (a b : msgid) : msgid_eqb a b = true <-> a = b.
Proof.
  destruct a, b; cbn; rewrite ?N.eqb_eq; split; intros H;
    try discriminate H; try reflexivity; congruence.
Qed.

Lemma type_is_exclusive (data : json) :
  type_is data (lit "order_update") = true ->
  type_is data (lit "order_complete") = false.
Proof.
  unfold type_is. destruct (get data (lit "type")) as [ty|];
    [|discriminate].
  unfold is_string. destruct ty as [[|b|q|x|l|ms]|]; try discriminate.
  intros H. destruct (eqb_spec x (lit "order_update")) as [E|E];
    [now rewrite E|discriminate H].
Qed.

Lemma onDone_not_acted_on (JSON_parse : jsstring -> option json)
  (s : state) (n : turn_id) (t : turn) (sid : msgid) (data : json)
  (now : N) :
  streamingId t = Some sid ->
  parseReceipt JSON_parse (fullContent t) = Some data ->
  type_is data (lit "order_update") = true ->
  modifyingOrderIdRef s = None \/ modifyingReceiptMsgIdRef s = None ->
  onDone JSON_parse n t now s
  = finish_turn n t sid (stripReceiptBlock (fullContent t)) s.
Proof.
  intros Sid PR Ty Mod. unfold onDone. rewrite Sid, PR.
  unfold bind at 1 2, gets. rewrite Ty, (type_is_exclusive data Ty).
  destruct (finish_turn n t sid (stripReceiptBlock (fullContent t)) s)
    as [[a s1] l1] eqn:E.
  destruct Mod as [-> | ->]; [|destruct (modifyingOrderIdRef s)];
    rewrite E; reflexivity.
Qed.

(** X19: an [order_update] receipt that arrives while no order is being
    modified is not acted on: no order is saved or updated, no message
    changes (the bubble keeps the text as streamed, receipt block
    included), the order stays open or complete as it was; what is spoken
    at the end, if anything, is the text with the block removed. *)
Theorem order_update_outside_modification
  (JSON_parse : jsstring -> option json) (s : state) (n : turn_id)
  (t : turn) (sid : msgid) (data : json) (now : N) :
  lookup_turn (turns s) n = Some t ->
  phase t = Reading ->
  streamingId t = Some sid ->
  parseReceipt JSON_parse (fullContent t) = Some data ->
  type_is data (lit "order_update") = true ->
  modifyingOrderIdRef s = None \/ modifyingReceiptMsgIdRef s = None ->
  let s' := fst (step JSON_parse s (ReadDone n now)) in
  let l := snd (step JSON_parse s (ReadDone n now)) in
  messages s' = messages s /\
  orderCompleteRef s' = orderCompleteRef s /\
  isResponding s' = false /\
  lookup_turn (turns s') n = None /\
  forallb media_or_speak l = true /\
  (filter is_speak l = [] \/
   filter is_speak l
     = [CSpeak sid (trim (stripReceiptBlock (fullContent t)))]).
Proof.
  intros L Ph Sid PR Ty Mod. cbv zeta. rewrite step_eq. cbn [fst snd handle].
  rewrite (on_turn_found _ _ _ _ L), Ph.
  rewrite (onDone_not_acted_on JSON_parse s n t sid data now Sid PR Ty Mod).
  destruct (finish_turn_core n t sid (stripReceiptBlock (fullContent t)) s)
    as (C & M & F).
  set (r := finish_turn n t sid (stripReceiptBlock (fullContent t)) s) in *.
  clearbody r. unfold core in C. cbn in C.
  injection C as ? ? ? ? ? ? ? ? ? ? ? Ht.
  rewrite Ht, lookup_drop_turn.
  repeat (split; [assumption || reflexivity|]). exact F.
Qed.

Definition stale_update : jsstring :=
  qlit "Done! ```json
{'type':'order_update','items':[],'total_price':4.50}
```".

Definition stale_update_read : state :=
  fst (run parse_subset (init true 0)
         [Send (lit "Make it a large") 1; ChatResponse 0 ROk 2;
          ReadChunk 0 stale_update 3]).

Lemma order_update_outside_modification_witness :
  lookup_turn (turns stale_update_read) 0
    = Some (mkTurn stale_update (Some (CashierMsg 3)) 2 false Reading) /\
  modifyingOrderIdRef stale_update_read = None /\
  (exists data,
     parseReceipt parse_subset stale_update = Some data /\
     type_is data (lit "order_update") = true) /\
  messages (fst (step parse_subset stale_update_read (ReadDone 0 4)))
    = messages stale_update_read.
Proof.
  assert (L : lookup_turn (turns stale_update_read) 0
              = Some (mkTurn stale_update (Some (CashierMsg 3)) 2 false
                             Reading))
    by (vm_compute; reflexivity).
  assert (M : modifyingOrderIdRef stale_update_read = None)
    by (vm_compute; reflexivity).
  assert (P : exists data,
            parseReceipt parse_subset stale_update = Some data /\
            type_is data (lit "order_update") = true)
    by (eexists; split; vm_compute; reflexivity).
  split; [exact L|]. split; [exact M|]. split; [exact P|].
  destruct P as (data & PR & Ty).
  exact (proj1 (order_update_outside_modification parse_subset
                  stale_update_read 0 _ (CashierMsg 3) data 4%N
                  L eq_refl eq_refl PR Ty (or_introl M))).
Defined.

Lemma when_emit_st (b : bool) (c : call) (s : state) :
  st (when b (emit c) s) = s.
Proof. now destruct b. Qed.

(** What both persistence branches do once the call has settled: the
    silence guard is cleared, capture is stopped, the messages are mapped
    and the turn ends. *)
Lemma lock_and_finish_core (f : ChatMessage -> ChatMessage) (n : turn_id)
  (t : turn) (sid : msgid) (displayContent : jsstring) (s : state) :
  let m := clearAutoListenTimer ;; stopListening ;; setMessages (map f) ;;
           finish_turn n t sid displayContent in
  core (st (m s))
  = core (set_turns (drop_turn (turns s) n)
            (idle (set_messages (map f (messages s)) s))).
Proof.
  cbv zeta. rewrite !bind_st.
  destruct (media_spec _ s clearAutoListenTimer_media) as [C1 _].
  set (s1 := st (clearAutoListenTimer s)) in *.
  destruct (media_spec _ s1 stopListening_media) as [C2 _].
  set (s2 := st (stopListening s1)) in *.
  cbn [setMessages modify st val fst snd].
  match goal with
  | |- context [finish_turn n t sid displayContent ?s3] =>
      destruct (finish_turn_core n t sid displayContent s3) as (C3 & _);
      set (r := finish_turn n t sid displayContent s3) in *
  end.
  clearbody r s2 s1. unfold core, drop_turn in *.
  cbn in C1, C2, C3 |- *. congruence.
Qed.

Lemma in_map_msg (f : ChatMessage -> ChatMessage) (l : list ChatMessage)
  (m : ChatMessage) :
  In m (map f l) -> exists m0, In m0 l /\ m = f m0.
Proof.
  intros H. apply in_map_iff in H. destruct H as (m0 & E & I). eauto.
Qed.

(** X20: when [saveOrder] has settled, the order is complete and the
    streamed message becomes the receipt card, with the display text and
    the receipt, and no message is added, removed or moved.  When the call
    returned an order, the card carries its number and its id, and the
    "Modify order" control is bound to that message and that id.  When
    the call threw, the error is logged, the card is shown all the same,
    with order number 0 and without an id, and it offers no "Modify order"
    whatever the status. *)
Theorem save_settled_card (JSON_parse : jsstring -> option json)
  (s : state) (n : turn_id) (t : turn) (sid : msgid) (receipt : json)
  (displayContent : jsstring) (saved : option (Z * uuid)) :
  lookup_turn (turns s) n = Some t ->
  phase t = AwaitSave receipt displayContent ->
  streamingId t = Some sid ->
  let s' := fst (step JSON_parse s (SaveSettled n saved)) in
  orderCompleteRef s' = true /\
  map m_id (messages s') = map m_id (messages s) /\
  (forall m, In m (messages s') -> m_id m = sid ->
     m_content m = displayContent /\
     m_receipt m = Some receipt /\
     m_orderNumber m
       = Some (match saved with Some (k, _) => k | None => 0%Z end) /\
     Page.onModifyOrder m
       = match saved with Some (_, i) => Some (sid, i) | None => None end /\
     (saved = None -> forall status, Page.shows_modify status m = false)) /\
  (forall m, In m (messages s') -> m_id m <> sid -> In m (messages s)) /\
  (saved = None ->
   In CConsoleError (snd (step JSON_parse s (SaveSettled n saved)))).
Proof.
  intros L Ph Sid. cbv zeta. rewrite step_eq. cbn [fst snd handle].
  rewrite (on_turn_found _ _ _ _ L), Ph, Sid. unfold onSaveSettled.
  rewrite bind_st, bind_lg, when_emit_st, bind_st.
  cbn [modify st lg val fst snd].
  match goal with
  | |- context [setMessages (map ?f)] =>
      pose proof (lock_and_finish_core f n t sid displayContent
                    (set_orderCompleteRef true s)) as C
  end.
  cbv zeta in C.
  match type of C with core ?x = _ => set (r := x) in * end.
  clearbody r. unfold core in C. cbn in C.
  injection C as Hm Hc _ _ _ _ _ _ _ _ _ _.
  rewrite Hm, Hc. split; [reflexivity|]. split; [|split; [|split]].
  - rewrite map_map. apply map_ext. intros m.
    now destruct (msgid_eqb (m_id m) sid).
  - intros m H E. apply in_map_msg in H. destruct H as (m0 & _ & ->).
    destruct (msgid_eqb (m_id m0) sid) eqn:B.
    + cbn. apply msgid_eqb_eq in B. rewrite B.
      unfold Page.shows_modify, Page.onModifyOrder. cbn.
      destruct saved as [[k i]|]; repeat split; try discriminate.
      intros _ status. now destruct status.
    + exfalso. rewrite E in B.
      assert (T : msgid_eqb sid sid = true) by now apply msgid_eqb_eq.
      congruence.
  - intros m H E. apply in_map_msg in H. destruct H as (m0 & I & ->).
    destruct (msgid_eqb (m_id m0) sid) eqn:B; [|exact I].
    exfalso. apply E. cbn. now apply msgid_eqb_eq.
  - intros ->. cbn [when emit lg snd]. now left.
Qed.

Definition closing_turn : jsstring :=
  qlit "All set, Kim! ```json
{'type':'order_complete','customer_name':'Kim','items':[],'total_price':4.50}
```".

Definition awaiting_save : state :=
  fst (run parse_subset (init true 0)
         [Send (lit "A flat white for Kim") 1; ChatResponse 0 ROk 2;
          ReadChunk 0 closing_turn 3; ReadDone 0 4]).

Lemma save_settled_card_witness :
  exists t receipt displayContent,
    lookup_turn (turns awaiting_save) 0 = Some t /\
    phase t = AwaitSave receipt displayContent /\
    streamingId t = Some (CashierMsg 3) /\
    orderCompleteRef
      (fst (step parse_subset awaiting_save (SaveSettled 0 None))) = true.
Proof.
  assert (L : exists t receipt displayContent,
            lookup_turn (turns awaiting_save) 0 = Some t /\
            phase t = AwaitSave receipt displayContent /\
            streamingId t = Some (CashierMsg 3))
    by (eexists _, _, _; split; [vm_compute; reflexivity|];
        split; reflexivity).
  destruct L as (t & receipt & displayContent & L & Ph & Sid).
  exists t, receipt, displayContent.
  split; [exact L|]. split; [exact Ph|]. split; [exact Sid|].
  exact (proj1 (save_settled_card parse_subset awaiting_save 0 t
                  (CashierMsg 3) receipt displayContent None L Ph Sid)).
Defined.

(** X21: when [updateOrder] has settled, whether it returned or threw,
    the order is complete again and no order is being modified any more;
    the receipt card that was being modified shows the new receipt and
    keeps its order number and its order id, as does every message; the
    streamed message gets the display text; no message is added, removed
    or moved.  When the call threw, the error is logged and the card shows
    the new receipt all the same. *)
Theorem update_settled_card (JSON_parse : jsstring -> option json)
  (s : state) (n : turn_id) (t : turn) (sid mid : msgid) (receipt : json)
  (displayContent : jsstring) (ok : bool) :
  lookup_turn (turns s) n = Some t ->
  phase t = AwaitUpdate receipt displayContent mid ->
  streamingId t = Some sid ->
  mid <> sid ->
  let s' := fst (step JSON_parse s (UpdateSettled n ok)) in
  orderCompleteRef s' = true /\
  modifyingOrderIdRef s' = None /\
  modifyingReceiptMsgIdRef s' = None /\
  map m_id (messages s') = map m_id (messages s) /\
  map m_orderNumber (messages s') = map m_orderNumber (messages s) /\
  map m_orderId (messages s') = map m_orderId (messages s) /\
  (forall m, In m (messages s') -> m_id m = mid ->
     m_receipt m = Some receipt) /\
  (forall m, In m (messages s') -> m_id m = sid ->
     m_content m = displayContent /\
     m_rawContent m = Some (fullContent t)) /\
  (ok = false ->
   In CConsoleError (snd (step JSON_parse s (UpdateSettled n ok)))).
Proof.
  intros L Ph Sid Ne. cbv zeta. rewrite step_eq. cbn [fst snd handle].
  rewrite (on_turn_found _ _ _ _ L), Ph, Sid. unfold onUpdateSettled.
  rewrite bind_st, bind_lg, when_emit_st, bind_st.
  cbn [modify st lg val fst snd]. rewrite bind_st.
  cbn [modify st lg val fst snd]. rewrite bind_st.
  cbn [modify st lg val fst snd].
  match goal with
  | |- context [setMessages (map ?f)] =>
      pose proof (lock_and_finish_core f n t sid displayContent
                    (set_orderCompleteRef true
                       (set_modifyingReceiptMsgIdRef None
                          (set_modifyingOrderIdRef None s)))) as C
  end.
  cbv zeta in C.
  match type of C with core ?x = _ => set (r := x) in * end.
  clearbody r. unfold core in C. cbn in C.
  injection C as Hm Hc _ _ _ _ Ho Hi _ _ _ _.
  rewrite Hm, Hc, Ho, Hi. do 3 (split; [reflexivity|]).
  assert (T : forall a, msgid_eqb a a = true)
    by (intros a; now apply msgid_eqb_eq).
  repeat split.
  - rewrite map_map. apply map_ext. intros m.
    now destruct (msgid_eqb (m_id m) sid), (msgid_eqb (m_id m) mid).
  - rewrite map_map. apply map_ext. intros m.
    now destruct (msgid_eqb (m_id m) sid), (msgid_eqb (m_id m) mid).
  - rewrite map_map. apply map_ext. intros m.
    now destruct (msgid_eqb (m_id m) sid), (msgid_eqb (m_id m) mid).
  - intros m H E. apply in_map_msg in H. destruct H as (m0 & _ & ->).
    destruct (msgid_eqb (m_id m0) sid) eqn:B.
    + exfalso. apply Ne. apply msgid_eqb_eq in B. cbn in E. congruence.
    + destruct (msgid_eqb (m_id m0) mid) eqn:B'; [reflexivity|].
      exfalso. rewrite E, T in B'. discriminate.
  - apply in_map_msg in H. destruct H as (m0 & _ & ->).
    destruct (msgid_eqb (m_id m0) sid) eqn:B; [reflexivity|].
    exfalso. destruct (msgid_eqb (m_id m0) mid); cbn in H0;
      rewrite H0, T in B; discriminate.
  - apply in_map_msg in H. destruct H as (m0 & _ & ->).
    destruct (msgid_eqb (m_id m0) sid) eqn:B; [reflexivity|].
    exfalso. destruct (msgid_eqb (m_id m0) mid); cbn in H0;
      rewrite H0, T in B; discriminate.
  - intros ->. cbn [negb when emit lg snd]. now left.
Qed.

Definition awaiting_update : state :=
  fst (run parse_subset (init true 0)
         [Send (lit "A flat white for Kim") 1; ChatResponse 0 ROk 2;
          ReadChunk 0 closing_turn 3; ReadDone 0 4;
          SaveSettled 0 (Some (17%Z, 4%N));
          ModifyOrder (CashierMsg 3) 4%N 5;
          Send (lit "Make it a large") 6; ChatResponse 1 ROk 7;
          ReadChunk 1 stale_update 8; ReadDone 1 9]).

Lemma update_settled_card_witness :
  exists t receipt displayContent,
    lookup_turn (turns awaiting_update) 1 = Some t /\
    phase t = AwaitUpdate receipt displayContent (CashierMsg 3) /\
    streamingId t = Some (CashierMsg 8) /\
    CashierMsg 3 <> CashierMsg 8 /\
    orderCompleteRef
      (fst (step parse_subset awaiting_update (UpdateSettled 1 false)))
      = true.
Proof.
  assert (L : exists t receipt displayContent,
            lookup_turn (turns awaiting_update) 1 = Some t /\
            phase t = AwaitUpdate receipt displayContent (CashierMsg 3) /\
            streamingId t = Some (CashierMsg 8))
    by (eexists _, _, _; split; [vm_compute; reflexivity|];
        split; reflexivity).
  destruct L as (t & receipt & displayContent & L & Ph & Sid).
  assert (Ne : CashierMsg 3 <> CashierMsg 8) by discriminate.
  exists t, receipt, displayContent.
  split; [exact L|]. split; [exact Ph|]. split; [exact Sid|].
  split; [exact Ne|].
  exact (proj1 (update_settled_card parse_subset awaiting_update 1 t
                  (CashierMsg 8) (CashierMsg 3) receipt displayContent
                  false L Ph Sid Ne)).
Defined.

(** ** Text mode and mute *)

(** Voice mode is off, or the cashier is muted. *)
Definition silenced (s : state) : Prop :=
  (voiceMode s = false /\ voiceModeRef s = false) \/
  (isMuted s = true /\ isMutedRef s = true).

Definition hushed (c : call) : bool :=
  negb (is_speak c) && negb (is_activate c).

(** The handlers that speak whatever the mode ([handleBegin],
    [handleNewOrder], [handleModifyOrder]) and the two controls that turn
    voice mode on and toggle mute. *)
Definition loud (e : event) : bool :=
  match e with
  | Begin | NewOrder _ | ModifyOrder _ _ _ | SetVoiceMode true
  | ToggleMute => true
  | _ => false
  end.

Lemma silenced_refs (s : state) :
  silenced s -> voiceModeRef s && negb (isMutedRef s) = false.
Proof. intros [[_ ->]|[_ ->]]; [reflexivity|apply andb_false_r]. Qed.

Lemma silenced_controls (s : state) :
  silenced s -> voiceMode s && negb (isMuted s) = false.
Proof. intros [[-> _]|[-> _]]; [reflexivity|apply andb_false_r]. Qed.

Lemma holds_bind_gets (I : state -> Prop) (G : call -> bool) {A B}
  (f : state -> A) (k : A -> M B) (s : state) :
  I s -> holds I G (k (f s)) s -> holds I G (bind (gets f) k) s.
Proof.
  intros H K. apply holds_bind; [now split|]. intros _. exact K.
Qed.

Ltac frame_silenced :=
  intros; first [eassumption | unfold silenced in *; cbn; tauto].

Lemma onTtsEnd_silenced : keeps silenced hushed onTtsEnd.
Proof.
  unfold onTtsEnd. apply keeps_bind_gets. intros s H.
  destruct (orderCompleteRef s); [now split|].
  do 2 (apply holds_bind_gets; [exact H|]).
  assert (E : negb (voiceModeRef s) || isMutedRef s = true).
  { pose proof (silenced_refs s H).
    destruct (voiceModeRef s), (isMutedRef s); auto. }
  rewrite E. now split.
Qed.

Lemma finally_block_silenced : keeps silenced hushed finally_block.
Proof.
  unfold finally_block.
  do 3 (apply keeps_bind;
        [apply keeps_modify; intros s H; exact H|intros _]).
  apply keeps_bind; [apply keeps_gets|intros d].
  apply keeps_bind_gets. intros s H.
  do 2 (apply holds_bind_gets; [exact H|]).
  rewrite <- !andb_assoc, (andb_assoc (voiceModeRef s)), silenced_refs by exact H.
  rewrite andb_false_r. now split.
Qed.

Lemma finish_turn_silenced (n : turn_id) (t : turn) (sid : msgid)
  (displayContent : jsstring) :
  keeps silenced hushed (finish_turn n t sid displayContent).
Proof.
  unfold finish_turn. apply keeps_bind_gets. intros s H.
  apply holds_bind_gets; [exact H|].
  rewrite <- !andb_assoc, (andb_assoc (voiceModeRef s)), silenced_refs
    by exact H.
  rewrite andb_false_r. cbn [when].
  apply holds_bind; [now split|]. intros _. cbn [ret st val fst snd].
  apply keeps_bind; [apply finally_block_silenced|intros _| exact H].
  apply keeps_modify. intros s' H'. exact H'.
Qed.

Lemma onChunk_silenced (n : turn_id) (t : turn) (chunk : jsstring)
  (now : N) :
  keeps silenced hushed (onChunk n t chunk now).
Proof.
  unfold onChunk. apply keeps_bind.
  - keeps_go ltac:(fail) ltac:(frame_silenced).
  - intros sid. apply keeps_bind_gets. intros s H.
    apply holds_bind_gets; [exact H|].
    rewrite <- !andb_assoc, (andb_assoc (voiceModeRef s)), silenced_refs
      by exact H.
    rewrite andb_false_r.
    apply keeps_modify; [|exact H]. intros s' H'. exact H'.
Qed.

Lemma replay_silenced (id : msgid) : keeps silenced hushed (replay id).
Proof.
  unfold replay. apply keeps_bind_gets. intros s H.
  do 2 (apply holds_bind_gets; [exact H|]).
  destruct (find _ (messages s)) as [m|]; [|now split].
  rewrite <- andb_assoc, silenced_controls by exact H.
  rewrite andb_false_r. now split.
Qed.

Lemma handle_silenced (JSON_parse : jsstring -> option json) (e : event) :
  loud e = false -> keeps silenced hushed (handle JSON_parse e).
Proof.
  intros Q.
  destruct e as [| | | | | | | | |b| | | | | | | | | | |];
    try discriminate Q; [..|destruct b; [discriminate Q|]| | | | | | | | | | |];
    cbn [handle];
    keeps_go ltac:(first [apply onTtsEnd_silenced
                         |apply finally_block_silenced
                         |apply finish_turn_silenced
                         |apply onChunk_silenced
                         |apply replay_silenced])
             ltac:(frame_silenced).
Qed.

Lemma hushed_spec (l : list call) :
  forallb hushed l = true ->
  filter is_speak l = [] /\ ~ In CActivateMic l.
Proof.
  induction l as [|c l IH]; cbn; [auto|].
  intros H. apply andb_prop in H. destruct H as [Hc Hl].
  destruct (IH Hl) as [F N]. unfold hushed in Hc.
  apply andb_prop in Hc. destruct Hc as [H1 H2].
  destruct (is_speak c); [discriminate H1|]. split; [exact F|].
  intros [E|I]; [subst c; discriminate H2|now apply N].
Qed.

(** X22: while voice mode is off or the cashier is muted, no event other
    than "begin", "new order", "modify order", turning voice mode on and
    the mute toggle starts speech or activates the microphone: answers
    are not spoken, early or at the end of the stream, replay does
    nothing, and the end of a playback does not start a capture session;
    and the mode stays as it is. *)
Theorem silenced_starts_no_speech (JSON_parse : jsstring -> option json)
  (s : state) (es : list event) :
  silenced s ->
  Forall (fun e => loud e = false) es ->
  silenced (fst (run JSON_parse s es)) /\
  filter is_speak (snd (run JSON_parse s es)) = [] /\
  ~ In CActivateMic (snd (run JSON_parse s es)).
Proof.
  intros H F.
  destruct (keeps_run silenced hushed JSON_parse
              (fun e => loud e = false)
              (handle_silenced JSON_parse) es s F H) as [H1 H2].
  split; [exact H1|]. now apply hushed_spec.
Qed.

Definition muted : state :=
  fst (run parse_subset (init true 0) [ToggleMute]).

Definition muted_turn : list event :=
  [Send (lit "What do you recommend?") 1;
   ChatResponse 0 ROk 2;
   ReadChunk 0 (lit "Our oat milk latte is a favourite, and the cold brew is great if you want something stronger and less sweet.") 3;
   ReadDone 0 4;
   Replay (CashierMsg 3);
   TtsEvent (Tts.AudioError 0)].

Lemma silenced_starts_no_speech_witness :
  silenced muted /\
  Forall (fun e => loud e = false) muted_turn /\
  filter is_speak (snd (run parse_subset muted muted_turn)) = [].
Proof.
  assert (H : silenced muted) by (right; split; vm_compute; reflexivity).
  assert (F : Forall (fun e => loud e = false) muted_turn)
    by (repeat constructor).
  split; [exact H|]. split; [exact F|].
  exact (proj1 (proj2 (silenced_starts_no_speech parse_subset muted
                         muted_turn H F))).
Defined.

(** ** When the microphone is activated *)

Import OrderCompleteFacts SilenceGuardFacts.

(** The order is open, voice mode is on, the cashier is not muted and no
    answer is being generated. *)
Definition may_listen (s : state) : Prop :=
  orderCompleteRef s = false /\ voiceModeRef s = true /\
  isMutedRef s = false /\ isRespondingRef s = false.

Definition activates (l : list call) : bool := existsb is_activate l.

(** A handler after which [may_listen] holds whenever it has entered
    [activateMic]; one that never enters it; one that keeps [may_listen]. *)
Definition act {A} (m : M A) : Prop :=
  forall s, activates (lg (m s)) = true -> may_listen (st (m s)).

Definition noact {A} (m : M A) : Prop :=
  keeps (fun _ => True) not_activate m.

Definition pres {A} (m : M A) : Prop := keeps may_listen any_call m.

Lemma not_activate_activates (l : list call) :
  forallb not_activate l = true -> activates l = false.
Proof.
  unfold activates. induction l as [|c l IH]; cbn; [reflexivity|].
  intros H. apply andb_prop in H. destruct H as [Hc Hl].
  unfold not_activate in Hc. destruct (is_activate c); [discriminate Hc|].
  now apply IH.
Qed.

Lemma noact_lg {A} (m : M A) (s : state) :
  noact m -> activates (lg (m s)) = false.
Proof. intros H. apply not_activate_activates. now apply (H s). Qed.

Lemma act_of_noact {A} (m : M A) : noact m -> act m.
Proof. intros H s E. now rewrite (noact_lg m s H) in E. Qed.

Lemma act_bind_quiet {A B} (m : M A) (k : A -> M B) :
  noact m -> (forall a, act (k a)) -> act (bind m k).
Proof.
  intros Hm Hk s E. rewrite bind_lg in E. unfold activates in E.
  rewrite existsb_app in E. fold (activates (lg (m s))) in E.
  rewrite (noact_lg m s Hm) in E. rewrite bind_st. now apply Hk.
Qed.

Lemma act_bind_then {A B} (m : M A) (k : A -> M B) :
  act m -> (forall a, act (k a)) -> (forall a, pres (k a)) ->
  act (bind m k).
Proof.
  intros Hm Hk Pk s E. rewrite bind_lg in E. unfold activates in E.
  rewrite existsb_app in E. rewrite bind_st.
  destruct (existsb is_activate (lg (k (val (m s)) (st (m s))))) eqn:E2.
  - now apply Hk.
  - rewrite orb_false_r in E. apply (Pk (val (m s)) (st (m s))).
    now apply Hm.
Qed.

Ltac frame_any := intros; first [exact I | eassumption].

Ltac noact_go known := keeps_go known ltac:(frame_any).

Lemma activateMic_pres : pres activateMic.
Proof. unfold pres. keeps_go ltac:(fail) ltac:(frame_any). Qed.

Lemma onTtsEnd_pres : pres onTtsEnd.
Proof. unfold pres. keeps_go ltac:(fail) ltac:(frame_any). Qed.

Lemma tts_out_pres (o : Tts.out) : pres (tts_out o).
Proof. unfold pres. keeps_go ltac:(fail) ltac:(frame_any). Qed.

Lemma tts_outs_pres (os : list Tts.out) : pres (each tts_out os).
Proof. unfold pres. keeps_go ltac:(fail) ltac:(frame_any). Qed.

Lemma end_turn_pres (n : turn_id) : pres (end_turn n).
Proof. unfold pres. keeps_go ltac:(fail) ltac:(frame_any). Qed.

Lemma onTtsEnd_act : act onTtsEnd.
Proof.
  intros s. unfold onTtsEnd. rewrite !bind_st, !bind_lg.
  cbn [gets st lg val fst snd app].
  destruct (orderCompleteRef s) eqn:Oc; [discriminate|].
  rewrite !bind_st, !bind_lg. cbn [gets st lg val fst snd app].
  destruct (voiceModeRef s) eqn:Vm; [|discriminate].
  destruct (isMutedRef s) eqn:Mu; [discriminate|]. cbn [negb orb].
  rewrite !bind_st, !bind_lg. cbn [gets st lg val fst snd app].
  destruct (isRespondingRef s) eqn:Re; [discriminate|]. intros _.
  now apply (activateMic_pres s).
Qed.

Lemma finally_block_act : act finally_block.
Proof.
  intros s. unfold finally_block. rewrite !bind_st, !bind_lg.
  cbn [modify gets st lg val fst snd app]. fold (idle s).
  set (b := ttsEndedWhileRespondingRef (idle s) && voiceModeRef (idle s)
            && negb (isMutedRef (idle s)) && negb (orderCompleteRef (idle s))).
  destruct b eqn:B; [|discriminate]. intros _. cbn [when].
  subst b. apply andb_prop in B. destruct B as [B Oc].
  apply andb_prop in B. destruct B as [B Mu].
  apply andb_prop in B. destruct B as [_ Vm].
  apply negb_true_iff in Oc, Mu.
  assert (P : pres (modify (set_ttsEndedWhileRespondingRef false) ;;
                    activateMic))
    by (unfold pres; keeps_go ltac:(apply activateMic_pres)
                              ltac:(frame_any)).
  apply (P (idle s)). now repeat split.
Qed.

Lemma tts_outs_noact (os : list Tts.out) :
  ~ In Tts.CallOnEnd os -> noact (each tts_out os).
Proof.
  unfold noact. induction os as [|o os IH]; intros N; cbn [each].
  - apply keeps_ret.
  - apply keeps_bind.
    + destruct o; try (exfalso; apply N; now left);
        unfold tts_out; keeps_go ltac:(fail) ltac:(frame_any).
    + intros _. apply IH. intros H. apply N. now right.
Qed.

Lemma stop_noact : noact stop.
Proof.
  intros s _. unfold stop. apply holds_bind.
  - split; [exact I|]. unfold with_tts, lg.
    now destruct (Tts.stop (tts s)).
  - intros _.
    assert (E : snd (val (with_tts
                       (fun t => let '(t', o) := Tts.stop t in (tt, t', o))
                       s)) = snd (Tts.stop (tts s))).
    { unfold with_tts, val. now destruct (Tts.stop (tts s)). }
    rewrite E. apply tts_outs_noact; [apply TtsFacts.stop_silent|exact I].
Qed.

Lemma speakMessage_noact (id : msgid) (text : jsstring) :
  noact (speakMessage id text).
Proof.
  intros s _. unfold speakMessage.
  apply holds_bind; [now split|]. intros _.
  apply holds_bind; [now split|]. intros _.
  cbn [modify emit st val fst snd].
  set (s1 := set_speakingMessageId (Some id) s).
  apply holds_bind.
  - split; [exact I|]. unfold with_tts, lg.
    now destruct (Tts.speak text (tts s1)) as [[c t'] o].
  - intros _.
    assert (E : snd (val (with_tts (Tts.speak text) s1))
                = snd (Tts.speak text (tts s1))).
    { unfold with_tts, val. now destruct (Tts.speak text (tts s1)) as [[c t'] o]. }
    apply holds_bind; [now split|]. intros _.
    rewrite E. apply tts_outs_noact; [apply TtsFacts.speak_silent|exact I].
Qed.

Lemma tts_outs_act (os : list Tts.out) : act (each tts_out os).
Proof.
  induction os as [|o os IH]; cbn [each].
  - apply act_of_noact. apply keeps_ret.
  - apply act_bind_then.
    + unfold tts_out. apply act_bind_quiet.
      * unfold noact. keeps_go ltac:(fail) ltac:(frame_any).
      * intros _. destruct o;
          first [ apply onTtsEnd_act
                | apply act_of_noact; unfold noact;
                  keeps_go ltac:(fail) ltac:(frame_any) ].
    + intros _. exact IH.
    + intros _. apply tts_outs_pres.
Qed.

Lemma finally_end_act (n : turn_id) : act (finally_block ;; end_turn n).
Proof.
  apply act_bind_then.
  - apply finally_block_act.
  - intros _. apply act_of_noact. unfold noact.
    keeps_go ltac:(fail) ltac:(frame_any).
  - intros _. apply end_turn_pres.
Qed.

Lemma finish_turn_act (n : turn_id) (t : turn) (sid : msgid)
  (displayContent : jsstring) :
  act (finish_turn n t sid displayContent).
Proof.
  unfold finish_turn.
  do 2 (apply act_bind_quiet; [apply keeps_gets|intros ?]).
  apply act_bind_quiet; [|intros _; apply finally_end_act].
  apply keeps_when. apply speakMessage_noact.
Qed.

Ltac noact_all :=
  unfold noact;
  noact_go ltac:(first [apply stop_noact | apply speakMessage_noact]).

Ltac act_go :=
  repeat first
    [ apply finish_turn_act
    | apply finally_end_act
    | apply tts_outs_act
    | match goal with
      | |- act (bind _ _) => apply act_bind_quiet; [solve [noact_all]|intros ?]
      | |- act (match ?x with _ => _ end) => destruct x
      | |- act (let _ := _ in _) => cbv zeta
      | |- act (ret _) => apply act_of_noact; apply keeps_ret
      | |- act (modify _) => apply act_of_noact; solve [noact_all]
      | |- act (put_turn _ _) => apply act_of_noact; solve [noact_all]
      | |- act (speakMessage _ _) =>
          apply act_of_noact; apply speakMessage_noact
      | |- act (each _ _) => apply act_of_noact; solve [noact_all]
      | |- act (when _ _) => apply act_of_noact; solve [noact_all]
      | |- act (emit _) => apply act_of_noact; solve [noact_all]
      | |- act ?m => let h := head_of m in progress unfold h
      end ].

Lemma handle_act (JSON_parse : jsstring -> option json) (e : event) :
  act (handle JSON_parse e).
Proof. destruct e; cbn [handle]; act_go. Qed.

(** X23: whatever the state and the event, when the handler of the event
    has entered [activateMic], then after it the order is open, voice mode
    is on, the cashier is not muted and the flag [isRespondingRef] is
    clear: the microphone is never activated for a completed order, in text
    mode, while muted or while that flag is set.  The flag is cleared by
    the [finally] block of every turn, so this says nothing of the other
    turns that may still be in flight. *)
Theorem mic_activated_only_when_allowed
  (JSON_parse : jsstring -> option json) (s : state) (e : event) :
  In CActivateMic (snd (step JSON_parse s e)) ->
  may_listen (fst (step JSON_parse s e)).
Proof.
  rewrite step_eq. cbn [fst snd]. intros H.
  apply (handle_act JSON_parse e s). unfold activates.
  apply existsb_exists. now exists CActivateMic.
Qed.

Definition greeting_played : state :=
  fst (run parse_subset (init true 0)
         [Begin;
          TtsEvent (Tts.FetchSettled 0 Tts.RespOk);
          TtsEvent (Tts.BlobSettled 0 Tts.BlobOk);
          TtsEvent (Tts.AudioEnded 0)]).

Lemma mic_activated_only_when_allowed_witness :
  In CActivateMic
     (snd (step parse_subset greeting_played (TtsEvent (Tts.EndTimer 0)))) /\
  may_listen
    (fst (step parse_subset greeting_played (TtsEvent (Tts.EndTimer 0)))).
Proof.
  assert (H : In CActivateMic
                 (snd (step parse_subset greeting_played
                         (TtsEvent (Tts.EndTimer 0)))))
    by (vm_compute; repeat (try (left; reflexivity); right)).
  split; [exact H|].
  exact (mic_activated_only_when_allowed parse_subset greeting_played
           (TtsEvent (Tts.EndTimer 0)) H).
Defined.

End ChatMore.

(* ------------------------------------------------------------------ *)
(** * The synthesis route and the input bar *)

Module RouteMore.
Import Js JsFacts TtsRoute.

Lemma trimEnd_prefix (s : jsstring) :
  exists ws, s = trimEnd s ++ ws /\ forallb is_space ws = true.
Proof.
  unfold trimEnd.
  destruct (ReceiptMore.trimStart_split (rev s)) as (ws & E & W).
  exists (rev ws). split.
  - rewrite <- rev_app_distr, <- E. now rewrite rev_involutive.
  - rewrite forallb_forall in *. intros c H. apply W. now apply in_rev.
Qed.

Lemma trim_nil : trim [] = [].
Proof. reflexivity. Qed.

Lemma truthy_trim (text : jsstring) :
  truthy (trim text) = true -> truthy text = true.
Proof. destruct text; [discriminate|reflexivity]. Qed.

Lemma firstn_all_or_cut (text : jsstring) :
  (if Nat.ltb MAX_TEXT_LENGTH (length text)
   then firstn MAX_TEXT_LENGTH text else text)
  = firstn MAX_TEXT_LENGTH text.
Proof.
  destruct (Nat.ltb_spec MAX_TEXT_LENGTH (length text)); [reflexivity|].
  symmetry. now apply firstn_all2.
Qed.

Lemma lastChar_snoc (s : jsstring) (c : char) :
  lastChar s = Some c -> exists body, s = body ++ [c].
Proof.
  unfold lastChar. destruct (rev s) as [|d r] eqn:E; [discriminate|].
  intros [= ->]. exists (rev r).
  rewrite <- (rev_involutive s), E. reflexivity.
Qed.

(** X24: the route answers 400 exactly to a blank text.  For any other
    text, what it sends to the synthesis service is a prefix of the text,
    of at most 500 characters and without trailing white space, followed
    by two spaces, with a period in between when that prefix does not end
    in one of the six punctuation marks: so it always ends in a
    punctuation mark and two spaces and has at most 503 characters. *)
Theorem paddedText_shape (text : jsstring) :
  match paddedText text with
  | None => truthy (trim text) = false
  | Some p =>
      truthy (trim text) = true /\
      length p <= MAX_TEXT_LENGTH + 3 /\
      (exists body c,
         p = body ++ [c; 32%N; 32%N] /\ is_punctuation c = true) /\
      (exists spoken rest,
         text = spoken ++ rest /\
         trimEnd spoken = spoken /\
         length spoken <= MAX_TEXT_LENGTH /\
         (p = spoken ++ lit "  " \/ p = spoken ++ lit ".  "))
  end.
Proof.
  unfold paddedText.
  destruct (truthy (trim text)) eqn:T.
  - rewrite (truthy_trim text T). cbn [negb orb].
    rewrite firstn_all_or_cut.
    set (spoken := trimEnd (firstn MAX_TEXT_LENGTH text)).
    assert (L : length spoken <= MAX_TEXT_LENGTH).
    { subst spoken. etransitivity; [apply trimEnd_length|].
      apply firstn_le_length. }
    assert (P : exists rest, text = spoken ++ rest).
    { destruct (trimEnd_prefix (firstn MAX_TEXT_LENGTH text))
        as (ws & E & _). fold spoken in E.
      exists (ws ++ skipn MAX_TEXT_LENGTH text).
      now rewrite app_assoc, <- E, firstn_skipn. }
    destruct P as (rest & P).
    assert (I : trimEnd spoken = spoken) by apply trimEnd_idem.
    clearbody spoken. unfold MAX_TEXT_LENGTH in *.
    split; [reflexivity|].
    destruct (lastChar spoken) as [c|] eqn:Lc.
    + destruct (is_punctuation c) eqn:Pc.
      * split; [rewrite length_app; cbn; lia|]. split.
        -- destruct (lastChar_snoc spoken c Lc) as (body & E).
           exists body, c. rewrite E, <- app_assoc. now split.
        -- exists spoken, rest. auto.
      * split; [rewrite length_app; cbn; lia|]. split.
        -- exists spoken, 46%N. now split.
        -- exists spoken, rest. auto.
    + split; [rewrite length_app; cbn; lia|]. split.
      * exists spoken, 46%N. now split.
      * exists spoken, rest. auto.
  - now rewrite orb_true_r.
Qed.

(** X25: every request that [speak] of the playback hook makes carries
    the text it was called with, and the route does not answer it with
    400 "text is required": the hook and the route agree on which texts
    are blank. *)
Theorem speak_request_accepted (s : Tts.state) (text t : jsstring)
  (c : Tts.call_id) :
  In (Tts.DoFetch c t) (snd (Tts.step s (Tts.Speak text))) ->
  t = text /\ exists p, paddedText t = Some p.
Proof.
  cbn [Tts.step]. unfold Tts.speak.
  pose proof (TtsFacts.stop_out s) as O.
  destruct (Tts.stop s) as [s1 o1]. cbn [snd] in O.
  assert (N : ~ In (Tts.DoFetch c t) o1).
  { rewrite O. intros H. apply in_app_or in H.
    destruct (Tts.abortControllerRef s), (Tts.audioRef s), H as [H|H];
      cbn in H; intuition discriminate. }
  destruct (truthy (trim text)) eqn:T; cbn [snd]; intros H;
    apply in_app_or in H; destruct H as [H|H]; try contradiction;
    cbn in H; destruct H as [H|[]]; try discriminate H.
  injection H as _ <-. split; [reflexivity|].
  pose proof (paddedText_shape text) as S.
  destruct (paddedText text) as [p|]; [now exists p|congruence].
Qed.

Lemma speak_request_accepted_witness :
  In (Tts.DoFetch 0 (lit "Anything else"))
     (snd (Tts.step Tts.init (Tts.Speak (lit "Anything else")))) /\
  paddedText (lit "Anything else") = Some (lit "Anything else.  ").
Proof.
  assert (H : In (Tts.DoFetch 0 (lit "Anything else"))
                 (snd (Tts.step Tts.init (Tts.Speak (lit "Anything else")))))
    by (vm_compute; left; reflexivity).
  split; [exact H|].
  destruct (speak_request_accepted Tts.init _ _ 0 H) as (_ & p & E).
  rewrite E. vm_compute in E. now injection E as <-.
Defined.

End RouteMore.

Module PageMore.
Import Js Json Receipt Chat ChatFacts JsFacts ChatMore.

Lemma val_gets {A} (f : state -> A) (s : state) : val (gets f s) = f s.
Proof. reflexivity. Qed.

Lemma st_gets {A} (f : state -> A) (s : state) : st (gets f s) = s.
Proof. reflexivity. Qed.

Lemma lg_gets {A} (f : state -> A) (s : state) : lg (gets f s) = [].
Proof. reflexivity. Qed.

Lemma st_emit (c : call) (s : state) : st (emit c s) = s.
Proof. reflexivity. Qed.

Lemma lg_emit (c : call) (s : state) : lg (emit c s) = [c].
Proof. reflexivity. Qed.

Lemma bind_gets_eq {A B} (f : state -> A) (k : A -> M B) (s : state) :
  bind (gets f) k s = k (f s) s.
Proof.
  unfold bind, gets. now destruct (k (f s) s) as [[b s2] l2].
Qed.

Create Rewrite HintDb handler.

#[local] Hint Rewrite @bind_st @bind_lg @bind_val st_modify lg_modify
  st_setMessages lg_setMessages @val_gets @st_gets @lg_gets st_emit lg_emit
  app_nil_r app_nil_l : handler.

(** What [handleSend] has done when it reaches [await fetch]. *)
Lemma handleSend_core (text : jsstring) (now : N) (s : state) :
  let userMsg := mkMsg (UserMsg now) customer text None None None None now in
  exists n l,
    core (st (handleSend text now s))
    = core (set_turns (turns s ++ [(n, mkTurn [] None 0 false AwaitResponse)])
              (set_isRespondingRef true
                 (set_isResponding true
                    (set_isTyping true
                       (set_messages (messages s ++ [userMsg]) s))))) /\
    lg (handleSend text now s)
    = l ++ [CFetchChat n (toApiMessages (messages s ++ [userMsg]))] /\
    forallb media_only l = true.
Proof.
  cbv zeta. unfold handleSend.
  destruct (media_spec _ s clearAutoListenTimer_media) as [C1 L1].
  set (s1 := st (clearAutoListenTimer s)) in *.
  destruct (media_spec _ s1 stop_media) as [C2 L2].
  set (s2 := st (stop s1)) in *.
  exists (nextTurn s2), (lg (clearAutoListenTimer s) ++ lg (stop s1)).
  autorewrite with handler. fold s1. fold s2.
  autorewrite with handler.
  set (l1 := lg (clearAutoListenTimer s)) in *.
  set (l2 := lg (stop s1)) in *.
  assert (E : messages s2 = messages s).
  { clearbody s2 s1. unfold core in *. congruence. }
  clearbody l1 l2 s2 s1. unfold core in *. cbn in C1, C2 |- *.
  split; [congruence|]. split.
  - now rewrite E, app_assoc.
  - now rewrite forallb_app, L1, L2.
Qed.

(** X26: the send control of the input bar does nothing while the flag
    [isResponding] is set or when the text is blank: nothing is sent and
    the text field keeps its value.  When the flag is clear and the text is
    not blank, the field is cleared and [handleSend] runs with the trimmed
    text: the customer's message, with that text, is added at the end, the
    flag is set and exactly one request is made, last, with the history
    that ends in that message; a second press in the state that results,
    where the flag is set, does nothing.  The flag is cleared by the
    [finally] block of every turn, so it can be clear while another turn is
    still reading its answer. *)
Theorem submit_gated (value : jsstring) (now : N) (s : state) :
  (isResponding s = true \/ truthy (trim value) = false ->
   Page.submit value now s = (value, s, [])) /\
  (isResponding s = false -> truthy (trim value) = true ->
   let r := Page.submit value now s in
   let userMsg :=
     mkMsg (UserMsg now) customer (trim value) None None None None now in
   val r = [] /\
   messages (st r) = messages s ++ [userMsg] /\
   isResponding (st r) = true /\
   (exists n l,
      lg r = l ++ [CFetchChat n (toApiMessages (messages s ++ [userMsg]))] /\
      forallb media_only l = true) /\
   forall value' now', Page.submit value' now' (st r) = (value', st r, [])).
Proof.
  split.
  - intros H. unfold Page.submit. rewrite bind_gets_eq.
    unfold ChatInput.handleSend.
    destruct H as [-> | ->]; [now rewrite orb_true_r|reflexivity].
  - intros R T. cbv zeta.
    assert (E : Page.submit value now s
                = (handleSend (trim value) now ;; ret []) s).
    { unfold Page.submit. rewrite bind_gets_eq, R.
      unfold ChatInput.handleSend. now rewrite T. }
    rewrite E.
    destruct (handleSend_core (trim value) now s) as (n & l & C & L & M).
    cbv zeta in C, L.
    rewrite bind_val, !bind_st, !bind_lg.
    cbn [ret val st lg fst snd]. rewrite app_nil_r.
    fold (st (handleSend (trim value) now s)).
    fold (lg (handleSend (trim value) now s)).
    set (s' := st (handleSend (trim value) now s)) in *. clearbody s'.
    unfold core in C. cbn in C. injection C as Hm _ _ _ _ _ _ _ _ Hr _ _.
    split; [reflexivity|]. split; [exact Hm|]. split; [exact Hr|].
    split; [now exists n, l|].
    intros value' now'. unfold Page.submit. rewrite bind_gets_eq, Hr.
    unfold ChatInput.handleSend. now rewrite orb_true_r.
Qed.

Lemma handleSend_keeps_menu (text : jsstring) (now : N) :
  keeps (fun s => menuOpen s = false) SilenceGuardFacts.any_call
        (handleSend text now).
Proof.
  unfold handleSend.
  keeps_go ltac:(fail) ltac:(intros; eassumption).
Qed.

(** X27: a tap on a menu item is not held back while an answer is being
    generated: in every state it closes the menu and runs [handleSend]
    with ["I'd like a " + name], which adds the customer's message, sets
    the responding flag, makes exactly one request, last, and adds one
    invocation to those in flight, which stay. *)
Theorem select_item_not_gated (JSON_parse : jsstring -> option json)
  (name : jsstring) (now : N) (s : state) :
  let r := handleSelectItem name now s in
  let userMsg :=
    mkMsg (UserMsg now) customer (lit "I'd like a " ++ name) None None None
          None now in
  menuOpen (st r) = false /\
  messages (st r) = messages s ++ [userMsg] /\
  isResponding (st r) = true /\
  exists n l,
    turns (st r) = turns s ++ [(n, mkTurn [] None 0 false AwaitResponse)] /\
    lg r = l ++ [CFetchChat n (toApiMessages (messages s ++ [userMsg]))] /\
    forallb media_only l = true.
Proof.
  cbv zeta. unfold handleSelectItem. rewrite bind_st, bind_lg.
  cbn [modify st lg val fst snd app].
  set (s0 := set_menuOpen false s).
  destruct (handleSend_core (lit "I'd like a " ++ name) now s0)
    as (n & l & C & L & M). cbv zeta in C, L.
  destruct (handleSend_keeps_menu (lit "I'd like a " ++ name) now s0
              eq_refl) as [K _].
  set (r := handleSend (lit "I'd like a " ++ name) now s0) in *.
  clearbody r. unfold core in C. cbn -[lit app] in C.
  injection C as Hm _ _ _ _ _ _ _ _ Hr _ Ht.
  split; [exact K|]. split; [exact Hm|]. split; [exact Hr|].
  exists n, l. now repeat split.
Qed.

End PageMore.
